(** * Intersection classification, curved-polygon assembly and polynomial
      sign certification of [bezier._surface_helpers]

    A shallow embedding of the parts of [src/bezier/_surface_helpers.py]
    that classify an edge-edge intersection of two Bezier triangles,
    walk the classified intersections into curved polygons, and decide
    the sign of a polynomial in Bernstein form on the reference triangle.

    Conventions of the embedding.
    - A Python [float] that holds a finite value is a rational [Q]; the
      comparisons [==], [<], [>] of the source are the exact comparisons of
      these values.  The arithmetic of the classifier that rounds lives in
      helpers outside this module ([evaluate_hodograph], [get_curvature],
      [cross_product], [numpy.vdot]); those are section variables, so the
      results hold for every implementation of them.  What the classifier
      computes itself, a negated tangent and the difference of two
      absolute curvatures, is only tested for its sign.
    - A Python exception is a value of [exn]; a call that may raise
      returns a [result].
    - A value that may be [None] is an [option]. *)

From Stdlib Require Import ZArith QArith Qabs String.
From stdpp Require Import base option list gmap strings.

Local Open Scope Z_scope.

(** ** Python values and exceptions *)

Inductive exn : Type :=
| ValueError (msg : string)
| NotImplementedError (msg : string)
| RuntimeError (msg : string) (count : Z)
| IndexError
| TypeError
| AttributeError
| KeyError.

Inductive result (A : Type) : Type :=
| Ok (a : A)
| Raise (e : exn).
Arguments Ok {A} a.
Arguments Raise {A} e.

#[global] Instance result_ret : MRet result := fun A a => Ok a.
#[global] Instance result_bind : MBind result := fun A B f m =>
  match m with
  | Ok a => f a
  | Raise e => Raise e
  end.

(** [x] where a float is needed: [None] is a [TypeError]. *)
Definition as_float (x : option Q) : result Q :=
  match x with Some q => Ok q | None => Raise TypeError end.

(** [x] where an integer index is needed. *)
Definition as_int (x : option Z) : result Z :=
  match x with Some i => Ok i | None => Raise TypeError end.

Definition Qltb (x y : Q) : bool := negb (Qle_bool y x).

(** [x == y] for a possibly-[None] attribute [x] and a float [y]. *)
Definition float_eq (x : option Q) (y : Q) : bool :=
  match x with Some q => Qeq_bool q y | None => false end.

(** [numpy.sign] on a finite float. *)
Definition _SIGN (x : Q) : Z :=
  if Qltb x 0 then -1 else if Qltb 0 x then 1 else 0.

(** Indexing a tuple, a list or the rows of an array with a Python
    integer: negative indices count from the end, anything else out of
    range raises [IndexError]. *)
Definition py_index {A} (l : list A) (i : Z) : result A :=
  let n := Z.of_nat (length l) in
  let j := if i <? 0 then n + i else i in
  if (0 <=? j) && (j <? n)
  then match l !! Z.to_nat j with Some a => Ok a | None => Raise IndexError end
  else Raise IndexError.

(** [X.pop()] on a set: [KeyError] when empty.  The source calls it on
    sets of one element only. *)
Definition set_pop `{Countable A} (X : gset A) : result A :=
  match elements X with
  | x :: _ => Ok x
  | [] => Raise KeyError
  end.

(** ** Data model *)

(** A point or a tangent of the plane: a [1x2] row of an array. *)
Definition vec : Type := (Q * Q)%type.

(** [v *= -1.0] *)
Definition vec_neg (v : vec) : vec := (- v.1, - v.2)%Q.

(** [class _IntersectionClassification(enum.Enum)] *)
Inductive IntersectionClassification : Type :=
| FIRST
| SECOND
| OPPOSED
| TANGENT_FIRST
| TANGENT_SECOND
| IGNORED_CORNER.

#[global] Instance IntersectionClassification_eq_dec :
  EqDecision IntersectionClassification.
Proof. solve_decision. Defined.

Definition classification_value (c : IntersectionClassification) : nat :=
  match c with
  | FIRST => 0 | SECOND => 1 | OPPOSED => 2
  | TANGENT_FIRST => 3 | TANGENT_SECOND => 4 | IGNORED_CORNER => 5
  end%nat.

Definition classification_of_value (n : nat)
  : option IntersectionClassification :=
  match n with
  | 0 => Some FIRST | 1 => Some SECOND | 2 => Some OPPOSED
  | 3 => Some TANGENT_FIRST | 4 => Some TANGENT_SECOND
  | 5 => Some IGNORED_CORNER | _ => None
  end%nat.

#[global] Instance IntersectionClassification_countable :
  Countable IntersectionClassification.
Proof.
  apply (inj_countable classification_value classification_of_value).
  by intros [].
Defined.

(** [_intersection_helpers.Intersection]: the attributes the source reads.
    [oid] is the identity of the Python object, which [is] and [in]
    compare; the other attributes may be [None] (the end-of-edge nodes
    made by [get_next_first] and [get_next_second]). *)
Record Intersection : Type := mkIntersection {
  oid : nat;
  index_first : option Z;
  s : option Q;
  index_second : option Z;
  t : option Q;
  interior_curve : option IntersectionClassification;
}.

(** A curve, as far as this module reads it: its control points. *)
Record Curve : Type := mkCurve { _nodes : list vec }.

(** [edges[index]._nodes] for a tuple of edges some of which may be
    [None] (as in the doctests of [classify_intersection]). *)
Definition edge_nodes (edges : list (option Curve)) (index : option Z)
  : result (list vec) :=
  i ← as_int index;
  e ← py_index edges i;
  match e with
  | Some c => Ok (_nodes c)
  | None => Raise AttributeError
  end.

Definition _SAME_CURVATURE : string := "Tangent curves have same curvature.".
Definition _BAD_TANGENT : string :=
  "Curves moving in opposite direction but define overlapping arcs.".
Definition _WRONG_CURVE : string :=
  "Start and end node not defined on same curve".

(** ** The intersection classifier *)

Section Classifier.

(** Helpers of [bezier._curve_helpers], [bezier._helpers] and [numpy]
    that the classifier calls; their code is not part of this module. *)
Variable evaluate_hodograph : Q -> list vec -> vec.
Variable get_curvature : list vec -> vec -> Q -> Q.
Variable cross_product : vec -> vec -> Q.
Variable vdot : vec -> vec -> Q.

Definition classify_tangent_intersection
    (intersection : Intersection) (nodes1 : list vec) (tangent1 : vec)
    (nodes2 : list vec) (tangent2 : vec)
  : result IntersectionClassification :=
  let dot_prod := vdot tangent1 tangent2 in
  sv ← as_float (s intersection);
  let curvature1 := get_curvature nodes1 tangent1 sv in
  tv ← as_float (t intersection);
  let curvature2 := get_curvature nodes2 tangent2 tv in
  if Qltb dot_prod 0 then
    let sign1 := _SIGN curvature1 in
    let sign2 := _SIGN curvature2 in
    if sign1 =? sign2 then
      if sign1 =? 1 then Ok OPPOSED
      else Raise (NotImplementedError _BAD_TANGENT)
    else
      let delta_c := (Qabs curvature1 - Qabs curvature2)%Q in
      if Qeq_bool delta_c 0 then Raise (NotImplementedError _SAME_CURVATURE)
      else if sign1 =? _SIGN delta_c then Ok OPPOSED
      else Raise (NotImplementedError _BAD_TANGENT)
  else
    if Qltb curvature2 curvature1 then Ok TANGENT_FIRST
    else if Qltb curvature1 curvature2 then Ok TANGENT_SECOND
    else Raise (NotImplementedError _SAME_CURVATURE).

Definition ignored_edge_corner
    (edge_tangent corner_tangent : vec) (corner_previous_edge : list vec)
  : bool :=
  let cross_prod := cross_product edge_tangent corner_tangent in
  if Qltb 0 cross_prod then false
  else
    let alt_corner_tangent :=
      vec_neg (evaluate_hodograph 1 corner_previous_edge) in
    let cross_prod := cross_product edge_tangent alt_corner_tangent in
    Qle_bool cross_prod 0.

Definition ignored_double_corner
    (intersection : Intersection) (tangent_s tangent_t : vec)
    (edges1 edges2 : list (option Curve)) : result bool :=
  i1 ← as_int (index_first intersection);
  let prev_index := (i1 - 1) `mod` 3 in
  prev_nodes ← edge_nodes edges1 (Some prev_index);
  let alt_tangent_s := evaluate_hodograph 1 prev_nodes in
  let cross_prod1 := cross_product tangent_s tangent_t in
  if Qle_bool 0 cross_prod1
     && Qle_bool 0 (cross_product alt_tangent_s tangent_t)
  then Ok false
  else
    i2 ← as_int (index_second intersection);
    let prev_index := (i2 - 1) `mod` 3 in
    prev_nodes ← edge_nodes edges2 (Some prev_index);
    let alt_tangent_t := vec_neg (evaluate_hodograph 1 prev_nodes) in
    let cross_prod3 := cross_product tangent_s alt_tangent_t in
    if Qle_bool 0 cross_prod3
       && Qle_bool 0 (cross_product alt_tangent_s alt_tangent_t)
    then Ok false
    else Ok (negb (Qle_bool cross_prod1 0 && Qle_bool 0 cross_prod3)).

Definition ignored_corner
    (intersection : Intersection) (tangent_s tangent_t : vec)
    (edges1 edges2 : list (option Curve)) : result bool :=
  if float_eq (s intersection) 0 then
    if float_eq (t intersection) 0 then
      ignored_double_corner intersection tangent_s tangent_t edges1 edges2
    else
      i1 ← as_int (index_first intersection);
      let prev_index := (i1 - 1) `mod` 3 in
      prev_nodes ← edge_nodes edges1 (Some prev_index);
      Ok (ignored_edge_corner tangent_t tangent_s prev_nodes)
  else if float_eq (t intersection) 0 then
    i2 ← as_int (index_second intersection);
    let prev_index := (i2 - 1) `mod` 3 in
    prev_nodes ← edge_nodes edges2 (Some prev_index);
    Ok (ignored_edge_corner tangent_s tangent_t prev_nodes)
  else Ok false.

Definition classify_intersection
    (intersection : Intersection) (edges1 edges2 : list (option Curve))
  : result IntersectionClassification :=
  if float_eq (s intersection) 1 || float_eq (t intersection) 1 then
    Raise (ValueError "Intersection occurs at the end of an edge")
  else
    nodes1 ← edge_nodes edges1 (index_first intersection);
    sv ← as_float (s intersection);
    let tangent1 := evaluate_hodograph sv nodes1 in
    nodes2 ← edge_nodes edges2 (index_second intersection);
    tv ← as_float (t intersection);
    let tangent2 := evaluate_hodograph tv nodes2 in
    ignored ← ignored_corner intersection tangent1 tangent2 edges1 edges2;
    if ignored : bool then Ok IGNORED_CORNER
    else
      let cross_prod := cross_product tangent1 tangent2 in
      if Qltb cross_prod 0 then Ok FIRST
      else if Qltb 0 cross_prod then Ok SECOND
      else classify_tangent_intersection
             intersection nodes1 tangent1 nodes2 tangent2.

End Classifier.

(** ** The curved-polygon assembler *)

(** A surface, as far as this module reads it: its control points
    (the attribute [_nodes] of [bezier.Surface]). *)
Record Surface : Type := mkSurface { surface_nodes : list vec }.

(** [curved_polygon.CurvedPolygon], built from a sequence of edges with
    [_verify=False], keeps these edges. *)
Record CurvedPolygon : Type := mkCurvedPolygon { _edges : list Curve }.

(** An element of the list [combine_intersections] returns:
    [Union[CurvedPolygon, Surface]]. *)
Inductive Shape : Type :=
| WholeSurface (surface : Surface)
| Polygon (polygon : CurvedPolygon).

(** Number of boundary edges of a returned shape (a surface is a
    triangle). *)
Definition num_edges (sh : Shape) : Z :=
  match sh with
  | WholeSurface _ => 3
  | Polygon p => Z.of_nat (length (_edges p))
  end.

(** A return value of [ends_to_curve]:
    [(first, index, start, end)]. *)
Definition EdgeInfo : Type := (bool * option Z * option Q * option Q)%type.

(** [x == y] on two attributes that hold a float or [None]. *)
Definition opt_float_eq (x y : option Q) : bool :=
  match x, y with
  | Some a, Some b => Qeq_bool a b
  | None, None => true
  | _, _ => false
  end.

(** [x > y] and [x < y] on attributes: ordering [None] against a float
    is a [TypeError] (Python 3). *)
Definition py_gt (x y : option Q) : result bool :=
  a ← as_float x; b ← as_float y; Ok (Qltb b a).
Definition py_lt (x y : option Q) : result bool :=
  a ← as_float x; b ← as_float y; Ok (Qltb a b).

Definition edge_info_eq (a b : EdgeInfo) : bool :=
  let '(first_a, index_a, start_a, end_a) := a in
  let '(first_b, index_b, start_b, end_b) := b in
  bool_decide (first_a = first_b) && bool_decide (index_a = index_b)
  && opt_float_eq start_a start_b && opt_float_eq end_a end_b.

(** Equality of two tuples of edge descriptions. *)
Fixpoint edge_infos_eq (a b : list EdgeInfo) : bool :=
  match a, b with
  | [], [] => true
  | x :: a', y :: b' => edge_info_eq x y && edge_infos_eq a' b'
  | _, _ => false
  end.

Definition whole_edge (first : bool) (index : Z) : EdgeInfo :=
  (first, Some index, Some 0%Q, Some 1%Q).

Definition FIRST_SURFACE_INFO : list (list EdgeInfo) :=
  [ [whole_edge true 0; whole_edge true 1; whole_edge true 2];
    [whole_edge true 1; whole_edge true 2; whole_edge true 0];
    [whole_edge true 2; whole_edge true 0; whole_edge true 1] ].

Definition SECOND_SURFACE_INFO : list (list EdgeInfo) :=
  [ [whole_edge false 0; whole_edge false 1; whole_edge false 2];
    [whole_edge false 1; whole_edge false 2; whole_edge false 0];
    [whole_edge false 2; whole_edge false 0; whole_edge false 1] ].

(** [_ACCEPTABLE = (FIRST, SECOND)]; [interior_curve in _ACCEPTABLE]. *)
Definition in_ACCEPTABLE (c : option IntersectionClassification) : bool :=
  bool_decide (c = Some FIRST) || bool_decide (c = Some SECOND).

(** [a is b] on intersection objects. *)
Definition is_ (a b : Intersection) : bool := Nat.eqb (oid a) (oid b).

(** [x in l] for a list of intersection objects (the class defines no
    [__eq__], so membership is identity). *)
Definition in_list (x : Intersection) (l : list Intersection) : bool :=
  existsb (is_ x) l.

(** [l.remove(x)]: drops the first occurrence. *)
Fixpoint list_remove (x : Intersection) (l : list Intersection)
  : list Intersection :=
  match l with
  | [] => []
  | y :: l' => if is_ x y then l' else y :: list_remove x l'
  end.

(** [l.pop()]: the last element and the list without it. *)
Fixpoint list_pop (l : list Intersection)
  : option (Intersection * list Intersection) :=
  match l with
  | [] => None
  | [x] => Some (x, [])
  | y :: l' =>
      match list_pop l' with
      | Some (x, rest) => Some (x, y :: rest)
      | None => None
      end
  end.

(** The mutable state of one call of [basic_interior_combine]: the list
    [unused], which [get_next] and [to_front] update in place, and the
    identity the next allocated [Intersection] receives. *)
Record Walk : Type := mkWalk {
  unused : list Intersection;
  next_oid : nat;
}.

(** [Intersection(index_first, s, index_second, t, interior_curve=...)]:
    a new object. *)
Definition new_Intersection
    (i1 : option Z) (sv : option Q) (i2 : option Z) (tv : option Q)
    (ic : option IntersectionClassification) (w : Walk)
  : Intersection * Walk :=
  (mkIntersection (next_oid w) i1 sv i2 tv ic,
   mkWalk (unused w) (S (next_oid w))).

(** [if x in unused: unused.remove(x)] *)
Definition mark_used (x : Intersection) (w : Walk) : Walk :=
  if in_list x (unused w)
  then mkWalk (list_remove x (unused w)) (next_oid w)
  else w.

(** The search of [to_front] for an existing intersection at the place
    of the rotated one. *)
Fixpoint to_front_existing
    (intersection : Intersection) (intersections : list Intersection)
  : Intersection :=
  match intersections with
  | [] => intersection
  | other_int :: rest =>
      if opt_float_eq (s other_int) (s intersection)
         && bool_decide (index_first other_int = index_first intersection)
      then other_int
      else if opt_float_eq (t other_int) (t intersection)
         && bool_decide (index_second other_int = index_second intersection)
      then other_int
      else to_front_existing intersection rest
  end.

Definition to_front
    (intersection : Intersection) (intersections : list Intersection)
    (w : Walk) : result (Intersection * Walk) :=
  '(changed, intersection, w) ←
    (if float_eq (s intersection) 1 then
       i1 ← as_int (index_first intersection);
       let next_index := (i1 + 1) `mod` 3 in
       let '(fresh, w) :=
         new_Intersection (Some next_index) (Some 0%Q)
           (index_second intersection) (t intersection)
           (interior_curve intersection) w in
       Ok (true, fresh, w)
     else Ok (false, intersection, w));
  '(changed, intersection, w) ←
    (if float_eq (t intersection) 1 then
       i2 ← as_int (index_second intersection);
       let next_index := (i2 + 1) `mod` 3 in
       let '(fresh, w) :=
         new_Intersection (index_first intersection) (s intersection)
           (Some next_index) (Some 0%Q)
           (interior_curve intersection) w in
       Ok (true, fresh, w)
     else Ok (changed, intersection, w));
  let intersection :=
    if changed : bool then to_front_existing intersection intersections
    else intersection in
  Ok (intersection, mark_used intersection w).

(** The loop of [get_next_first]; [along_edge] is [None] or the best
    candidate so far. *)
Fixpoint get_next_first_scan
    (index_first0 : option Z) (s0 : option Q)
    (along_edge : option Intersection) (intersections : list Intersection)
  : result (option Intersection) :=
  match intersections with
  | [] => Ok along_edge
  | other_int :: rest =>
      let other_s := s other_int in
      beyond ←
        (if bool_decide (index_first other_int = index_first0)
         then py_gt other_s s0 else Ok false);
      if beyond : bool then
        interior ← py_lt other_s (Some 1%Q);
        if interior && negb (in_ACCEPTABLE (interior_curve other_int))
        then get_next_first_scan index_first0 s0 along_edge rest
        else
          closer ←
            match along_edge with
            | None => Ok true
            | Some best => py_lt other_s (s best)
            end;
          get_next_first_scan index_first0 s0
            (if closer : bool then Some other_int else along_edge) rest
      else get_next_first_scan index_first0 s0 along_edge rest
  end.

Definition get_next_first
    (intersection : Intersection) (intersections : list Intersection)
    (w : Walk) : result (Intersection * Walk) :=
  let index_first0 := index_first intersection in
  along_edge ←
    get_next_first_scan index_first0 (s intersection) None intersections;
  match along_edge with
  | None =>
      Ok (new_Intersection index_first0 (Some 1%Q) None None (Some FIRST) w)
  | Some found => Ok (found, w)
  end.

Fixpoint get_next_second_scan
    (index_second0 : option Z) (t0 : option Q)
    (along_edge : option Intersection) (intersections : list Intersection)
  : result (option Intersection) :=
  match intersections with
  | [] => Ok along_edge
  | other_int :: rest =>
      let other_t := t other_int in
      beyond ←
        (if bool_decide (index_second other_int = index_second0)
         then py_gt other_t t0 else Ok false);
      if beyond : bool then
        interior ← py_lt other_t (Some 1%Q);
        if interior && negb (in_ACCEPTABLE (interior_curve other_int))
        then get_next_second_scan index_second0 t0 along_edge rest
        else
          closer ←
            match along_edge with
            | None => Ok true
            | Some best => py_lt other_t (t best)
            end;
          get_next_second_scan index_second0 t0
            (if closer : bool then Some other_int else along_edge) rest
      else get_next_second_scan index_second0 t0 along_edge rest
  end.

Definition get_next_second
    (intersection : Intersection) (intersections : list Intersection)
    (w : Walk) : result (Intersection * Walk) :=
  let index_second0 := index_second intersection in
  along_edge ←
    get_next_second_scan index_second0 (t intersection) None intersections;
  match along_edge with
  | None =>
      Ok (new_Intersection None None index_second0 (Some 1%Q) (Some SECOND) w)
  | Some found => Ok (found, w)
  end.

Definition get_next
    (intersection : Intersection) (intersections : list Intersection)
    (w : Walk) : result (Intersection * Walk) :=
  '(found, w) ←
    match interior_curve intersection with
    | Some FIRST => get_next_first intersection intersections w
    | Some SECOND => get_next_second intersection intersections w
    | _ =>
        Raise (ValueError
          "Cannot get next node if not starting from 'first' or 'second'.")
    end;
  Ok (found, mark_used found w).

Definition ends_to_curve (start_node end_node : Intersection)
  : result EdgeInfo :=
  match interior_curve start_node with
  | Some FIRST =>
      if bool_decide (index_first end_node = index_first start_node)
      then Ok (true, index_first start_node, s start_node, s end_node)
      else Raise (ValueError _WRONG_CURVE)
  | Some SECOND =>
      if bool_decide (index_second end_node = index_second start_node)
      then Ok (false, index_second start_node, t start_node, t end_node)
      else Raise (ValueError _WRONG_CURVE)
  | _ =>
      Raise (ValueError
        "Segment start must be classified as 'FIRST' or 'SECOND'.")
  end.

(** [tuple(ends_to_curve(a, b) for a, b in edge_ends)] *)
Fixpoint ends_to_curves (edge_ends : list (Intersection * Intersection))
  : result (list EdgeInfo) :=
  match edge_ends with
  | [] => Ok []
  | (start_node, end_node) :: rest =>
      info ← ends_to_curve start_node end_node;
      infos ← ends_to_curves rest;
      Ok (info :: infos)
  end.

Section Assembler.

(** [Surface.locate(point, _verify=False)] and [Curve.specialize(start,
    end)] belong to [bezier.surface] and [bezier.curve]; their code is
    not part of this module. *)
Variable locate : Surface -> vec -> option (Q * Q).
Variable specialize : Curve -> Q -> Q -> Curve.

Definition no_intersections (surface1 surface2 : Surface)
  : result (list Shape) :=
  corner1 ← py_index (surface_nodes surface1) 0;
  if locate surface2 corner1 is Some _ then Ok [WholeSurface surface1]
  else
    corner2 ← py_index (surface_nodes surface2) 0;
    if locate surface1 corner2 is Some _ then Ok [WholeSurface surface2]
    else Ok [].

Definition tangent_only_intersections
    (intersections : list Intersection) (surface1 surface2 : Surface)
  : result (list Shape) :=
  let all_types : gset (option IntersectionClassification) :=
    list_to_set (interior_curve <$> intersections) in
  if bool_decide (size all_types ≠ 1%nat) then
    Raise (ValueError "Unexpected value, types should all match")
  else
    point_type ← set_pop all_types;
    match point_type with
    | Some OPPOSED => Ok []
    | Some IGNORED_CORNER => Ok []
    | Some TANGENT_FIRST => Ok [WholeSurface surface1]
    | Some TANGENT_SECOND => Ok [WholeSurface surface2]
    | _ => Raise (ValueError "Point type not for tangency")
    end.

(** The loop of [make_intersection] that specializes each edge. *)
Fixpoint specialize_edges
    (edge_info : list EdgeInfo) (edges1 edges2 : list (option Curve))
  : result (list Curve) :=
  match edge_info with
  | [] => Ok []
  | (first, index, start, end_) :: rest =>
      i ← as_int index;
      e ← py_index (if first : bool then edges1 else edges2) i;
      curve ← (if e is Some c then Ok c else Raise AttributeError);
      a ← as_float start;
      b ← as_float end_;
      let edge := specialize curve a b in
      edges ← specialize_edges rest edges1 edges2;
      Ok (edge :: edges)
  end.

Definition make_intersection
    (edge_info : list EdgeInfo)
    (surface1 : Surface) (edges1 : list (option Curve))
    (surface2 : Surface) (edges2 : list (option Curve)) : result Shape :=
  if existsb (edge_infos_eq edge_info) FIRST_SURFACE_INFO then
    Ok (WholeSurface surface1)
  else if existsb (edge_infos_eq edge_info) SECOND_SURFACE_INFO then
    Ok (WholeSurface surface2)
  else
    edges ← specialize_edges edge_info edges1 edges2;
    Ok (Polygon (mkCurvedPolygon edges)).

(** What one pass through the body of the inner [while] of
    [basic_interior_combine] does when it does not raise. *)
Inductive Iteration : Type :=
| Break (w : Walk)
| Continue (next_node : Intersection)
           (edge_ends : list (Intersection * Intersection)) (w : Walk).

Section Walk.

Variable intersections : list Intersection.
Variable max_edges : Z.

(** The body of [while next_node is not start]. *)
Definition walk_body
    (start next_node : Intersection)
    (edge_ends : list (Intersection * Intersection)) (w : Walk)
  : result Iteration :=
  '(curr_node, w) ← to_front next_node intersections w;
  if is_ curr_node start then Ok (Break w)
  else
    '(next_node, w) ← get_next curr_node intersections w;
    let edge_ends := edge_ends ++ [(curr_node, next_node)] in
    if Z.of_nat (length edge_ends) >? max_edges then
      Raise (RuntimeError "Unexpected number of edges"
               (Z.of_nat (length edge_ends)))
    else Ok (Continue next_node edge_ends w).

(** [while next_node is not start: ...]; [None] when [fuel] passes
    through the body were not enough to leave the loop. *)
Fixpoint walk_loop
    (fuel : nat) (start next_node : Intersection)
    (edge_ends : list (Intersection * Intersection)) (w : Walk)
  : option (result (list (Intersection * Intersection) * Walk)) :=
  if is_ next_node start then Some (Ok (edge_ends, w))
  else
    match fuel with
    | O => None
    | S fuel' =>
        match walk_body start next_node edge_ends w with
        | Raise e => Some (Raise e)
        | Ok (Break w) => Some (Ok (edge_ends, w))
        | Ok (Continue next_node edge_ends w) =>
            walk_loop fuel' start next_node edge_ends w
        end
    end.

End Walk.

(** One pass through the body of [while unused] after
    [start = unused.pop()]: walks one loop and converts it. *)
Definition combine_one
    (inner_fuel : nat) (intersections : list Intersection)
    (surface1 : Surface) (edges1 : list (option Curve))
    (surface2 : Surface) (edges2 : list (option Curve)) (max_edges : Z)
    (start : Intersection) (w : Walk)
  : option (result (Shape * Walk)) :=
  let curr_node := start in
  match get_next start intersections w with
  | Raise e => Some (Raise e)
  | Ok (next_node, w) =>
      match walk_loop intersections max_edges inner_fuel start next_node
              [(curr_node, next_node)] w with
      | None => None
      | Some (Raise e) => Some (Raise e)
      | Some (Ok (edge_ends, w)) =>
          Some (edge_info ← ends_to_curves edge_ends;
                shape ← make_intersection
                          edge_info surface1 edges1 surface2 edges2;
                Ok (shape, w))
      end
  end.

(** [while unused: ...]; [None] when [fuel] passes were not enough. *)
Fixpoint combine_loop
    (inner_fuel fuel : nat) (intersections : list Intersection)
    (surface1 : Surface) (edges1 : list (option Curve))
    (surface2 : Surface) (edges2 : list (option Curve)) (max_edges : Z)
    (w : Walk) (result_ : list Shape) : option (result (list Shape)) :=
  match list_pop (unused w) with
  | None => Some (Ok result_)
  | Some (start, rest) =>
      match fuel with
      | O => None
      | S fuel' =>
          match combine_one inner_fuel intersections
                  surface1 edges1 surface2 edges2 max_edges
                  start (mkWalk rest (next_oid w)) with
          | None => None
          | Some (Raise e) => Some (Raise e)
          | Some (Ok (shape, w)) =>
              combine_loop inner_fuel fuel' intersections
                surface1 edges1 surface2 edges2 max_edges
                w (result_ ++ [shape])
          end
      end
  end.

(** The identity of the first object allocated during a call: one that
    no intersection passed in has. *)
Definition first_free_oid (intersections : list Intersection) : nat :=
  S (max_list (oid <$> intersections)).

(** [basic_interior_combine]; [fuel] bounds the passes through each of
    its two [while] loops. *)
Definition basic_interior_combine
    (fuel : nat) (intersections : list Intersection)
    (surface1 : Surface) (edges1 : list (option Curve))
    (surface2 : Surface) (edges2 : list (option Curve)) (max_edges : Z)
  : option (result (list Shape)) :=
  let unused0 :=
    filter (λ i, in_ACCEPTABLE (interior_curve i) = true) intersections in
  combine_loop fuel fuel intersections
    surface1 edges1 surface2 edges2 max_edges
    (mkWalk unused0 (first_free_oid intersections)) [].

(** The default of the keyword argument [max_edges]. *)
Definition default_max_edges : Z := 10.

Definition combine_intersections
    (fuel : nat) (intersections : list Intersection)
    (surface1 : Surface) (edges1 : list (option Curve))
    (surface2 : Surface) (edges2 : list (option Curve))
  : option (result (list Shape)) :=
  match intersections with
  | [] => Some (no_intersections surface1 surface2)
  | _ =>
      match basic_interior_combine fuel intersections
              surface1 edges1 surface2 edges2 default_max_edges with
      | None => None
      | Some (Raise e) => Some (Raise e)
      | Some (Ok []) =>
          Some (tangent_only_intersections intersections surface1 surface2)
      | Some (Ok result_) => Some (Ok result_)
      end
  end.

End Assembler.

(** ** The sign of a polynomial on the reference triangle *)

Definition _MAX_POLY_SUBDIVISIONS : nat := 5.

(** An integer matrix divided by [d], as the module constants are
    written. *)
Definition over (d : positive) (m : list (list Z)) : list (list Q) :=
  map (map (fun z => Qmake z d)) m.

Definition LINEAR_SUBDIVIDE_A : list (list Q) :=
  over 2
  [ [2; 0; 0];
    [1; 1; 0];
    [1; 0; 1] ].

Definition LINEAR_SUBDIVIDE_B : list (list Q) :=
  over 2
  [ [0; 1; 1];
    [1; 0; 1];
    [1; 1; 0] ].

Definition LINEAR_SUBDIVIDE_C : list (list Q) :=
  over 2
  [ [1; 1; 0];
    [0; 2; 0];
    [0; 1; 1] ].

Definition LINEAR_SUBDIVIDE_D : list (list Q) :=
  over 2
  [ [1; 0; 1];
    [0; 1; 1];
    [0; 0; 2] ].

Definition QUADRATIC_SUBDIVIDE_A : list (list Q) :=
  over 4
  [ [4; 0; 0; 0; 0; 0];
    [2; 2; 0; 0; 0; 0];
    [1; 2; 1; 0; 0; 0];
    [2; 0; 0; 2; 0; 0];
    [1; 1; 0; 1; 1; 0];
    [1; 0; 0; 2; 0; 1] ].

Definition QUADRATIC_SUBDIVIDE_B : list (list Q) :=
  over 4
  [ [0; 0; 1; 0; 2; 1];
    [0; 1; 0; 1; 1; 1];
    [1; 0; 0; 2; 0; 1];
    [0; 1; 1; 1; 1; 0];
    [1; 1; 0; 1; 1; 0];
    [1; 2; 1; 0; 0; 0] ].

Definition QUADRATIC_SUBDIVIDE_C : list (list Q) :=
  over 4
  [ [1; 2; 1; 0; 0; 0];
    [0; 2; 2; 0; 0; 0];
    [0; 0; 4; 0; 0; 0];
    [0; 1; 1; 1; 1; 0];
    [0; 0; 2; 0; 2; 0];
    [0; 0; 1; 0; 2; 1] ].

Definition QUADRATIC_SUBDIVIDE_D : list (list Q) :=
  over 4
  [ [1; 0; 0; 2; 0; 1];
    [0; 1; 0; 1; 1; 1];
    [0; 0; 1; 0; 2; 1];
    [0; 0; 0; 2; 0; 2];
    [0; 0; 0; 0; 2; 2];
    [0; 0; 0; 0; 0; 4] ].

Definition CUBIC_SUBDIVIDE_A : list (list Q) :=
  over 8
  [ [8; 0; 0; 0; 0; 0; 0; 0; 0; 0];
    [4; 4; 0; 0; 0; 0; 0; 0; 0; 0];
    [2; 4; 2; 0; 0; 0; 0; 0; 0; 0];
    [1; 3; 3; 1; 0; 0; 0; 0; 0; 0];
    [4; 0; 0; 0; 4; 0; 0; 0; 0; 0];
    [2; 2; 0; 0; 2; 2; 0; 0; 0; 0];
    [1; 2; 1; 0; 1; 2; 1; 0; 0; 0];
    [2; 0; 0; 0; 4; 0; 0; 2; 0; 0];
    [1; 1; 0; 0; 2; 2; 0; 1; 1; 0];
    [1; 0; 0; 0; 3; 0; 0; 3; 0; 1] ].

Definition CUBIC_SUBDIVIDE_B : list (list Q) :=
  over 8
  [ [0; 0; 0; 1; 0; 0; 3; 0; 3; 1];
    [0; 0; 1; 0; 0; 2; 1; 1; 2; 1];
    [0; 1; 0; 0; 1; 2; 0; 2; 1; 1];
    [1; 0; 0; 0; 3; 0; 0; 3; 0; 1];
    [0; 0; 1; 1; 0; 2; 2; 1; 1; 0];
    [0; 1; 1; 0; 1; 2; 1; 1; 1; 0];
    [1; 1; 0; 0; 2; 2; 0; 1; 1; 0];
    [0; 1; 2; 1; 1; 2; 1; 0; 0; 0];
    [1; 2; 1; 0; 1; 2; 1; 0; 0; 0];
    [1; 3; 3; 1; 0; 0; 0; 0; 0; 0] ].

Definition CUBIC_SUBDIVIDE_C : list (list Q) :=
  over 8
  [ [1; 3; 3; 1; 0; 0; 0; 0; 0; 0];
    [0; 2; 4; 2; 0; 0; 0; 0; 0; 0];
    [0; 0; 4; 4; 0; 0; 0; 0; 0; 0];
    [0; 0; 0; 8; 0; 0; 0; 0; 0; 0];
    [0; 1; 2; 1; 1; 2; 1; 0; 0; 0];
    [0; 0; 2; 2; 0; 2; 2; 0; 0; 0];
    [0; 0; 0; 4; 0; 0; 4; 0; 0; 0];
    [0; 0; 1; 1; 0; 2; 2; 1; 1; 0];
    [0; 0; 0; 2; 0; 0; 4; 0; 2; 0];
    [0; 0; 0; 1; 0; 0; 3; 0; 3; 1] ].

Definition CUBIC_SUBDIVIDE_D : list (list Q) :=
  over 8
  [ [1; 0; 0; 0; 3; 0; 0; 3; 0; 1];
    [0; 1; 0; 0; 1; 2; 0; 2; 1; 1];
    [0; 0; 1; 0; 0; 2; 1; 1; 2; 1];
    [0; 0; 0; 1; 0; 0; 3; 0; 3; 1];
    [0; 0; 0; 0; 2; 0; 0; 4; 0; 2];
    [0; 0; 0; 0; 0; 2; 0; 2; 2; 2];
    [0; 0; 0; 0; 0; 0; 2; 0; 4; 2];
    [0; 0; 0; 0; 0; 0; 0; 4; 0; 4];
    [0; 0; 0; 0; 0; 0; 0; 0; 4; 4];
    [0; 0; 0; 0; 0; 0; 0; 0; 0; 8] ].

Definition QUARTIC_SUBDIVIDE_A : list (list Q) :=
  over 16
  [ [16; 0; 0; 0; 0; 0; 0; 0; 0; 0; 0; 0; 0; 0; 0];
    [8; 8; 0; 0; 0; 0; 0; 0; 0; 0; 0; 0; 0; 0; 0];
    [4; 8; 4; 0; 0; 0; 0; 0; 0; 0; 0; 0; 0; 0; 0];
    [2; 6; 6; 2; 0; 0; 0; 0; 0; 0; 0; 0; 0; 0; 0];
    [1; 4; 6; 4; 1; 0; 0; 0; 0; 0; 0; 0; 0; 0; 0];
    [8; 0; 0; 0; 0; 8; 0; 0; 0; 0; 0; 0; 0; 0; 0];
    [4; 4; 0; 0; 0; 4; 4; 0; 0; 0; 0; 0; 0; 0; 0];
    [2; 4; 2; 0; 0; 2; 4; 2; 0; 0; 0; 0; 0; 0; 0];
    [1; 3; 3; 1; 0; 1; 3; 3; 1; 0; 0; 0; 0; 0; 0];
    [4; 0; 0; 0; 0; 8; 0; 0; 0; 4; 0; 0; 0; 0; 0];
    [2; 2; 0; 0; 0; 4; 4; 0; 0; 2; 2; 0; 0; 0; 0];
    [1; 2; 1; 0; 0; 2; 4; 2; 0; 1; 2; 1; 0; 0; 0];
    [2; 0; 0; 0; 0; 6; 0; 0; 0; 6; 0; 0; 2; 0; 0];
    [1; 1; 0; 0; 0; 3; 3; 0; 0; 3; 3; 0; 1; 1; 0];
    [1; 0; 0; 0; 0; 4; 0; 0; 0; 6; 0; 0; 4; 0; 1] ].

Definition QUARTIC_SUBDIVIDE_B : list (list Q) :=
  over 16
  [ [0; 0; 0; 0; 1; 0; 0; 0; 4; 0; 0; 6; 0; 4; 1];
    [0; 0; 0; 1; 0; 0; 0; 3; 1; 0; 3; 3; 1; 3; 1];
    [0; 0; 1; 0; 0; 0; 2; 2; 0; 1; 4; 1; 2; 2; 1];
    [0; 1; 0; 0; 0; 1; 3; 0; 0; 3; 3; 0; 3; 1; 1];
    [1; 0; 0; 0; 0; 4; 0; 0; 0; 6; 0; 0; 4; 0; 1];
    [0; 0; 0; 1; 1; 0; 0; 3; 3; 0; 3; 3; 1; 1; 0];
    [0; 0; 1; 1; 0; 0; 2; 3; 1; 1; 3; 2; 1; 1; 0];
    [0; 1; 1; 0; 0; 1; 3; 2; 0; 2; 3; 1; 1; 1; 0];
    [1; 1; 0; 0; 0; 3; 3; 0; 0; 3; 3; 0; 1; 1; 0];
    [0; 0; 1; 2; 1; 0; 2; 4; 2; 1; 2; 1; 0; 0; 0];
    [0; 1; 2; 1; 0; 1; 3; 3; 1; 1; 2; 1; 0; 0; 0];
    [1; 2; 1; 0; 0; 2; 4; 2; 0; 1; 2; 1; 0; 0; 0];
    [0; 1; 3; 3; 1; 1; 3; 3; 1; 0; 0; 0; 0; 0; 0];
    [1; 3; 3; 1; 0; 1; 3; 3; 1; 0; 0; 0; 0; 0; 0];
    [1; 4; 6; 4; 1; 0; 0; 0; 0; 0; 0; 0; 0; 0; 0] ].

Definition QUARTIC_SUBDIVIDE_C : list (list Q) :=
  over 16
  [ [1; 4; 6; 4; 1; 0; 0; 0; 0; 0; 0; 0; 0; 0; 0];
    [0; 2; 6; 6; 2; 0; 0; 0; 0; 0; 0; 0; 0; 0; 0];
    [0; 0; 4; 8; 4; 0; 0; 0; 0; 0; 0; 0; 0; 0; 0];
    [0; 0; 0; 8; 8; 0; 0; 0; 0; 0; 0; 0; 0; 0; 0];
    [0; 0; 0; 0; 16; 0; 0; 0; 0; 0; 0; 0; 0; 0; 0];
    [0; 1; 3; 3; 1; 1; 3; 3; 1; 0; 0; 0; 0; 0; 0];
    [0; 0; 2; 4; 2; 0; 2; 4; 2; 0; 0; 0; 0; 0; 0];
    [0; 0; 0; 4; 4; 0; 0; 4; 4; 0; 0; 0; 0; 0; 0];
    [0; 0; 0; 0; 8; 0; 0; 0; 8; 0; 0; 0; 0; 0; 0];
    [0; 0; 1; 2; 1; 0; 2; 4; 2; 1; 2; 1; 0; 0; 0];
    [0; 0; 0; 2; 2; 0; 0; 4; 4; 0; 2; 2; 0; 0; 0];
    [0; 0; 0; 0; 4; 0; 0; 0; 8; 0; 0; 4; 0; 0; 0];
    [0; 0; 0; 1; 1; 0; 0; 3; 3; 0; 3; 3; 1; 1; 0];
    [0; 0; 0; 0; 2; 0; 0; 0; 6; 0; 0; 6; 0; 2; 0];
    [0; 0; 0; 0; 1; 0; 0; 0; 4; 0; 0; 6; 0; 4; 1] ].

Definition QUARTIC_SUBDIVIDE_D : list (list Q) :=
  over 16
  [ [1; 0; 0; 0; 0; 4; 0; 0; 0; 6; 0; 0; 4; 0; 1];
    [0; 1; 0; 0; 0; 1; 3; 0; 0; 3; 3; 0; 3; 1; 1];
    [0; 0; 1; 0; 0; 0; 2; 2; 0; 1; 4; 1; 2; 2; 1];
    [0; 0; 0; 1; 0; 0; 0; 3; 1; 0; 3; 3; 1; 3; 1];
    [0; 0; 0; 0; 1; 0; 0; 0; 4; 0; 0; 6; 0; 4; 1];
    [0; 0; 0; 0; 0; 2; 0; 0; 0; 6; 0; 0; 6; 0; 2];
    [0; 0; 0; 0; 0; 0; 2; 0; 0; 2; 4; 0; 4; 2; 2];
    [0; 0; 0; 0; 0; 0; 0; 2; 0; 0; 4; 2; 2; 4; 2];
    [0; 0; 0; 0; 0; 0; 0; 0; 2; 0; 0; 6; 0; 6; 2];
    [0; 0; 0; 0; 0; 0; 0; 0; 0; 4; 0; 0; 8; 0; 4];
    [0; 0; 0; 0; 0; 0; 0; 0; 0; 0; 4; 0; 4; 4; 4];
    [0; 0; 0; 0; 0; 0; 0; 0; 0; 0; 0; 4; 0; 8; 4];
    [0; 0; 0; 0; 0; 0; 0; 0; 0; 0; 0; 0; 8; 0; 8];
    [0; 0; 0; 0; 0; 0; 0; 0; 0; 0; 0; 0; 0; 8; 8];
    [0; 0; 0; 0; 0; 0; 0; 0; 0; 0; 0; 0; 0; 0; 16] ].

Definition _WEIGHTS_SUBDIVIDE0 : Q * Q * Q := (1, 0, 0)%Q.
Definition _WEIGHTS_SUBDIVIDE1 : Q * Q * Q := (0.5, 0.5, 0)%Q.
Definition _WEIGHTS_SUBDIVIDE2 : Q * Q * Q := (0.5, 0, 0.5)%Q.
Definition _WEIGHTS_SUBDIVIDE3 : Q * Q * Q := (0, 0.5, 0.5)%Q.
Definition _WEIGHTS_SUBDIVIDE4 : Q * Q * Q := (0, 1, 0)%Q.
Definition _WEIGHTS_SUBDIVIDE5 : Q * Q * Q := (0, 0, 1)%Q.

Definition dot_product (row column : list Q) : Q :=
  foldr Qplus 0%Q (zip_with Qmult row column).

(** Modelled from the spec: [matrix_product(matrix, nodes) -> nodes] of
    [bezier._helpers] is missing from the sources; it is the product of
    a matrix with an array of nodes, here an array of one column, and
    like [numpy.dot] it raises [ValueError] when the shapes do not fit. *)
Definition matrix_product (mat : list (list Q)) (nodes : list Q)
  : result (list Q) :=
  if forallb (fun row => Nat.eqb (length row) (length nodes)) mat
  then Ok (map (fun row => dot_product row nodes) mat)
  else Raise (ValueError "shapes not aligned").

(** What the loop over [sub_polys] of one round hands back: the
    [return 0] inside the loop, or the loop ran to its end. *)
Inductive Scan : Type :=
| Mixed
| Scanned (signs : gset Z) (undecided : list (list Q)).

Section Polynomial.

(** [specialize_surface] is bound when the module is loaded, to
    [_specialize_surface] or to its compiled counterpart;
    [_subdivide_nodes] calls it for the degrees without a subdivision
    matrix. *)
Variable specialize_surface :
  list Q -> Z -> Q * Q * Q -> Q * Q * Q -> Q * Q * Q -> result (list Q).

(** [_subdivide_nodes] on an array of one column. *)
Definition _subdivide_nodes (nodes : list Q) (degree : Z)
  : result (list Q * list Q * list Q * list Q) :=
  if degree =? 1 then
    nodes_a ← matrix_product LINEAR_SUBDIVIDE_A nodes;
    nodes_b ← matrix_product LINEAR_SUBDIVIDE_B nodes;
    nodes_c ← matrix_product LINEAR_SUBDIVIDE_C nodes;
    nodes_d ← matrix_product LINEAR_SUBDIVIDE_D nodes;
    Ok (nodes_a, nodes_b, nodes_c, nodes_d)
  else if degree =? 2 then
    nodes_a ← matrix_product QUADRATIC_SUBDIVIDE_A nodes;
    nodes_b ← matrix_product QUADRATIC_SUBDIVIDE_B nodes;
    nodes_c ← matrix_product QUADRATIC_SUBDIVIDE_C nodes;
    nodes_d ← matrix_product QUADRATIC_SUBDIVIDE_D nodes;
    Ok (nodes_a, nodes_b, nodes_c, nodes_d)
  else if degree =? 3 then
    nodes_a ← matrix_product CUBIC_SUBDIVIDE_A nodes;
    nodes_b ← matrix_product CUBIC_SUBDIVIDE_B nodes;
    nodes_c ← matrix_product CUBIC_SUBDIVIDE_C nodes;
    nodes_d ← matrix_product CUBIC_SUBDIVIDE_D nodes;
    Ok (nodes_a, nodes_b, nodes_c, nodes_d)
  else if degree =? 4 then
    nodes_a ← matrix_product QUARTIC_SUBDIVIDE_A nodes;
    nodes_b ← matrix_product QUARTIC_SUBDIVIDE_B nodes;
    nodes_c ← matrix_product QUARTIC_SUBDIVIDE_C nodes;
    nodes_d ← matrix_product QUARTIC_SUBDIVIDE_D nodes;
    Ok (nodes_a, nodes_b, nodes_c, nodes_d)
  else
    nodes_a ← specialize_surface nodes degree
      _WEIGHTS_SUBDIVIDE0 _WEIGHTS_SUBDIVIDE1 _WEIGHTS_SUBDIVIDE2;
    nodes_b ← specialize_surface nodes degree
      _WEIGHTS_SUBDIVIDE3 _WEIGHTS_SUBDIVIDE2 _WEIGHTS_SUBDIVIDE1;
    nodes_c ← specialize_surface nodes degree
      _WEIGHTS_SUBDIVIDE1 _WEIGHTS_SUBDIVIDE4 _WEIGHTS_SUBDIVIDE3;
    nodes_d ← specialize_surface nodes degree
      _WEIGHTS_SUBDIVIDE2 _WEIGHTS_SUBDIVIDE3 _WEIGHTS_SUBDIVIDE5;
    Ok (nodes_a, nodes_b, nodes_c, nodes_d).

(** [subdivide_nodes] is bound to [_subdivide_nodes] when the compiled
    module is absent. *)
Definition subdivide_nodes := _subdivide_nodes.

(** [functools.reduce(operator.add, [subdivide_nodes(poly, degree) for
    poly in undecided], ())]: the four sub-surfaces of every undecided
    polynomial, in order. *)
Fixpoint subdivide_all (undecided : list (list Q)) (degree : Z)
  : result (list (list Q)) :=
  match undecided with
  | [] => Ok []
  | poly :: rest =>
      '(nodes_a, nodes_b, nodes_c, nodes_d) ← subdivide_nodes poly degree;
      subs ← subdivide_all rest degree;
      Ok (nodes_a :: nodes_b :: nodes_c :: nodes_d :: subs)
  end.

(** [for poly in sub_polys: ...] of one round. *)
Fixpoint sign_scan
    (degree : Z) (signs : gset Z) (undecided : list (list Q))
    (sub_polys : list (list Q)) : result Scan :=
  match sub_polys with
  | [] => Ok (Scanned signs undecided)
  | poly :: rest =>
      corner0 ← py_index poly 0;
      corner1 ← py_index poly degree;
      corner2 ← py_index poly (-1);
      let signs :=
        signs ∪ {[ _SIGN corner0 ]} ∪ {[ _SIGN corner1 ]}
              ∪ {[ _SIGN corner2 ]} in
      let '(signs, undecided) :=
        if forallb (fun c => Qeq_bool c 0) poly then
          (signs ∪ {[ 0 ]}, undecided)
        else if forallb (fun c => Qltb 0 c) poly then
          (signs ∪ {[ 1 ]}, undecided)
        else if forallb (fun c => Qltb c 0) poly then
          (signs ∪ {[ -1 ]}, undecided)
        else (signs, undecided ++ [poly]) in
      if bool_decide (1 < size signs)%nat then Ok Mixed
      else sign_scan degree signs undecided rest
  end.

(** The code after the [for] loop over the rounds. *)
Definition sign_conclusion (signs : gset Z) (sub_polys : list (list Q))
  : result Z :=
  match sub_polys with
  | [] => set_pop signs
  | _ =>
      Raise (ValueError "Did not reach a conclusion after max subdivisions")
  end.

(** [for _ in six.moves.xrange(_MAX_POLY_SUBDIVISIONS): ...] followed by
    the conclusion, with [remaining] rounds to go.  Next to the outcome
    it counts the rounds that replaced [sub_polys] by a new, non-empty
    tuple of sub-surfaces. *)
Fixpoint sign_rounds
    (remaining : nat) (degree : Z) (signs : gset Z)
    (sub_polys : list (list Q)) : result Z * nat :=
  match remaining with
  | O => (sign_conclusion signs sub_polys, O)
  | S remaining' =>
      match sign_scan degree signs [] sub_polys with
      | Raise e => (Raise e, O)
      | Ok Mixed => (Ok 0, O)
      | Ok (Scanned signs undecided) =>
          match subdivide_all undecided degree with
          | Raise e => (Raise e, O)
          | Ok [] => (sign_conclusion signs [], O)
          | Ok sub_polys =>
              let '(outcome, count) :=
                sign_rounds remaining' degree signs sub_polys in
              (outcome, S count)
          end
      end
  end.

Definition polynomial_sign (poly_surface : list Q) (degree : Z)
  : result Z :=
  (sign_rounds _MAX_POLY_SUBDIVISIONS degree ∅ [poly_surface]).1.

(** The number of rounds of subdivision a call goes through. *)
Definition polynomial_sign_subdivisions (poly_surface : list Q) (degree : Z)
  : nat :=
  (sign_rounds _MAX_POLY_SUBDIVISIONS degree ∅ [poly_surface]).2.

End Polynomial.

(** The invariant of the data model on the intersections handed to the
    assembler: the four attributes are numbers, the parameters [s] and
    [t] lie in the half-open interval from 0 to 1 (an intersection at
    the end of an edge has been rotated to the start of the next edge
    by [handle_ends]), and an object is listed under one identity. *)
Definition in_unit_interval (x : option Q) : Prop :=
  exists q, x = Some q /\ (0 <= q)%Q /\ (q < 1)%Q.

Definition valid_intersection (i : Intersection) : Prop :=
  is_Some (index_first i) /\ is_Some (index_second i)
  /\ in_unit_interval (s i) /\ in_unit_interval (t i).

Definition valid_intersections (intersections : list Intersection) : Prop :=
  Forall valid_intersection intersections
  /\ forall a b, a ∈ intersections -> b ∈ intersections ->
                 oid a = oid b -> a = b.

(** While [basic_interior_combine] runs, [unused] holds intersections
    of the list and the next identity is a new one. *)
Definition walk_inv (intersections : list Intersection) (w : Walk) : Prop :=
  (forall a, a ∈ intersections -> (oid a < next_oid w)%nat)
  /\ (forall a, a ∈ unused w -> a ∈ intersections).

(** The values [numpy.sign] gives, which are all that [signs] collects. *)
Definition signs_ok (signs : gset Z) : Prop :=
  forall x, x ∈ signs -> x = -1 \/ x = 0 \/ x = 1.

(** ** Exact helpers for worked examples *)

Definition vec_add (v w : vec) : vec := (v.1 + w.1, v.2 + w.2)%Q.
Definition vec_sub (v w : vec) : vec := (v.1 - w.1, v.2 - w.2)%Q.
Definition vec_scale (c : Q) (v : vec) : vec := (c * v.1, c * v.2)%Q.
Definition vec_eqb (v w : vec) : bool := Qeq_bool v.1 w.1 && Qeq_bool v.2 w.2.

(** Modelled from the spec: [cross_product(v, w) -> scalar] of
    [bezier._helpers] is missing from the sources; it is the 2D cross
    product [x1 * y2 - x2 * y1] that the documentation of
    [classify_intersection] writes out. *)
Definition cross_product_exact (v w : vec) : Q :=
  (v.1 * w.2 - w.1 * v.2)%Q.

(** Modelled from the spec: [numpy.vdot] on two rows of the plane, the
    dot product. *)
Definition vdot_exact (v w : vec) : Q := (v.1 * w.1 + v.2 * w.2)%Q.

(** First differences of a control polygon. *)
Fixpoint differences (nodes : list vec) : list vec :=
  match nodes with
  | a :: (b :: _) as rest => vec_sub b a :: differences rest
  | _ => []
  end.

(** One round of de Casteljau's algorithm on a curve. *)
Fixpoint casteljau_round (x : Q) (nodes : list vec) : list vec :=
  match nodes with
  | a :: (b :: _) as rest =>
      vec_add (vec_scale (1 - x) a) (vec_scale x b) :: casteljau_round x rest
  | _ => []
  end.

Fixpoint casteljau (rounds : nat) (x : Q) (nodes : list vec) : list vec :=
  match rounds with
  | O => nodes
  | S n => casteljau n x (casteljau_round x nodes)
  end.

(** The point at parameter [x] of the curve with control points [nodes]. *)
Definition evaluate_exact (nodes : list vec) (x : Q) : vec :=
  default (0, 0)%Q (head (casteljau (length nodes - 1) x nodes)).

(** Modelled from the spec: [evaluate_hodograph(s, curve) -> tangent] of
    [bezier._curve_helpers] is missing from the sources; the hodograph
    is the derivative curve, [degree] times the curve on the first
    differences of the control points, evaluated in exact arithmetic. *)
Definition evaluate_hodograph_exact (x : Q) (nodes : list vec) : vec :=
  let degree := Z.of_nat (length nodes - 1) in
  vec_scale (inject_Z degree) (evaluate_exact (differences nodes) x).

(** The first doctest of [classify_intersection]. *)
Definition doctest1_curve1 : Curve :=
  mkCurve [(1, 0); (1.75, 0.25); (2, 1)]%Q.
Definition doctest1_curve2 : Curve :=
  mkCurve [(0, 0); (1.6875, 0.0625); (2, 0.5)]%Q.
Definition doctest1_intersection : Intersection :=
  mkIntersection 0 (Some 0) (Some 0.25%Q) (Some 0) (Some 0.5%Q) None.
Definition doctest1_edges1 : list (option Curve) :=
  [Some doctest1_curve1; None; None].
Definition doctest1_edges2 : list (option Curve) :=
  [Some doctest1_curve2; None; None].

(** Modelled from the spec: [get_curvature(curve, tangent, s) -> scalar]
    of [bezier._curve_helpers] is missing from the sources; the signed
    curvature is the cross product of the tangent with the second
    derivative, over the cube of the length of the tangent.  This exact
    version is for a tangent along the first axis, whose length is the
    absolute value of its first coordinate. *)
Definition get_curvature_horizontal
    (nodes : list vec) (tangent_vec : vec) (x : Q) : Q :=
  let degree := inject_Z (Z.of_nat (length nodes - 1)) in
  let concavity :=
    vec_scale (degree * (degree - 1))
      (evaluate_exact (differences (differences nodes)) x) in
  let norm := Qabs tangent_vec.1 in
  (cross_product_exact tangent_vec concavity / (norm * norm * norm))%Q.

(** The curves of the doctests 2 to 6 of [classify_intersection], which
    meet tangentially at [s = t = 0.5]. *)
Definition narrow_arc : Curve := mkCurve [(1, 0); (1.5, 1); (2, 0)]%Q.
Definition narrow_arc_reversed : Curve :=
  mkCurve [(2, 0); (1.5, 1); (1, 0)]%Q.
Definition wide_arc : Curve := mkCurve [(0, 0); (1.5, 1); (3, 0)]%Q.
Definition wide_arc_reversed : Curve :=
  mkCurve [(3, 0); (1.5, 1); (0, 0)]%Q.
Definition doctest6_curve1 : Curve :=
  mkCurve [(0.375, 0.0625); (-0.125, -0.0625); (-0.125, 0.0625)]%Q.
Definition doctest6_curve2 : Curve :=
  mkCurve [(0.75, 0.25); (-0.25, -0.25); (-0.25, 0.25)]%Q.

(** [Intersection(0, 0.5, 0, 0.5)] *)
Definition midpoint_intersection : Intersection :=
  mkIntersection 0 (Some 0) (Some 0.5%Q) (Some 0) (Some 0.5%Q) None.

(** [classify_intersection(intersection, (curve1, None, None),
    (curve2, None, None))] with the exact helpers. *)
Definition classify_midpoint (curve1 curve2 : Curve)
  : result IntersectionClassification :=
  classify_intersection evaluate_hodograph_exact get_curvature_horizontal
    cross_product_exact vdot_exact
    midpoint_intersection [Some curve1; None; None] [Some curve2; None; None].

(** The intersections that [classify_intersection] hands to
    [classify_tangent_intersection]: past the end-of-edge guard, not an
    ignored corner, and with tangents whose cross product is zero. *)
Definition tangent_intersection
    (evaluate_hodograph : Q -> list vec -> vec)
    (cross_product : vec -> vec -> Q)
    (i : Intersection) (edges1 edges2 : list (option Curve))
    (sv tv : Q) (nodes1 nodes2 : list vec) : Prop :=
  s i = Some sv /\ t i = Some tv
  /\ ~ (sv == 1)%Q /\ ~ (tv == 1)%Q
  /\ edge_nodes edges1 (index_first i) = Ok nodes1
  /\ edge_nodes edges2 (index_second i) = Ok nodes2
  /\ ignored_corner evaluate_hodograph cross_product i
       (evaluate_hodograph sv nodes1) (evaluate_hodograph tv nodes2)
       edges1 edges2 = Ok false
  /\ (cross_product (evaluate_hodograph sv nodes1)
        (evaluate_hodograph tv nodes2) == 0)%Q.

(** Modelled from the spec: [locate(surface, point) -> parameter|None]
    of [bezier.Surface] is missing from the sources; it is the
    point-in-surface test.  This exact version is for a straight-sided
    triangle, given by its three corners: it solves for the Cartesian
    parameters of the point and accepts them inside the reference
    triangle. *)
Definition locate_linear (surface : Surface) (point : vec)
  : option (Q * Q) :=
  match surface_nodes surface with
  | [a; b; c] =>
      let u := vec_sub b a in
      let v := vec_sub c a in
      let p := vec_sub point a in
      let det := cross_product_exact u v in
      if Qeq_bool det 0 then None
      else
        let x := (cross_product_exact p v / det)%Q in
        let y := (cross_product_exact u p / det)%Q in
        if Qle_bool 0 x && Qle_bool 0 y && Qle_bool (x + y) 1
        then Some (x, y) else None
  | _ => None
  end.

(** The value at the arguments [args] of the blossom of a curve. *)
Fixpoint blossom (nodes : list vec) (args : list Q) : list vec :=
  match args with
  | [] => nodes
  | x :: rest => blossom (casteljau_round x nodes) rest
  end.

(** Modelled from the spec: [specialize(curve, start, end) -> Curve] of
    [bezier.Curve] is missing from the sources; it reparametrizes the
    curve to the sub-interval, here in exact arithmetic through the
    blossom of the curve. *)
Definition specialize_exact (curve : Curve) (start end_ : Q) : Curve :=
  let nodes := _nodes curve in
  let degree := (length nodes - 1)%nat in
  mkCurve
    ((fun k => default (0, 0)%Q
        (head (blossom nodes (replicate (degree - k) start
                                ++ replicate k end_))))
       <$> seq 0 (length nodes)).

(** Straight-sided triangles for worked examples. *)
Definition unit_triangle : Surface := mkSurface [(0, 0); (1, 0); (0, 1)]%Q.
Definition shifted_triangle : Surface :=
  mkSurface [(5, 0); (6, 0); (5, 1)]%Q.
Definition inner_triangle : Surface :=
  mkSurface [(0.25, 0.25); (0.5, 0.25); (0.25, 0.5)]%Q.

(** The three straight edges of [unit_triangle]. *)
Definition unit_triangle_edges : list (option Curve) :=
  [ Some (mkCurve [(0, 0); (1, 0)]%Q);
    Some (mkCurve [(1, 0); (0, 1)]%Q);
    Some (mkCurve [(0, 1); (0, 0)]%Q) ].

(** Two intersection objects on the first edge of the first surface and
    at [t = 0.25] on the first edge of the second: a crossing at
    [s = 0.5] classified [FIRST] and a tangency at the end [s = 1.0]. *)
Definition crossing_at_half : Intersection :=
  mkIntersection 0 (Some 0) (Some 0.5%Q) (Some 0) (Some 0.25%Q) (Some FIRST).
Definition tangency_at_end : Intersection :=
  mkIntersection 1 (Some 0) (Some 1.0%Q) (Some 0) (Some 0.25%Q)
    (Some TANGENT_FIRST).

(** A stand-in for [specialize_surface] in examples of degree 1 to 4,
    which never reach it. *)
Definition specialize_surface_unused
    (nodes : list Q) (degree : Z) (weights_a weights_b weights_c : Q * Q * Q)
  : result (list Q) :=
  Raise (ValueError "not reached for degree 1 to 4").

(** Bernstein coefficients of [(3 s - 1)^2 + (3 t - 1)^2] in degree 2:
    positive on the triangle except for a zero at [(1/3, 1/3)]. *)
Definition touching_zero : list Q := [2; -1; 5; -1; -4; 5]%Q.

(** Bernstein coefficients of [1 - 2 s] in degree 1. *)
Definition changing_sign : list Q := [1; -1; 1]%Q.

(** Bernstein coefficients of [(2 s - 1)^2 + (2 t - 1)^2 + 1] in
    degree 2: positive, with a negative coefficient. *)
Definition positive_bowl : list Q := [3; 1; 3; 1; -1; 3]%Q.

(** The three edges of a straight-sided triangle, as [Surface.edges]
    gives them for degree 1. *)
Definition linear_edges (surface : Surface) : list (option Curve) :=
  match surface_nodes surface with
  | [a; b; c] =>
      [Some (mkCurve [a; b]); Some (mkCurve [b; c]); Some (mkCurve [c; a])]
  | _ => []
  end.

(** Two triangles that overlap in the triangle [(2,0), (8,0), (2,6)];
    their boundaries cross at [(2,0)] and at [(2,6)]. *)
Definition big_triangle : Surface := mkSurface [(0, 0); (8, 0); (0, 8)]%Q.
Definition moved_triangle : Surface :=
  mkSurface [(2, -1); (10, -1); (2, 7)]%Q.
Definition crossing_bottom : Intersection :=
  mkIntersection 0 (Some 0) (Some 0.25%Q) (Some 2) (Some 0.875%Q)
    (Some FIRST).
Definition crossing_slope : Intersection :=
  mkIntersection 1 (Some 1) (Some 0.75%Q) (Some 2) (Some 0.125%Q)
    (Some SECOND).

(** A triangle inscribed in [big_triangle]: each of its corners lies in
    the middle of an edge of [big_triangle]. *)
Definition inscribed_triangle : Surface :=
  mkSurface [(4, 0); (4, 4); (0, 4)]%Q.
Definition inscribed_corners : list Intersection :=
  [ mkIntersection 0 (Some 0) (Some 0%Q) (Some 0) (Some 0.5%Q) (Some FIRST);
    mkIntersection 1 (Some 1) (Some 0%Q) (Some 1) (Some 0.5%Q) (Some FIRST);
    mkIntersection 2 (Some 2) (Some 0%Q) (Some 2) (Some 0.5%Q) (Some FIRST) ].

(** ** Preparing the intersections *)

(** [handle_ends(index1, s, index2, t)], on the integers and floats its
    documentation asks for. *)
Definition handle_ends (index1 : Z) (sv : Q) (index2 : Z) (tv : Q)
  : bool * (Z * Q * Z * Q) :=
  let edge_end := false in
  let '(sv, index1, edge_end) :=
    if Qeq_bool sv 1 then (0%Q, (index1 + 1) `mod` 3, true)
    else (sv, index1, edge_end) in
  let '(tv, index2, edge_end) :=
    if Qeq_bool tv 1 then (0%Q, (index2 + 1) `mod` 3, true)
    else (tv, index2, edge_end) in
  (edge_end, (index1, sv, index2, tv)).

(** [Intersection(index1, s, index2, t)] on the four values
    [handle_ends] returns: the object [Surface.intersect] hands to
    [classify_intersection]. *)
Definition Intersection_of
    (o : nat) (args : Z * Q * Z * Q)
    (ic : option IntersectionClassification) : Intersection :=
  let '(index1, sv, index2, tv) := args in
  mkIntersection o (Some index1) (Some sv) (Some index2) (Some tv) ic.

(** The classification seen from the other surface. *)
Definition mirror_classification (c : IntersectionClassification)
  : IntersectionClassification :=
  match c with
  | FIRST => SECOND
  | SECOND => FIRST
  | TANGENT_FIRST => TANGENT_SECOND
  | TANGENT_SECOND => TANGENT_FIRST
  | OPPOSED => OPPOSED
  | IGNORED_CORNER => IGNORED_CORNER
  end.

(** An intersection with the roles of the two surfaces exchanged. *)
Definition swap_intersection (i : Intersection) : Intersection :=
  mkIntersection (oid i) (index_second i) (t i) (index_first i) (s i)
    (mirror_classification <$> interior_curve i).

(** A straight edge through [(1.5, 0.5)], which [narrow_arc_reversed]
    touches there from below while running the other way. *)
Definition straight_edge : Curve := mkCurve [(0, 0.5); (1.5, 0.5); (3, 0.5)]%Q.

(** The exceptions [basic_interior_combine] lets out: a [TypeError], an
    [IndexError] or an [AttributeError] of a lookup, the [ValueError] of
    [get_next] and the [RuntimeError] of the edge bound. *)
Definition assembler_exn (e : exn) : Prop :=
  match e with
  | ValueError msg =>
      msg = "Cannot get next node if not starting from 'first' or 'second'."
  | RuntimeError msg _ => msg = "Unexpected number of edges"
  | TypeError | IndexError | AttributeError => True
  | NotImplementedError _ | KeyError => False
  end.

(** A pair of nodes that [ends_to_curve] converts. *)
Definition converts (pair : Intersection * Intersection) : Prop :=
  exists info, ends_to_curve pair.1 pair.2 = Ok info.

(** What [get_next_first] looks for from [node]: an intersection on the
    same edge of the first surface, further along, and classified
    [FIRST] or [SECOND] unless it lies at the end of the edge. *)
Definition first_candidate (node other : Intersection) : Prop :=
  index_first other = index_first node
  /\ py_gt (s other) (s node) = Ok true
  /\ (py_lt (s other) (Some 1%Q) = Ok true ->
      in_ACCEPTABLE (interior_curve other) = true).

(** The candidate kept so far is the nearest of those seen. *)
Definition nearest_first
    (node : Intersection) (seen : list Intersection)
    (along_edge : option Intersection) : Prop :=
  match along_edge with
  | None => forall x, x ∈ seen -> ~ first_candidate node x
  | Some best =>
      best ∈ seen /\ first_candidate node best
      /\ forall x, x ∈ seen -> first_candidate node x ->
                   py_lt (s x) (s best) = Ok false
  end.

(** The state of a walk with the roles of the two surfaces
    exchanged. *)
Definition swap_walk (w : Walk) : Walk :=
  mkWalk (swap_intersection <$> unused w) (next_oid w).

(** A matrix whose rows are convex weights: entries that are not
    negative and sum to one. *)
Definition convex_rows (mat : list (list Q)) : bool :=
  forallb (fun row => forallb (Qle_bool 0) row
                      && Qeq_bool (foldr Qplus 0%Q row) 1) mat.

(** The subdivision matrices of a degree from 1 to 4. *)
Definition subdivision_matrices (degree : Z) : list (list (list Q)) :=
  if degree =? 1 then
    [LINEAR_SUBDIVIDE_A; LINEAR_SUBDIVIDE_B;
     LINEAR_SUBDIVIDE_C; LINEAR_SUBDIVIDE_D]
  else if degree =? 2 then
    [QUADRATIC_SUBDIVIDE_A; QUADRATIC_SUBDIVIDE_B;
     QUADRATIC_SUBDIVIDE_C; QUADRATIC_SUBDIVIDE_D]
  else if degree =? 3 then
    [CUBIC_SUBDIVIDE_A; CUBIC_SUBDIVIDE_B;
     CUBIC_SUBDIVIDE_C; CUBIC_SUBDIVIDE_D]
  else if degree =? 4 then
    [QUARTIC_SUBDIVIDE_A; QUARTIC_SUBDIVIDE_B;
     QUARTIC_SUBDIVIDE_C; QUARTIC_SUBDIVIDE_D]
  else [].

(** A matrix is square of the size [n]. *)
Definition square_of_size (n : nat) (mat : list (list Q)) : bool :=
  Nat.eqb (length mat) n && forallb (fun row => Nat.eqb (length row) n) mat.

(** ** The nodes of the three edges of a surface *)

(** The loop of [_compute_edge_nodes] with [count] rows still to fill;
    the three arrays are filled from their first row on. *)
Fixpoint compute_edge_nodes_loop {A} (nodes : list A) (degree : Z)
    (count : nat) (i curr2 curr3 : Z) (nodes1 nodes2 nodes3 : list A)
  : result (list A * list A * list A) :=
  match count with
  | O => Ok (nodes1, nodes2, nodes3)
  | S count' =>
      row1 ← py_index nodes i;
      row2 ← py_index nodes curr2;
      row3 ← py_index nodes curr3;
      compute_edge_nodes_loop nodes degree count' (i + 1)
        (curr2 + (degree - i)) (curr3 - (i + 2))
        (nodes1 ++ [row1]) (nodes2 ++ [row2]) (nodes3 ++ [row3])
  end.

(** [_compute_edge_nodes(nodes, degree)] on an array given by its rows;
    [numpy.empty] refuses a negative number of rows. *)
Definition _compute_edge_nodes {A} (nodes : list A) (degree : Z)
  : result (list A * list A * list A) :=
  if degree + 1 <? 0 then
    Raise (ValueError "negative dimensions are not allowed")
  else
    compute_edge_nodes_loop nodes degree (Z.to_nat (degree + 1))
      0 degree (-1) [] [] [].

(** The number of pairs below [k]: [k (k - 1) / 2]. *)
Definition triangular (k : Z) : Z := k * (k - 1) / 2.

(** The rows of [nodes] that make the second and the third edge: the
    values [curr2] and [curr3] take in pass [k] of the loop. *)
Definition edge2_index (degree k : Z) : Z := (k + 1) * degree - triangular k.
Definition edge3_index (k : Z) : Z := - 1 - triangular k - 2 * k.

(** What the three arrays hold when their first [i] rows are
    filled. *)
Definition edges_filled {A} (nodes : list A) (degree : Z)
    (i : Z) (nodes1 nodes2 nodes3 : list A) : Prop :=
  Z.of_nat (length nodes1) = i /\ Z.of_nat (length nodes2) = i
  /\ Z.of_nat (length nodes3) = i
  /\ forall k : nat,
       Z.of_nat k < i ->
       nodes1 !! k = nodes !! k
       /\ nodes2 !! k = nodes !! Z.to_nat (edge2_index degree (Z.of_nat k))
       /\ nodes3 !! k
          = nodes !! Z.to_nat (Z.of_nat (length nodes)
                               + edge3_index (Z.of_nat k)).

(** The control points of a quadratic surface, as a list of rows. *)
Definition quadratic_surface_nodes : list vec :=
  [(0, 0); (0.5, -0.25); (1, 0); (0.25, 0.5); (0.75, 0.5); (0, 1)]%Q.

(** ** Duplicate intersections *)

(** The default of the keyword argument [wiggle]: [0.5**40]. *)
Definition default_wiggle : Q := 1 # (2 ^ 40).

Section Duplicates.

(** [numpy.allclose(a, b, rtol, atol)] on two lists of floats; its code
    is not part of this module. *)
Variable allclose : list Q -> list Q -> Q -> Q -> bool.

(** [same_intersection]; a parameter that is [None] makes
    [numpy.allclose] raise [TypeError]. *)
Definition same_intersection
    (intersection1 intersection2 : Intersection) (wiggle : Q)
  : result bool :=
  if bool_decide (index_first intersection1 <> index_first intersection2)
  then Ok false
  else if bool_decide
            (index_second intersection1 <> index_second intersection2)
  then Ok false
  else
    s1 ← as_float (s intersection1);
    t1 ← as_float (t intersection1);
    s2 ← as_float (s intersection2);
    t2 ← as_float (t intersection2);
    Ok (allclose [s1; t1] [s2; t2] wiggle 0).

(** [for uniq1, uniq2 in itertools.combinations(uniques, 2)]: the pairs
    that start with [uniq1], then the pairs of the rest. *)
Fixpoint unique_against (uniq1 : Intersection) (rest : list Intersection)
  : result unit :=
  match rest with
  | [] => Ok ()
  | uniq2 :: rest' =>
      same ← same_intersection uniq1 uniq2 default_wiggle;
      if same : bool then Raise (ValueError "Non-unique intersection")
      else unique_against uniq1 rest'
  end.

Fixpoint all_unique (uniques : list Intersection) : result unit :=
  match uniques with
  | [] => Ok ()
  | uniq1 :: rest =>
      _ ← unique_against uniq1 rest;
      all_unique rest
  end.

(** [matches] for one duplicate: the indices, from [index] on, of the
    uniques it is the same as. *)
Fixpoint find_matches
    (dupe : Intersection) (index : nat) (uniques : list Intersection)
  : result (list nat) :=
  match uniques with
  | [] => Ok []
  | uniq :: rest =>
      same ← same_intersection dupe uniq default_wiggle;
      matches ← find_matches dupe (S index) rest;
      Ok (if same : bool then index :: matches else matches)
  end.

(** [counter[matched] += 1] on a [collections.Counter], kept as the
    list of its items in the order the keys were first counted. *)
Fixpoint counter_add (matched : nat) (counter : list (nat * Z))
  : list (nat * Z) :=
  match counter with
  | [] => [(matched, 1)]
  | (key, count) :: rest =>
      if Nat.eqb key matched then (key, count + 1) :: rest
      else (key, count) :: counter_add matched rest
  end.

(** [for dupe in duplicates: ...] *)
Fixpoint count_duplicates
    (duplicates uniques : list Intersection) (counter : list (nat * Z))
  : result (list (nat * Z)) :=
  match duplicates with
  | [] => Ok counter
  | dupe :: rest =>
      matches ← find_matches dupe 0 uniques;
      match matches with
      | [matched] =>
          count_duplicates rest uniques (counter_add matched counter)
      | _ => Raise (ValueError "Duplicate not among uniques")
      end
  end.

(** [(uniq.s, uniq.t).count(0.0)] *)
Definition count_zero (uniq : Intersection) : Z :=
  (if float_eq (s uniq) 0 then 1 else 0)
  + (if float_eq (t uniq) 0 then 1 else 0).

(** [for index, count in six.iteritems(counter): ...] *)
Fixpoint check_counts
    (uniques : list Intersection) (counter : list (nat * Z)) : result unit :=
  match counter with
  | [] => Ok ()
  | (index, count) :: rest =>
      uniq ← py_index uniques (Z.of_nat index);
      _ ← (if count =? 1 then
             if negb (count_zero uniq =? 1) then
               Raise (ValueError "Count == 1 should be a single corner")
             else Ok ()
           else if count =? 3 then
             if negb (float_eq (s uniq) 0 && float_eq (t uniq) 0) then
               Raise (ValueError "Count == 3 should be a double corner")
             else Ok ()
           else Raise (ValueError "Unexpected duplicate count"));
      check_counts uniques rest
  end.

Definition verify_duplicates (duplicates uniques : list Intersection)
  : result unit :=
  _ ← all_unique uniques;
  counter ← count_duplicates duplicates uniques [];
  check_counts uniques counter.

(** The number of [duplicates] that are the same as [uniq]. *)
Definition duplicates_of
    (uniq : Intersection) (duplicates : list Intersection) : Z :=
  Z.of_nat
    (length (List.filter
               (fun dupe =>
                  match same_intersection dupe uniq default_wiggle with
                  | Ok true => true
                  | _ => false
                  end) duplicates)).

(** What an item of the counter holds after the duplicates [done]: an
    index of [uniques] and the number, which is not zero, of the
    duplicates that are the same as the unique at that index. *)
Definition counted_entry
    (uniques done : list Intersection) (entry : nat * Z) : Prop :=
  exists uniq, uniques !! entry.1 = Some uniq
               /\ entry.2 = duplicates_of uniq done /\ 1 <= entry.2.

(** The counter after the duplicates [done]: no index is counted
    twice, and the uniques at the indices that are not counted have no
    duplicate. *)
Definition counted
    (uniques done : list Intersection) (counter : list (nat * Z)) : Prop :=
  NoDup (counter.*1)
  /\ Forall (counted_entry uniques done) counter
  /\ forall index uniq,
       uniques !! index = Some uniq -> index ∉ (counter.*1) ->
       duplicates_of uniq done = 0.

End Duplicates.

(** Modelled from the spec: [numpy.allclose(a, b, rtol, atol)] is
    missing from the sources; it holds when every [|a - b|] is at most
    [atol + rtol * |b|], here in exact arithmetic. *)
Definition allclose_exact (a b : list Q) (rtol atol : Q) : bool :=
  Nat.eqb (length a) (length b)
  && forallb (fun p => Qle_bool (Qabs (p.1 - p.2)) (atol + rtol * Qabs p.2))
       (zip a b).

(** Three intersections at corners, and the duplicates a corner shared
    by two edges of one surface (one more) or of both (three more)
    gives. *)
Definition single_corner : Intersection :=
  mkIntersection 0 (Some 0) (Some 0%Q) (Some 1) (Some 0.5%Q) None.
Definition double_corner : Intersection :=
  mkIntersection 1 (Some 1) (Some 0%Q) (Some 2) (Some 0%Q) None.
Definition plain_crossing : Intersection :=
  mkIntersection 2 (Some 2) (Some 0.25%Q) (Some 0) (Some 0.75%Q) None.

(** ** Arrays of several columns *)

(** A row of an array of floats; an array is the list of its rows,
    which all have the number of columns of the array. *)
Abbreviation row := (list Q).

Definition row_add (a b : row) : row := zip_with Qplus a b.
Definition row_scale (c : Q) (a : row) : row := map (Qmult c) a.

(** The column [j] of an array. *)
Definition column (j : nat) (nodes : list row) : list Q :=
  map (fun r => default 0%Q (r !! j)) nodes.

(** Modelled from the spec: [matrix_product(matrix, nodes) -> nodes] of
    [bezier._helpers] on an array of several columns, given by its rows;
    like [numpy.dot] it raises [ValueError] when the shapes do not
    fit. *)
Definition matrix_product_rows (mat : list (list Q)) (nodes : list row)
  : result (list row) :=
  if forallb (fun r => Nat.eqb (length r) (length nodes)) mat
  then
    let width := match nodes with r :: _ => length r | [] => O end in
    Ok (map (fun mrow =>
               map (fun j => dot_product mrow (column j nodes)) (seq 0 width))
          mat)
  else Raise (ValueError "shapes not aligned").



(** An array of one column, as the list of its rows. *)
Definition as_rows (values : list Q) : list row := map (fun x => [x]) values.

(** ** One round of de Casteljau, and the Jacobian of a surface *)

Section Uninitialized.

(** [numpy.empty] hands out rows that hold whatever the memory held:
    row [k] of such an array, before it is written, is
    [uninitialized k]. *)
Variable uninitialized : nat -> row.

(** The rows of an array from [numpy.empty] that follow the rows
    [written]. *)
Definition np_empty_after (written : list row) (num_rows : Z) : list row :=
  written
  ++ map uninitialized
       (seq (length written) (Z.to_nat num_rows - length written)).

(** [for unused_j in xrange(degree - k): ...] of
    [_de_casteljau_one_round], with [count] passes to go. *)
Fixpoint de_casteljau_inner
    (nodes : list row) (lambda1 lambda2 lambda3 : Q) (count : nat)
    (parent_i1 parent_i2 parent_i3 : Z) (new_nodes : list row)
  : result (Z * Z * Z * list row) :=
  match count with
  | O => Ok (parent_i1, parent_i2, parent_i3, new_nodes)
  | S count' =>
      row1 ← py_index nodes parent_i1;
      row2 ← py_index nodes parent_i2;
      row3 ← py_index nodes parent_i3;
      let new_row :=
        row_add (row_add (row_scale lambda1 row1) (row_scale lambda2 row2))
          (row_scale lambda3 row3) in
      de_casteljau_inner nodes lambda1 lambda2 lambda3 count'
        (parent_i1 + 1) (parent_i2 + 1) (parent_i3 + 1)
        (new_nodes ++ [new_row])
  end.

(** [for k in xrange(degree): ...], with [rounds] passes to go. *)
Fixpoint de_casteljau_outer
    (nodes : list row) (lambda1 lambda2 lambda3 : Q) (degree : Z)
    (rounds : nat) (k : Z)
    (parent_i1 parent_i2 parent_i3 : Z) (new_nodes : list row)
  : result (list row) :=
  match rounds with
  | O => Ok new_nodes
  | S rounds' =>
      '(parent_i1, parent_i2, parent_i3, new_nodes) ←
        de_casteljau_inner nodes lambda1 lambda2 lambda3
          (Z.to_nat (degree - k)) parent_i1 parent_i2 parent_i3 new_nodes;
      de_casteljau_outer nodes lambda1 lambda2 lambda3 degree
        rounds' (k + 1) (parent_i1 + 1) (parent_i2 + 1) parent_i3 new_nodes
  end.

(** [_de_casteljau_one_round].  The rows of [new_nodes] are written
    from the first on; a write past the last row is an [IndexError],
    as is a read past the last row of [nodes], and the rows that are
    not written stay as [numpy.empty] made them. *)
Definition _de_casteljau_one_round
    (nodes : list row) (degree : Z) (lambda1 lambda2 lambda3 : Q)
  : result (list row) :=
  let num_nodes := Z.of_nat (length nodes) in
  let num_new_nodes := num_nodes - degree - 1 in
  if num_new_nodes <? 0 then
    Raise (ValueError "negative dimensions are not allowed")
  else
    written ← de_casteljau_outer nodes lambda1 lambda2 lambda3 degree
                 (Z.to_nat degree) 0 0 1 (degree + 1) [];
    if num_new_nodes <? Z.of_nat (length written) then Raise IndexError
    else Ok (np_empty_after written num_new_nodes).

(** [de_casteljau_one_round] is bound to [_de_casteljau_one_round] when
    the compiled module is absent. *)
Definition de_casteljau_one_round := _de_casteljau_one_round.

















(** The point at the barycentric weights of a surface of the degree
    [degree]: [degree] rounds of de Casteljau leave one row. *)
Fixpoint de_casteljau_rounds
    (nodes : list row) (degree : nat) (lambda1 lambda2 lambda3 : Q)
  : result (list row) :=
  match degree with
  | O => Ok nodes
  | S degree' =>
      new_nodes ← de_casteljau_one_round nodes (Z.of_nat degree)
                     lambda1 lambda2 lambda3;
      de_casteljau_rounds new_nodes degree' lambda1 lambda2 lambda3
  end.

End Uninitialized.

(** ** The Jacobian determinant as a polynomial *)

Definition _QUADRATIC_JACOBIAN_HELPER : list (list Q) :=
  over 1
  [ [-2; 2; 0; 0; 0; 0];
    [-2; 0; 0; 2; 0; 0];
    [-1; 0; 1; 0; 0; 0];
    [-1; -1; 0; 1; 1; 0];
    [0; -2; 2; 0; 0; 0];
    [0; -2; 0; 0; 2; 0];
    [-1; 1; 0; -1; 1; 0];
    [-1; 0; 0; 0; 0; 1];
    [0; -1; 1; -1; 1; 0];
    [0; -1; 0; -1; 1; 1];
    [0; 0; 0; -2; 2; 0];
    [0; 0; 0; -2; 0; 2] ].

Definition _QUADRATIC_TO_BERNSTEIN : list (list Q) :=
  over 2
  [ [2; 0; 0; 0; 0; 0];
    [-1; 4; -1; 0; 0; 0];
    [0; 0; 2; 0; 0; 0];
    [-1; 0; 0; 4; 0; -1];
    [0; 0; -1; 0; 4; -1];
    [0; 0; 0; 0; 0; 2] ].




(** [mat[0, 0] * mat[1, 1] - mat[0, 1] * mat[1, 0]] *)
Definition two_by_two_det (mat : list row) : result Q :=
  row0 ← py_index mat 0;
  a ← py_index row0 0;
  row1 ← py_index mat 1;
  d ← py_index row1 1;
  b ← py_index row0 1;
  c ← py_index row1 0;
  Ok (a * d - b * c)%Q.

(** [jac_parts[first:last, :]]; a slice never raises. *)
Definition slice_rows (first last : nat) (mat : list row) : list row :=
  take (last - first) (drop first mat).

(** [jac_at_nodes[k, 0] = two_by_two_det(jac_parts[2k:2k+2, :])] for
    [k] from [first] on, [count] times. *)
Fixpoint jacobian_at_nodes (jac_parts : list row) (first count : nat)
  : result (list Q) :=
  match count with
  | O => Ok []
  | S count' =>
      det ← two_by_two_det (slice_rows (2 * first) (2 * first + 2) jac_parts);
      dets ← jacobian_at_nodes jac_parts (S first) count';
      Ok (det :: dets)
  end.

Definition quadratic_jacobian_polynomial (nodes : list row)
  : result (list Q) :=
  jac_parts ← matrix_product_rows _QUADRATIC_JACOBIAN_HELPER nodes;
  jac_at_nodes ← jacobian_at_nodes jac_parts 0 6;
  matrix_product _QUADRATIC_TO_BERNSTEIN jac_at_nodes.


(** The doctest of [_jacobian_det]: the quadratic surface
    [B(s, t) = (s (t + 2), t (s + 2))]. *)
Definition doctest_jacobian_nodes : list row :=
  [ [0; 0]; [1; 0]; [2; 0]; [0; 1]; [1.5; 1.5]; [0; 2] ]%Q.

(** A stand-in for the content of fresh arrays in worked examples. *)
Definition zero_memory (k : nat) : row := [].

(** The branch of [_subdivide_nodes] for the degrees without a
    subdivision matrix, on its own. *)
Definition subdivide_by_specialize
    (specialize_surface :
       list Q -> Z -> Q * Q * Q -> Q * Q * Q -> Q * Q * Q -> result (list Q))
    (nodes : list Q) (degree : Z)
  : result (list Q * list Q * list Q * list Q) :=
  nodes_a ← specialize_surface nodes degree
    _WEIGHTS_SUBDIVIDE0 _WEIGHTS_SUBDIVIDE1 _WEIGHTS_SUBDIVIDE2;
  nodes_b ← specialize_surface nodes degree
    _WEIGHTS_SUBDIVIDE3 _WEIGHTS_SUBDIVIDE2 _WEIGHTS_SUBDIVIDE1;
  nodes_c ← specialize_surface nodes degree
    _WEIGHTS_SUBDIVIDE1 _WEIGHTS_SUBDIVIDE4 _WEIGHTS_SUBDIVIDE3;
  nodes_d ← specialize_surface nodes degree
    _WEIGHTS_SUBDIVIDE2 _WEIGHTS_SUBDIVIDE3 _WEIGHTS_SUBDIVIDE5;
  Ok (nodes_a, nodes_b, nodes_c, nodes_d).


(** The row of the node with the indices [j] and [k] in the array of a
    surface of the degree [degree]: the nodes are listed row by row,
    [k] counts the rows of the triangle and [j] runs along a row. *)
Definition triangle_index (degree j k : Z) : Z :=
  k * (degree + 1) - triangular k + j.

(** [lambda1 * row1 + lambda2 * row2 + lambda3 * row3] *)
Definition barycentric_combination
    (lambda1 lambda2 lambda3 : Q) (row1 row2 row3 : row) : row :=
  row_add (row_add (row_scale lambda1 row1) (row_scale lambda2 row2))
    (row_scale lambda3 row3).

(** What [new_nodes] holds when the node [(j, k)] of the smaller
    surface is the next to write: each earlier node is the combination
    of its three parents that the documentation of
    [_de_casteljau_one_round] gives. *)
Definition de_casteljau_filled
    (nodes : list row) (lambda1 lambda2 lambda3 : Q) (degree : Z)
    (k j : Z) (new_nodes : list row) : Prop :=
  Z.of_nat (length new_nodes) = triangle_index (degree - 1) j k
  /\ forall j' k',
       0 <= j' -> 0 <= k' ->
       (k' < k /\ j' + k' <= degree - 1) \/ (k' = k /\ j' < j) ->
       exists row1 row2 row3,
         nodes !! Z.to_nat (triangle_index degree j' k') = Some row1
         /\ nodes !! Z.to_nat (triangle_index degree (j' + 1) k') = Some row2
         /\ nodes !! Z.to_nat (triangle_index degree j' (k' + 1)) = Some row3
         /\ new_nodes !! Z.to_nat (triangle_index (degree - 1) j' k')
            = Some (barycentric_combination lambda1 lambda2 lambda3
                      row1 row2 row3).


(** * Verification *)

(** ** Comparisons and signs *)

(** Closed comparisons of rationals, by evaluation. *)
Ltac decide_Q :=
  vm_compute; first [reflexivity | discriminate | intros H; discriminate H].

Lemma Qltb_lt x y : Qltb x y = true <-> (x < y)%Q.
Proof.
  unfold Qltb. rewrite negb_true_iff, <- not_true_iff_false, Qle_bool_iff.
  split; [apply Qnot_le_lt | apply Qlt_not_le].
Qed.

Lemma Qltb_ge x y : Qltb x y = false <-> (y <= x)%Q.
Proof.
  unfold Qltb. rewrite negb_false_iff. apply Qle_bool_iff.
Qed.

Lemma _SIGN_range x : _SIGN x = -1 \/ _SIGN x = 0 \/ _SIGN x = 1.
Proof. unfold _SIGN. repeat case_match; auto. Qed.

Lemma _SIGN_pos x : _SIGN x = 1 <-> (0 < x)%Q.
Proof.
  unfold _SIGN. destruct (Qltb x 0) eqn:Hn.
  - apply Qltb_lt in Hn. split; [discriminate|].
    intros Hp. exfalso. apply (Qlt_irrefl x). by apply Qlt_trans with 0%Q.
  - destruct (Qltb 0 x) eqn:Hp.
    + by apply Qltb_lt in Hp.
    + split; [discriminate|]. intros H%Qltb_lt. congruence.
Qed.

Lemma _SIGN_neg x : _SIGN x = -1 <-> (x < 0)%Q.
Proof.
  unfold _SIGN. destruct (Qltb x 0) eqn:Hn.
  - by apply Qltb_lt in Hn.
  - split; [by case_match|]. intros H%Qltb_lt. congruence.
Qed.

Lemma _SIGN_zero x : _SIGN x = 0 <-> (x == 0)%Q.
Proof.
  unfold _SIGN. destruct (Qltb x 0) eqn:Hn.
  - apply Qltb_lt in Hn. split; [discriminate|].
    intros E. rewrite E in Hn. by apply Qlt_irrefl in Hn.
  - destruct (Qltb 0 x) eqn:Hp.
    + apply Qltb_lt in Hp. split; [discriminate|].
      intros E. rewrite E in Hp. by apply Qlt_irrefl in Hp.
    + apply Qltb_ge in Hn, Hp. split; [|done].
      intros _. by apply Qle_antisym.
Qed.

Lemma float_eq_true x y :
  float_eq x y = true <-> exists q, x = Some q /\ (q == y)%Q.
Proof.
  destruct x as [q|]; simpl.
  - rewrite Qeq_bool_iff. split; [eauto|]. by intros (? & [= <-] & ?).
  - split; [done|]. by intros (? & ? & ?).
Qed.

Lemma float_eq_false_ne q y : ~ (q == y)%Q -> float_eq (Some q) y = false.
Proof.
  intros Hne. simpl. apply not_true_iff_false. by rewrite Qeq_bool_iff.
Qed.

(** ** The classifier *)

Section ClassifierFacts.

Variable evaluate_hodograph : Q -> list vec -> vec.
Variable get_curvature : list vec -> vec -> Q -> Q.
Variable cross_product : vec -> vec -> Q.
Variable vdot : vec -> vec -> Q.

Local Abbreviation classify_tangent :=
  (classify_tangent_intersection get_curvature vdot).
Local Abbreviation ignored :=
  (ignored_corner evaluate_hodograph cross_product).
Local Abbreviation classify :=
  (classify_intersection evaluate_hodograph get_curvature cross_product vdot).

(** Tangency resolution yields a tangent class or an error, never
    [FIRST], [SECOND] or [IGNORED_CORNER]. *)
Lemma classify_tangent_intersection_range i nodes1 tangent1 nodes2 tangent2 c :
  classify_tangent i nodes1 tangent1 nodes2 tangent2 = Ok c ->
  c = OPPOSED \/ c = TANGENT_FIRST \/ c = TANGENT_SECOND.
Proof.
  unfold classify_tangent_intersection.
  destruct (s i), (t i); simpl; try discriminate.
  repeat case_match; intros [= <-]; auto.
Qed.

(** Away from the start of both edges the corner test answers
    [False] without looking at any edge. *)
Lemma ignored_corner_interior i tangent_s tangent_t edges1 edges2 :
  float_eq (s i) 0 = false -> float_eq (t i) 0 = false ->
  ignored i tangent_s tangent_t edges1 edges2 = Ok false.
Proof. unfold ignored_corner. by intros -> ->. Qed.

(** At the start of neither edge, the corner test can only return
    [True] at a corner. *)
Lemma ignored_corner_true i tangent_s tangent_t edges1 edges2 :
  ignored i tangent_s tangent_t edges1 edges2 = Ok true ->
  float_eq (s i) 0 = true \/ float_eq (t i) 0 = true.
Proof.
  unfold ignored_corner.
  destruct (float_eq (s i) 0); [auto|].
  destruct (float_eq (t i) 0); [auto|]. discriminate.
Qed.

(** The classifier past its end-of-edge guard and its corner test. *)
Lemma classify_intersection_interior i edges1 edges2 sv tv nodes1 nodes2 :
  s i = Some sv -> t i = Some tv ->
  ~ (sv == 1)%Q -> ~ (tv == 1)%Q ->
  edge_nodes edges1 (index_first i) = Ok nodes1 ->
  edge_nodes edges2 (index_second i) = Ok nodes2 ->
  ignored i (evaluate_hodograph sv nodes1) (evaluate_hodograph tv nodes2)
    edges1 edges2 = Ok false ->
  classify i edges1 edges2 =
    let tangent1 := evaluate_hodograph sv nodes1 in
    let tangent2 := evaluate_hodograph tv nodes2 in
    let cross_prod := cross_product tangent1 tangent2 in
    if Qltb cross_prod 0 then Ok FIRST
    else if Qltb 0 cross_prod then Ok SECOND
    else classify_tangent i nodes1 tangent1 nodes2 tangent2.
Proof.
  intros Hs Ht Hs1 Ht1 Hn1 Hn2 Hign. unfold classify_intersection.
  rewrite Hs, Ht, !float_eq_false_ne by done. simpl.
  rewrite Hn1. simpl. rewrite Hn2. simpl. by rewrite Hign.
Qed.

End ClassifierFacts.

(** The tangents the doctest prints: [[1.25, 0.75]] and [[2., 0.5]]. *)
Example doctest1_tangents :
  vec_eqb (evaluate_hodograph_exact 0.25 (_nodes doctest1_curve1))
          (1.25, 0.75)%Q = true
  /\ vec_eqb (evaluate_hodograph_exact 0.5 (_nodes doctest1_curve2))
             (2, 0.5)%Q = true.
Proof. split; vm_compute; reflexivity. Qed.

(** C1.  Away from the end and the start of both edges,
    [classify_intersection] is decided by the cross product of the two
    tangents: negative gives [FIRST], positive gives [SECOND], and zero
    hands the intersection to [classify_tangent_intersection], whose
    answer is never [FIRST] or [SECOND].  For the two quadratics of the
    first doctest at [s = 0.25], [t = 0.5] the answer is [FIRST]. *)
Theorem classify_intersection_cross_product :
  (forall evaluate_hodograph get_curvature cross_product vdot
          i edges1 edges2 sv tv nodes1 nodes2,
      s i = Some sv -> t i = Some tv ->
      ~ (sv == 1)%Q -> ~ (tv == 1)%Q -> ~ (sv == 0)%Q -> ~ (tv == 0)%Q ->
      edge_nodes edges1 (index_first i) = Ok nodes1 ->
      edge_nodes edges2 (index_second i) = Ok nodes2 ->
      let tangent1 := evaluate_hodograph sv nodes1 in
      let tangent2 := evaluate_hodograph tv nodes2 in
      let cross_prod := cross_product tangent1 tangent2 in
      let r := classify_intersection evaluate_hodograph get_curvature
                 cross_product vdot i edges1 edges2 in
      ((cross_prod < 0)%Q -> r = Ok FIRST)
      /\ ((0 < cross_prod)%Q -> r = Ok SECOND)
      /\ ((cross_prod == 0)%Q ->
          r = classify_tangent_intersection get_curvature vdot
                i nodes1 tangent1 nodes2 tangent2
          /\ r <> Ok FIRST /\ r <> Ok SECOND))
  /\ (forall get_curvature vdot,
        classify_intersection evaluate_hodograph_exact get_curvature
          cross_product_exact vdot
          doctest1_intersection doctest1_edges1 doctest1_edges2 = Ok FIRST).
Proof.
  split.
  - intros hodo curv cross vdot i edges1 edges2 sv tv nodes1 nodes2
      Hs Ht Hs1 Ht1 Hs0 Ht0 Hn1 Hn2 tangent1 tangent2 cross_prod r.
    assert (Hr : r = if Qltb cross_prod 0 then Ok FIRST
                     else if Qltb 0 cross_prod then Ok SECOND
                     else classify_tangent_intersection curv vdot
                            i nodes1 tangent1 nodes2 tangent2).
    { subst r. apply classify_intersection_interior; try done.
      apply ignored_corner_interior.
      - rewrite Hs. by apply float_eq_false_ne.
      - rewrite Ht. by apply float_eq_false_ne. }
    split; [|split].
    + intros Hneg%Qltb_lt. by rewrite Hr, Hneg.
    + intros Hpos. rewrite Hr.
      assert (Qltb cross_prod 0 = false) as ->
        by (apply Qltb_ge; by apply Qlt_le_weak).
      apply Qltb_lt in Hpos. by rewrite Hpos.
    + intros Hz.
      assert (Qltb cross_prod 0 = false) as E1
        by (apply Qltb_ge; rewrite Hz; apply Qle_refl).
      assert (Qltb 0 cross_prod = false) as E2
        by (apply Qltb_ge; rewrite Hz; apply Qle_refl).
      rewrite E1, E2 in Hr. split; [done|].
      rewrite Hr. split; intros Hc;
        apply classify_tangent_intersection_range in Hc;
        by destruct Hc as [|[|]].
  - intros curv vdot. vm_compute. reflexivity.
Qed.

Lemma classify_intersection_cross_product_witness :
  classify_intersection evaluate_hodograph_exact (fun _ _ _ => 0%Q)
    cross_product_exact vdot_exact
    doctest1_intersection doctest1_edges1 doctest1_edges2 = Ok FIRST.
Proof.
  refine (proj1 (proj1 classify_intersection_cross_product
    evaluate_hodograph_exact (fun _ _ _ => 0%Q)
    cross_product_exact vdot_exact
    doctest1_intersection doctest1_edges1 doctest1_edges2
    0.25%Q 0.5%Q (_nodes doctest1_curve1) (_nodes doctest1_curve2)
    eq_refl eq_refl _ _ _ _ eq_refl eq_refl) _);
    vm_compute; congruence.
Defined.

(** C2.  An intersection whose [s] or whose [t] equals [1.0] is
    rejected with a [ValueError], whatever the edges and whatever the
    helpers compute. *)
Theorem classify_intersection_end_of_edge :
  forall evaluate_hodograph get_curvature cross_product vdot
         i edges1 edges2,
    (exists sv, s i = Some sv /\ (sv == 1)%Q)
    \/ (exists tv, t i = Some tv /\ (tv == 1)%Q) ->
    classify_intersection evaluate_hodograph get_curvature
      cross_product vdot i edges1 edges2
    = Raise (ValueError "Intersection occurs at the end of an edge").
Proof.
  intros hodo curv cross vdot i edges1 edges2 H.
  unfold classify_intersection.
  assert (float_eq (s i) 1 || float_eq (t i) 1 = true) as ->; [|done].
  apply orb_true_iff. destruct H as [H|H]; [left|right];
    by apply float_eq_true.
Qed.

(** The second half of the seventh doctest: [s = 1.0], [t = 0.375]. *)
Lemma classify_intersection_end_of_edge_witness :
  classify_intersection evaluate_hodograph_exact (fun _ _ _ => 0%Q)
    cross_product_exact vdot_exact
    (mkIntersection 0 (Some 0) (Some 1.0%Q) (Some 0) (Some 0.375%Q) None)
    [] []
  = Raise (ValueError "Intersection occurs at the end of an edge").
Proof.
  apply classify_intersection_end_of_edge.
  left. exists 1.0%Q. split; [reflexivity | vm_compute; reflexivity].
Defined.

(** C10.  When neither [s] nor [t] is [0.0] the corner test
    [ignored_corner] answers [False]; so [classify_intersection] answers
    [IGNORED_CORNER] only for an intersection with [s == 0.0] or
    [t == 0.0]. *)
Theorem ignored_corner_only_at_corner :
  forall evaluate_hodograph get_curvature cross_product vdot
         i edges1 edges2,
    (forall tangent_s tangent_t,
        float_eq (s i) 0 = false -> float_eq (t i) 0 = false ->
        ignored_corner evaluate_hodograph cross_product
          i tangent_s tangent_t edges1 edges2 = Ok false)
    /\ (classify_intersection evaluate_hodograph get_curvature
          cross_product vdot i edges1 edges2 = Ok IGNORED_CORNER ->
        (exists sv, s i = Some sv /\ (sv == 0)%Q)
        \/ (exists tv, t i = Some tv /\ (tv == 0)%Q)).
Proof.
  intros hodo curv cross vdot i edges1 edges2. split.
  - intros. by apply ignored_corner_interior.
  - unfold classify_intersection.
    destruct (float_eq (s i) 1 || float_eq (t i) 1); [discriminate|].
    destruct (edge_nodes edges1 (index_first i)) as [nodes1|]; [|discriminate].
    simpl. destruct (as_float (s i)) as [sv|]; [|discriminate].
    simpl. destruct (edge_nodes edges2 (index_second i)) as [nodes2|];
      [|discriminate].
    simpl. destruct (as_float (t i)) as [tv|]; [|discriminate].
    simpl.
    destruct (ignored_corner hodo cross i _ _ edges1 edges2)
      as [[]|] eqn:Hign; simpl; [| |discriminate].
    + intros _. apply ignored_corner_true in Hign.
      destruct Hign as [H|H]; [left|right]; by apply float_eq_true.
    + repeat case_match; try discriminate.
      intros Hc%classify_tangent_intersection_range.
      by destruct Hc as [|[|]].
Qed.

Lemma ignored_corner_only_at_corner_witness :
  ignored_corner evaluate_hodograph_exact cross_product_exact
    doctest1_intersection (1.25, 0.75)%Q (2, 0.5)%Q
    doctest1_edges1 doctest1_edges2 = Ok false.
Proof.
  apply (proj1 (ignored_corner_only_at_corner
    evaluate_hodograph_exact (fun _ _ _ => 0%Q)
    cross_product_exact vdot_exact
    doctest1_intersection doctest1_edges1 doctest1_edges2));
    reflexivity.
Defined.

(** The outcomes the doctests 2 to 6 of [classify_intersection] show. *)
Example classify_intersection_tangent_doctests :
  classify_midpoint narrow_arc wide_arc = Ok TANGENT_SECOND
  /\ classify_midpoint narrow_arc_reversed wide_arc_reversed
     = Ok TANGENT_FIRST
  /\ classify_midpoint narrow_arc_reversed wide_arc = Ok OPPOSED
  /\ classify_midpoint narrow_arc wide_arc_reversed
     = Raise (NotImplementedError _BAD_TANGENT)
  /\ classify_midpoint doctest6_curve1 doctest6_curve2
     = Raise (NotImplementedError _SAME_CURVATURE).
Proof. repeat split; vm_compute; reflexivity. Qed.

(** ** Tangency resolution *)

Lemma Qabs_zero x : (Qabs x == 0)%Q -> (x == 0)%Q.
Proof.
  apply Qabs_case; intros _ H; [done|].
  rewrite <- (Qopp_involutive x), H. reflexivity.
Qed.

Lemma Qminus_zero x y : (x - y == 0)%Q <-> (x == y)%Q.
Proof.
  split; intros H.
  - rewrite <- (Qplus_0_l y), <- H. ring.
  - rewrite H. ring.
Qed.

Section TangentFacts.

Variable evaluate_hodograph : Q -> list vec -> vec.
Variable get_curvature : list vec -> vec -> Q -> Q.
Variable cross_product : vec -> vec -> Q.
Variable vdot : vec -> vec -> Q.

Local Abbreviation classify_tangent :=
  (classify_tangent_intersection get_curvature vdot).
Local Abbreviation classify :=
  (classify_intersection evaluate_hodograph get_curvature cross_product vdot).

(** A tangent intersection is classified by tangency resolution. *)
Lemma classify_intersection_tangent i edges1 edges2 sv tv nodes1 nodes2 :
  tangent_intersection evaluate_hodograph cross_product
    i edges1 edges2 sv tv nodes1 nodes2 ->
  classify i edges1 edges2
  = classify_tangent i nodes1 (evaluate_hodograph sv nodes1)
      nodes2 (evaluate_hodograph tv nodes2).
Proof.
  intros (Hs & Ht & Hs1 & Ht1 & Hn1 & Hn2 & Hign & Hz).
  rewrite (classify_intersection_interior _ _ _ _ _ _ _ _ _ _ _
             Hs Ht Hs1 Ht1 Hn1 Hn2 Hign). simpl.
  assert (Qltb (cross_product (evaluate_hodograph sv nodes1)
                  (evaluate_hodograph tv nodes2)) 0 = false) as ->
    by (apply Qltb_ge; rewrite Hz; apply Qle_refl).
  assert (Qltb 0 (cross_product (evaluate_hodograph sv nodes1)
                    (evaluate_hodograph tv nodes2)) = false) as ->
    by (apply Qltb_ge; rewrite Hz; apply Qle_refl).
  done.
Qed.

(** Tangents in the same direction: the larger curvature wins. *)
Lemma classify_tangent_same_direction
    i nodes1 tangent1 nodes2 tangent2 sv tv :
  s i = Some sv -> t i = Some tv ->
  (0 <= vdot tangent1 tangent2)%Q ->
  let curvature1 := get_curvature nodes1 tangent1 sv in
  let curvature2 := get_curvature nodes2 tangent2 tv in
  let r := classify_tangent i nodes1 tangent1 nodes2 tangent2 in
  ((curvature2 < curvature1)%Q -> r = Ok TANGENT_FIRST)
  /\ ((curvature1 < curvature2)%Q -> r = Ok TANGENT_SECOND)
  /\ ((curvature1 == curvature2)%Q ->
      r = Raise (NotImplementedError _SAME_CURVATURE)).
Proof.
  intros Hs Ht Hdot c1 c2 r.
  assert (Hr : r = if Qltb c2 c1 then Ok TANGENT_FIRST
                   else if Qltb c1 c2 then Ok TANGENT_SECOND
                   else Raise (NotImplementedError _SAME_CURVATURE)).
  { subst r. unfold classify_tangent_intersection. rewrite Hs, Ht. simpl.
    apply Qltb_ge in Hdot. by rewrite Hdot. }
  rewrite Hr. split; [|split].
  - intros H%Qltb_lt. by rewrite H.
  - intros H.
    assert (Qltb c2 c1 = false) as ->
      by (apply Qltb_ge; by apply Qlt_le_weak).
    apply Qltb_lt in H. by rewrite H.
  - intros H.
    assert (Qltb c2 c1 = false) as ->
      by (apply Qltb_ge; rewrite H; apply Qle_refl).
    assert (Qltb c1 c2 = false) as ->
      by (apply Qltb_ge; rewrite H; apply Qle_refl).
    done.
Qed.

(** Tangents in opposite directions. *)
Lemma classify_tangent_opposite_direction
    i nodes1 tangent1 nodes2 tangent2 sv tv :
  s i = Some sv -> t i = Some tv ->
  (vdot tangent1 tangent2 < 0)%Q ->
  let curvature1 := get_curvature nodes1 tangent1 sv in
  let curvature2 := get_curvature nodes2 tangent2 tv in
  let sign1 := _SIGN curvature1 in
  let sign2 := _SIGN curvature2 in
  let delta_c := (Qabs curvature1 - Qabs curvature2)%Q in
  let r := classify_tangent i nodes1 tangent1 nodes2 tangent2 in
  (sign1 = sign2 -> sign1 = 1 -> r = Ok OPPOSED)
  /\ (sign1 = sign2 -> sign1 = -1 ->
      r = Raise (NotImplementedError _BAD_TANGENT))
  /\ (sign1 <> sign2 -> sign1 = _SIGN delta_c -> r = Ok OPPOSED)
  /\ (sign1 <> sign2 -> (Qabs curvature1 == Qabs curvature2)%Q ->
      r = Raise (NotImplementedError _SAME_CURVATURE))
  /\ (sign1 <> sign2 -> ~ (Qabs curvature1 == Qabs curvature2)%Q ->
      sign1 <> _SIGN delta_c ->
      r = Raise (NotImplementedError _BAD_TANGENT)).
Proof.
  intros Hs Ht Hdot c1 c2 sign1 sign2 delta_c r.
  assert (Hr : r =
    if sign1 =? sign2 then
      if sign1 =? 1 then Ok OPPOSED
      else Raise (NotImplementedError _BAD_TANGENT)
    else if Qeq_bool delta_c 0
      then Raise (NotImplementedError _SAME_CURVATURE)
    else if sign1 =? _SIGN delta_c then Ok OPPOSED
    else Raise (NotImplementedError _BAD_TANGENT)).
  { subst r. unfold classify_tangent_intersection. rewrite Hs, Ht. simpl.
    apply Qltb_lt in Hdot. by rewrite Hdot. }
  assert (Hdelta : Qeq_bool delta_c 0 = true <-> (Qabs c1 == Qabs c2)%Q).
  { rewrite Qeq_bool_iff. apply Qminus_zero. }
  rewrite Hr. repeat split.
  - intros E1 E2. apply Z.eqb_eq in E1 as ->. by rewrite E2.
  - intros E1 E2. apply Z.eqb_eq in E1 as ->. by rewrite E2.
  - intros N1 E2. rewrite (proj2 (Z.eqb_neq _ _) N1).
    destruct (Qeq_bool delta_c 0) eqn:Hd.
    + exfalso. pose proof (proj1 Hdelta eq_refl) as Habs.
      apply Qeq_bool_iff, _SIGN_zero in Hd.
      assert (Hc1 : (c1 == 0)%Q) by (apply _SIGN_zero; fold sign1; congruence).
      assert (Hc2 : (c2 == 0)%Q).
      { apply Qabs_zero. rewrite <- Habs, Hc1. reflexivity. }
      apply _SIGN_zero in Hc2. fold sign2 in Hc2.
      congruence.
    + apply Z.eqb_eq in E2. by rewrite E2.
  - intros N1 E. apply Z.eqb_neq in N1 as ->.
    apply Hdelta in E. by rewrite E.
  - intros N1 N2 N3. apply Z.eqb_neq in N1 as ->.
    destruct (Qeq_bool delta_c 0) eqn:Hd; [by destruct N2; apply Hdelta|].
    apply Z.eqb_neq in N3. by rewrite N3.
Qed.

End TangentFacts.

(** C3.  At a tangent intersection whose tangents point in the same
    direction (their dot product is not negative), the answer is
    [TANGENT_FIRST] when the first curvature is the larger one,
    [TANGENT_SECOND] when the second is, and a [NotImplementedError]
    when the two curvatures are equal. *)
Theorem tangent_same_direction_by_curvature :
  forall evaluate_hodograph get_curvature cross_product vdot
         i edges1 edges2 sv tv nodes1 nodes2,
    tangent_intersection evaluate_hodograph cross_product
      i edges1 edges2 sv tv nodes1 nodes2 ->
    let tangent1 := evaluate_hodograph sv nodes1 in
    let tangent2 := evaluate_hodograph tv nodes2 in
    (0 <= vdot tangent1 tangent2)%Q ->
    let curvature1 := get_curvature nodes1 tangent1 sv in
    let curvature2 := get_curvature nodes2 tangent2 tv in
    let r := classify_intersection evaluate_hodograph get_curvature
               cross_product vdot i edges1 edges2 in
    r = classify_tangent_intersection get_curvature vdot
          i nodes1 tangent1 nodes2 tangent2
    /\ ((curvature2 < curvature1)%Q -> r = Ok TANGENT_FIRST)
    /\ ((curvature1 < curvature2)%Q -> r = Ok TANGENT_SECOND)
    /\ ((curvature1 == curvature2)%Q ->
        r = Raise (NotImplementedError _SAME_CURVATURE)).
Proof.
  intros hodo curv cross vdot i edges1 edges2 sv tv nodes1 nodes2
    Htan tangent1 tangent2 Hdot c1 c2 r.
  assert (Hr : r = classify_tangent_intersection curv vdot
                     i nodes1 tangent1 nodes2 tangent2)
    by (by apply classify_intersection_tangent).
  split; [done|]. rewrite Hr.
  destruct Htan as (Hs & Ht & _).
  by apply classify_tangent_same_direction.
Qed.

(** The second doctest: the narrow arc inside the wide one. *)
Lemma tangent_same_direction_by_curvature_witness :
  classify_midpoint narrow_arc wide_arc = Ok TANGENT_SECOND.
Proof.
  refine (proj1 (proj2 (proj2 (tangent_same_direction_by_curvature
    evaluate_hodograph_exact get_curvature_horizontal
    cross_product_exact vdot_exact
    midpoint_intersection
    [Some narrow_arc; None; None] [Some wide_arc; None; None]
    0.5%Q 0.5%Q (_nodes narrow_arc) (_nodes wide_arc) _ _))) _).
  - repeat split; decide_Q.
  - decide_Q.
  - decide_Q.
Defined.

(** C4.  At a tangent intersection whose tangents point in opposite
    directions (negative dot product): with curvatures of one sign the
    answer is [OPPOSED] if that sign is positive and the overlapping-arcs
    error if it is negative; with curvatures of different signs the
    answer is [OPPOSED] if the sign of the first curvature is the sign
    of [|curvature1| - |curvature2|], the same-curvature error if
    [|curvature1|] equals [|curvature2|], and the overlapping-arcs error
    otherwise. *)
Theorem tangent_opposite_direction_by_sign :
  forall evaluate_hodograph get_curvature cross_product vdot
         i edges1 edges2 sv tv nodes1 nodes2,
    tangent_intersection evaluate_hodograph cross_product
      i edges1 edges2 sv tv nodes1 nodes2 ->
    let tangent1 := evaluate_hodograph sv nodes1 in
    let tangent2 := evaluate_hodograph tv nodes2 in
    (vdot tangent1 tangent2 < 0)%Q ->
    let curvature1 := get_curvature nodes1 tangent1 sv in
    let curvature2 := get_curvature nodes2 tangent2 tv in
    let sign1 := _SIGN curvature1 in
    let sign2 := _SIGN curvature2 in
    let delta_c := (Qabs curvature1 - Qabs curvature2)%Q in
    let r := classify_intersection evaluate_hodograph get_curvature
               cross_product vdot i edges1 edges2 in
    r = classify_tangent_intersection get_curvature vdot
          i nodes1 tangent1 nodes2 tangent2
    /\ (sign1 = sign2 -> sign1 = 1 -> r = Ok OPPOSED)
    /\ (sign1 = sign2 -> sign1 = -1 ->
        r = Raise (NotImplementedError _BAD_TANGENT))
    /\ (sign1 <> sign2 -> sign1 = _SIGN delta_c -> r = Ok OPPOSED)
    /\ (sign1 <> sign2 -> (Qabs curvature1 == Qabs curvature2)%Q ->
        r = Raise (NotImplementedError _SAME_CURVATURE))
    /\ (sign1 <> sign2 -> ~ (Qabs curvature1 == Qabs curvature2)%Q ->
        sign1 <> _SIGN delta_c ->
        r = Raise (NotImplementedError _BAD_TANGENT)).
Proof.
  intros hodo curv cross vdot i edges1 edges2 sv tv nodes1 nodes2
    Htan tangent1 tangent2 Hdot c1 c2 sign1 sign2 delta_c r.
  assert (Hr : r = classify_tangent_intersection curv vdot
                     i nodes1 tangent1 nodes2 tangent2)
    by (by apply classify_intersection_tangent).
  split; [done|]. rewrite Hr.
  destruct Htan as (Hs & Ht & _).
  by apply classify_tangent_opposite_direction.
Qed.

(** The fifth doctest: arcs that overlap while moving in opposite
    directions. *)
Lemma tangent_opposite_direction_by_sign_witness :
  classify_midpoint narrow_arc wide_arc_reversed
  = Raise (NotImplementedError _BAD_TANGENT).
Proof.
  refine (proj2 (proj2 (proj2 (proj2 (proj2
    (tangent_opposite_direction_by_sign
    evaluate_hodograph_exact get_curvature_horizontal
    cross_product_exact vdot_exact
    midpoint_intersection
    [Some narrow_arc; None; None] [Some wide_arc_reversed; None; None]
    0.5%Q 0.5%Q (_nodes narrow_arc) (_nodes wide_arc_reversed) _ _)))))
    _ _ _).
  - repeat split; decide_Q.
  - decide_Q.
  - decide_Q.
  - decide_Q.
  - decide_Q.
Defined.

(** ** The assembler without interior crossings *)

Lemma py_index_0 {A} (l : list A) : py_index l 0 = match head l with
                                                   | Some a => Ok a
                                                   | None => Raise IndexError
                                                   end.
Proof.
  unfold py_index. destruct l as [|a l]; [done|].
  simpl length. rewrite Nat2Z.inj_succ.
  replace (0 <? 0) with false by done.
  replace (0 <=? 0) with true by done.
  replace (0 <? Z.succ (Z.of_nat (length l))) with true
    by (symmetry; apply Z.ltb_lt; lia).
  done.
Qed.

Section AssemblerFacts.

Variable locate : Surface -> vec -> option (Q * Q).
Variable specialize : Curve -> Q -> Q -> Curve.

Lemma no_intersections_first surface1 surface2 corner1 :
  head (surface_nodes surface1) = Some corner1 ->
  is_Some (locate surface2 corner1) ->
  no_intersections locate surface1 surface2 = Ok [WholeSurface surface1].
Proof.
  intros H1 [p Hp]. unfold no_intersections.
  rewrite (py_index_0 (surface_nodes surface1)), H1. simpl. by rewrite Hp.
Qed.

Lemma no_intersections_second surface1 surface2 corner1 corner2 :
  head (surface_nodes surface1) = Some corner1 ->
  locate surface2 corner1 = None ->
  head (surface_nodes surface2) = Some corner2 ->
  is_Some (locate surface1 corner2) ->
  no_intersections locate surface1 surface2 = Ok [WholeSurface surface2].
Proof.
  intros H1 Hn H2 [p Hp]. unfold no_intersections.
  rewrite (py_index_0 (surface_nodes surface1)), H1. simpl.
  rewrite Hn, py_index_0, H2. simpl. by rewrite Hp.
Qed.

Lemma no_intersections_disjoint surface1 surface2 corner1 corner2 :
  head (surface_nodes surface1) = Some corner1 ->
  locate surface2 corner1 = None ->
  head (surface_nodes surface2) = Some corner2 ->
  locate surface1 corner2 = None ->
  no_intersections locate surface1 surface2 = Ok [].
Proof.
  intros H1 Hn1 H2 Hn2. unfold no_intersections.
  rewrite (py_index_0 (surface_nodes surface1)), H1. simpl.
  rewrite Hn1, py_index_0, H2. simpl. by rewrite Hn2.
Qed.

(** Without an intersection classified [FIRST] or [SECOND] the list
    [unused] starts empty and no loop is walked. *)
Lemma basic_interior_combine_no_start
    fuel intersections surface1 edges1 surface2 edges2 max_edges :
  Forall (fun i => in_ACCEPTABLE (interior_curve i) = false) intersections ->
  basic_interior_combine specialize fuel intersections
    surface1 edges1 surface2 edges2 max_edges = Some (Ok []).
Proof.
  intros Hall. unfold basic_interior_combine.
  assert (filter (fun i => in_ACCEPTABLE (interior_curve i) = true)
            intersections = []) as ->.
  { induction Hall as [|i l Hi _ IH]; [done|].
    rewrite filter_cons, IH. case_decide; [congruence|done]. }
  by destruct fuel.
Qed.

Lemma all_types_same (intersections : list Intersection) c :
  intersections <> [] ->
  Forall (fun i => interior_curve i = c) intersections ->
  (list_to_set (interior_curve <$> intersections)
   : gset (option IntersectionClassification)) = {[ c ]}.
Proof.
  intros Hne Hall. apply set_eq. intros x.
  rewrite elem_of_list_to_set, list_elem_of_fmap, elem_of_singleton.
  split.
  - intros (i & -> & Hi). by eapply Forall_forall in Hall.
  - intros ->. destruct intersections as [|i l]; [done|].
    exists i. split; [|left]. symmetry. by eapply Forall_inv in Hall.
Qed.

Lemma tangent_only_intersections_same intersections surface1 surface2 c :
  intersections <> [] ->
  Forall (fun i => interior_curve i = c) intersections ->
  tangent_only_intersections intersections surface1 surface2 =
    match c with
    | Some OPPOSED => Ok []
    | Some IGNORED_CORNER => Ok []
    | Some TANGENT_FIRST => Ok [WholeSurface surface1]
    | Some TANGENT_SECOND => Ok [WholeSurface surface2]
    | _ => Raise (ValueError "Point type not for tangency")
    end.
Proof.
  intros Hne Hall. unfold tangent_only_intersections.
  rewrite (all_types_same _ c Hne Hall), size_singleton.
  rewrite bool_decide_eq_false_2 by (intros H; by apply H).
  unfold set_pop. by rewrite elements_singleton.
Qed.

Lemma tangent_only_intersections_mixed intersections surface1 surface2 i j :
  i ∈ intersections -> j ∈ intersections ->
  interior_curve i <> interior_curve j ->
  tangent_only_intersections intersections surface1 surface2 =
    Raise (ValueError "Unexpected value, types should all match").
Proof.
  intros Hi Hj Hne. unfold tangent_only_intersections.
  rewrite bool_decide_eq_true_2; [done|].
  intros Hsize. apply size_1_elem_of in Hsize as [x Hx].
  assert (forall k, k ∈ intersections -> interior_curve k = x) as Hall.
  { intros k Hk.
    assert (interior_curve k ∈ ({[x]} : gset _)) as Hin; [|set_solver].
    rewrite <- Hx, elem_of_list_to_set, list_elem_of_fmap. eauto. }
  rewrite (Hall i Hi), (Hall j Hj) in Hne. done.
Qed.

End AssemblerFacts.

Lemma in_ACCEPTABLE_false c :
  in_ACCEPTABLE c = false <-> c <> Some FIRST /\ c <> Some SECOND.
Proof.
  unfold in_ACCEPTABLE.
  rewrite orb_false_iff, !bool_decide_eq_false. tauto.
Qed.

(** C5.  With an empty list of crossings [combine_intersections] is
    [no_intersections]: the first surface alone if its first corner is
    located in the second surface; otherwise the second surface alone if
    its first corner is located in the first; otherwise nothing. *)
Theorem combine_intersections_no_crossings :
  forall locate specialize fuel surface1 edges1 surface2 edges2,
    let r := combine_intersections locate specialize fuel []
               surface1 edges1 surface2 edges2 in
    r = Some (no_intersections locate surface1 surface2)
    /\ forall corner1,
        head (surface_nodes surface1) = Some corner1 ->
        (is_Some (locate surface2 corner1) ->
         r = Some (Ok [WholeSurface surface1]))
        /\ (locate surface2 corner1 = None ->
            forall corner2,
              head (surface_nodes surface2) = Some corner2 ->
              (is_Some (locate surface1 corner2) ->
               r = Some (Ok [WholeSurface surface2]))
              /\ (locate surface1 corner2 = None -> r = Some (Ok []))).
Proof.
  intros locate specialize fuel surface1 edges1 surface2 edges2 r.
  split; [done|]. subst r. simpl.
  intros corner1 H1. split.
  - intros Hin. f_equal. by eapply no_intersections_first.
  - intros Hn corner2 H2. split.
    + intros Hin. f_equal. by eapply no_intersections_second.
    + intros Hn2. f_equal. by eapply no_intersections_disjoint.
Qed.

(** A triangle inside the unit triangle, the unit triangle around it,
    and a translate of the unit triangle that does not meet it. *)
Lemma combine_intersections_no_crossings_witness :
  combine_intersections locate_linear specialize_exact 0 []
    inner_triangle [] unit_triangle [] = Some (Ok [WholeSurface inner_triangle])
  /\ combine_intersections locate_linear specialize_exact 0 []
       unit_triangle [] inner_triangle []
     = Some (Ok [WholeSurface inner_triangle])
  /\ combine_intersections locate_linear specialize_exact 0 []
       unit_triangle [] shifted_triangle [] = Some (Ok []).
Proof.
  split; [|split].
  - refine (proj1 (proj2 (combine_intersections_no_crossings
      locate_linear specialize_exact 0
      inner_triangle [] unit_triangle []) (0.25, 0.25)%Q eq_refl) _).
    vm_compute. eauto.
  - refine (proj1 (proj2 (proj2 (combine_intersections_no_crossings
      locate_linear specialize_exact 0
      unit_triangle [] inner_triangle []) (0, 0)%Q eq_refl) eq_refl
      (0.25, 0.25)%Q eq_refl) _).
    vm_compute. eauto.
  - exact (proj2 (proj2 (proj2 (combine_intersections_no_crossings
      locate_linear specialize_exact 0
      unit_triangle [] shifted_triangle []) (0, 0)%Q eq_refl) eq_refl
      (5, 0)%Q eq_refl) eq_refl).
Defined.

(** C6.  A non-empty list of crossings none of which is [FIRST] or
    [SECOND] is combined by [tangent_only_intersections]: crossings with
    different classifications are a [ValueError]; all [OPPOSED] or all
    [IGNORED_CORNER] give the empty list; all [TANGENT_FIRST] give the
    first surface alone and all [TANGENT_SECOND] the second. *)
Theorem combine_intersections_tangent_only :
  forall locate specialize fuel intersections
         surface1 edges1 surface2 edges2,
    intersections <> [] ->
    Forall (fun i => interior_curve i <> Some FIRST
                     /\ interior_curve i <> Some SECOND) intersections ->
    let r := combine_intersections locate specialize fuel intersections
               surface1 edges1 surface2 edges2 in
    let all_are c := Forall (fun i => interior_curve i = Some c)
                       intersections in
    r = Some (tangent_only_intersections intersections surface1 surface2)
    /\ ((exists i j, i ∈ intersections /\ j ∈ intersections
                     /\ interior_curve i <> interior_curve j) ->
        exists msg, r = Some (Raise (ValueError msg)))
    /\ (all_are OPPOSED -> r = Some (Ok []))
    /\ (all_are IGNORED_CORNER -> r = Some (Ok []))
    /\ (all_are TANGENT_FIRST -> r = Some (Ok [WholeSurface surface1]))
    /\ (all_are TANGENT_SECOND -> r = Some (Ok [WholeSurface surface2])).
Proof.
  intros locate specialize fuel intersections
    surface1 edges1 surface2 edges2 Hne Hall r all_are.
  assert (Hr : r = Some (tangent_only_intersections
                           intersections surface1 surface2)).
  { subst r. unfold combine_intersections.
    destruct intersections as [|i l]; [done|].
    rewrite basic_interior_combine_no_start; [done|].
    eapply Forall_impl; [exact Hall|]. intros k Hk.
    by apply in_ACCEPTABLE_false. }
  split; [done|]. rewrite Hr. repeat split.
  - intros (i & j & Hi & Hj & Hij). eexists. f_equal.
    by apply (tangent_only_intersections_mixed _ _ _ i j).
  - intros H. f_equal.
    by rewrite (tangent_only_intersections_same _ _ _ (Some OPPOSED)).
  - intros H. f_equal.
    by rewrite (tangent_only_intersections_same _ _ _ (Some IGNORED_CORNER)).
  - intros H. f_equal.
    by rewrite (tangent_only_intersections_same _ _ _ (Some TANGENT_FIRST)).
  - intros H. f_equal.
    by rewrite (tangent_only_intersections_same _ _ _ (Some TANGENT_SECOND)).
Qed.

(** Two tangencies, both with the first surface inside. *)
Lemma combine_intersections_tangent_only_witness :
  combine_intersections locate_linear specialize_exact 0
    [ mkIntersection 0 (Some 0) (Some 0.5%Q) (Some 0) (Some 0.5%Q)
        (Some TANGENT_FIRST);
      mkIntersection 1 (Some 1) (Some 0.5%Q) (Some 2) (Some 0.25%Q)
        (Some TANGENT_FIRST) ]
    inner_triangle [] unit_triangle []
  = Some (Ok [WholeSurface inner_triangle]).
Proof.
  refine (proj1 (proj2 (proj2 (proj2 (proj2
    (combine_intersections_tangent_only
       locate_linear specialize_exact 0 _ inner_triangle []
       unit_triangle [] _ _))))) _).
  - discriminate.
  - repeat constructor; discriminate.
  - repeat constructor.
Defined.

(** ** The walk along the edges *)

Lemma bind_Ok {A B} (m : result A) (f : A -> result B) b :
  m ≫= f = Ok b -> exists a, m = Ok a /\ f a = Ok b.
Proof. destruct m as [a|e]; [eauto|discriminate]. Qed.

Lemma list_remove_length x l :
  (length (list_remove x l) <= length l)%nat.
Proof.
  induction l as [|y l IH]; simpl; [done|]. case_match; simpl; lia.
Qed.

Lemma mark_used_length x w :
  (length (unused (mark_used x w)) <= length (unused w))%nat.
Proof.
  unfold mark_used. case_match; simpl; [apply list_remove_length|done].
Qed.

Lemma list_pop_None l : list_pop l = None <-> l = [].
Proof.
  induction l as [|y l IH]; simpl; [done|].
  destruct l as [|z l]; [done|].
  destruct (list_pop (z :: l)) as [[x rest]|]; [done|].
  split; [|done]. intros _. discriminate (proj1 IH eq_refl).
Qed.

Lemma list_pop_Some l x rest :
  list_pop l = Some (x, rest) -> l = rest ++ [x].
Proof.
  revert x rest. induction l as [|y l IH]; intros x rest; simpl; [done|].
  destruct l as [|z l]; [by intros [= <- <-]|].
  destruct (list_pop (z :: l)) as [[x' rest']|]; [|done].
  intros [= <- <-]. by rewrite (IH x' rest' eq_refl).
Qed.

Lemma to_front_unused intersection intersections w found w' :
  to_front intersection intersections w = Ok (found, w') ->
  (length (unused w') <= length (unused w))%nat.
Proof.
  unfold to_front. intros H.
  apply bind_Ok in H as ([[c1 i1] w1] & H1 & H).
  apply bind_Ok in H as ([[c2 i2] w2] & H2 & H).
  injection H as <- <-.
  etrans; [apply mark_used_length|].
  assert (unused w1 = unused w) as E1.
  { destruct (float_eq (s intersection) 1); [|by injection H1 as _ _ <-].
    apply bind_Ok in H1 as (k & _ & H1). by injection H1 as _ _ <-. }
  assert (unused w2 = unused w1) as E2.
  { destruct (float_eq (t i1) 1); [|by injection H2 as _ _ <-].
    apply bind_Ok in H2 as (k & _ & H2). by injection H2 as _ _ <-. }
  by rewrite E2, E1.
Qed.

Lemma get_next_unused intersection intersections w found w' :
  get_next intersection intersections w = Ok (found, w') ->
  (length (unused w') <= length (unused w))%nat.
Proof.
  unfold get_next. intros H.
  apply bind_Ok in H as ([f1 w1] & H1 & H). injection H as <- <-.
  etrans; [apply mark_used_length|].
  assert (unused w1 = unused w) as ->; [|done].
  destruct (interior_curve intersection) as [[]|]; try discriminate.
  - unfold get_next_first in H1.
    apply bind_Ok in H1 as ([a|] & _ & H1); by injection H1 as _ <-.
  - unfold get_next_second in H1.
    apply bind_Ok in H1 as ([a|] & _ & H1); by injection H1 as _ <-.
Qed.

Section WalkFacts.

Variable specialize : Curve -> Q -> Q -> Curve.
Variable intersections : list Intersection.
Variable max_edges : Z.

Local Abbreviation body := (walk_body intersections max_edges).
Local Abbreviation loop := (walk_loop intersections max_edges).

(** A pass through the body that goes on has appended one pair and has
    passed the check against [max_edges]. *)
Lemma walk_body_Continue start next_node edge_ends w next' edge_ends' w' :
  body start next_node edge_ends w = Ok (Continue next' edge_ends' w') ->
  length edge_ends' = S (length edge_ends)
  /\ Z.of_nat (length edge_ends') <= max_edges
  /\ (length (unused w') <= length (unused w))%nat.
Proof.
  unfold walk_body. intros H.
  apply bind_Ok in H as ([curr w1] & H1 & H).
  destruct (is_ curr start); [discriminate|].
  apply bind_Ok in H as ([nxt w2] & H2 & H).
  destruct (Z.of_nat (length (edge_ends ++ [(curr, nxt)])) >? max_edges)
    eqn:Hgt; [discriminate|].
  injection H as <- <- <-. rewrite length_app. simpl.
  split; [lia|]. split.
  - rewrite Z.gtb_ltb, Z.ltb_ge, length_app in Hgt. simpl in Hgt. lia.
  - apply to_front_unused in H1. apply get_next_unused in H2. lia.
Qed.

Lemma walk_body_Break start next_node edge_ends w w' :
  body start next_node edge_ends w = Ok (Break w') ->
  (length (unused w') <= length (unused w))%nat.
Proof.
  unfold walk_body. intros H.
  apply bind_Ok in H as ([curr w1] & H1 & H).
  destruct (is_ curr start).
  - injection H as <-. by apply to_front_unused in H1.
  - apply bind_Ok in H as ([nxt w2] & H2 & H).
    by destruct (_ >? _).
Qed.

(** Appending a pair beyond [max_edges] raises. *)
Lemma walk_body_overflow start next_node edge_ends w curr w1 next' w2 :
  to_front next_node intersections w = Ok (curr, w1) ->
  is_ curr start = false ->
  get_next curr intersections w1 = Ok (next', w2) ->
  max_edges < Z.of_nat (S (length edge_ends)) ->
  body start next_node edge_ends w
  = Raise (RuntimeError "Unexpected number of edges"
             (Z.of_nat (S (length edge_ends)))).
Proof.
  intros H1 Hne H2 Hgt. unfold walk_body.
  rewrite H1. simpl. rewrite Hne, H2. simpl.
  rewrite length_app. simpl. rewrite Nat.add_1_r.
  by rewrite (proj2 (Z.gtb_gt _ _)) by lia.
Qed.

(** The inner loop leaves the list of pairs as it got it, or within
    [max_edges]. *)
Lemma walk_loop_bound fuel start next_node edge_ends w edge_ends' w' :
  loop fuel start next_node edge_ends w = Some (Ok (edge_ends', w')) ->
  (edge_ends' = edge_ends \/ Z.of_nat (length edge_ends') <= max_edges)
  /\ (length (unused w') <= length (unused w))%nat.
Proof.
  revert next_node edge_ends w.
  induction fuel as [|fuel IH]; intros next_node edge_ends w; simpl.
  - destruct (is_ next_node start); [|discriminate].
    intros [= <- <-]. auto.
  - destruct (is_ next_node start); [intros [= <- <-]; auto|].
    destruct (body start next_node edge_ends w) as [[w1|n1 ee1 w1]|] eqn:Hb;
      [| |discriminate].
    + intros [= <- <-]. apply walk_body_Break in Hb. auto.
    + intros H. apply IH in H as [H Hu].
      apply walk_body_Continue in Hb as (Hlen & Hle & Hu1).
      split; [|lia]. right. destruct H as [->|]; done.
Qed.

(** The inner loop ends within [max_edges] passes (one pass when
    [max_edges] is not positive). *)
Lemma walk_loop_fuel fuel start next_node edge_ends w :
  (1 <= fuel)%nat ->
  max_edges < Z.of_nat fuel + Z.of_nat (length edge_ends) ->
  loop fuel start next_node edge_ends w <> None.
Proof.
  revert next_node edge_ends w.
  induction fuel as [|fuel IH]; intros next_node edge_ends w Hf Hm; [lia|].
  simpl. destruct (is_ next_node start); [done|].
  destruct (body start next_node edge_ends w) as [[w1|n1 ee1 w1]|] eqn:Hb;
    [done| |done].
  apply walk_body_Continue in Hb as (Hlen & Hle & _).
  apply IH; lia.
Qed.

Lemma ends_to_curves_length edge_ends infos :
  ends_to_curves edge_ends = Ok infos -> length infos = length edge_ends.
Proof.
  revert infos. induction edge_ends as [|[a b] l IH]; intros infos; simpl.
  - by intros [= <-].
  - intros H. apply bind_Ok in H as (info & _ & H).
    apply bind_Ok in H as (rest & Hrest & H). injection H as <-.
    simpl. by rewrite (IH rest).
Qed.

Lemma specialize_edges_length edge_info edges1 edges2 edges :
  specialize_edges specialize edge_info edges1 edges2 = Ok edges ->
  length edges = length edge_info.
Proof.
  revert edges.
  induction edge_info as [|[[[f i] a] b] l IH]; intros edges; simpl.
  - by intros [= <-].
  - intros H. do 5 (apply bind_Ok in H as (? & _ & H)).
    apply bind_Ok in H as (rest & Hrest & H). injection H as <-.
    simpl. by rewrite (IH rest).
Qed.

Lemma edge_infos_eq_length a b :
  edge_infos_eq a b = true -> length a = length b.
Proof.
  revert b. induction a as [|x a IH]; intros [|y b]; simpl; try done.
  intros [_ H]%andb_true_iff. by rewrite (IH b).
Qed.

Lemma whole_surface_info_length (table : list (list EdgeInfo)) edge_info :
  Forall (fun row => length row = 3%nat) table ->
  existsb (edge_infos_eq edge_info) table = true ->
  length edge_info = 3%nat.
Proof.
  intros Hrows (row & Hin & Heq)%existsb_exists.
  apply edge_infos_eq_length in Heq. rewrite Heq.
  by apply (proj1 (List.Forall_forall _ _) Hrows).
Qed.

(** A shape has as many edges as its description has rows. *)
Lemma make_intersection_num_edges
    edge_info surface1 edges1 surface2 edges2 shape :
  make_intersection specialize edge_info surface1 edges1 surface2 edges2
  = Ok shape ->
  num_edges shape = Z.of_nat (length edge_info).
Proof.
  unfold make_intersection.
  destruct (existsb _ FIRST_SURFACE_INFO) eqn:H1.
  { intros [= <-]. simpl.
    rewrite (whole_surface_info_length FIRST_SURFACE_INFO edge_info); try done.
    repeat constructor. }
  destruct (existsb _ SECOND_SURFACE_INFO) eqn:H2.
  { intros [= <-]. simpl.
    rewrite (whole_surface_info_length SECOND_SURFACE_INFO edge_info);
      try done.
    repeat constructor. }
  intros H. apply bind_Ok in H as (edges & He & H). injection H as <-.
  simpl. by rewrite (specialize_edges_length _ _ _ _ He).
Qed.

End WalkFacts.

(** ** The edge bound of the assembler *)

Section CombineFacts.

Variable specialize : Curve -> Q -> Q -> Curve.
Variable intersections : list Intersection.
Variables (surface1 surface2 : Surface) (edges1 edges2 : list (option Curve)).
Variable max_edges : Z.

Local Abbreviation one inner_fuel :=
  (combine_one specialize inner_fuel intersections
     surface1 edges1 surface2 edges2 max_edges).
Local Abbreviation outer inner_fuel fuel :=
  (combine_loop specialize inner_fuel fuel intersections
     surface1 edges1 surface2 edges2 max_edges).

(** The shape made from one walk has one edge (a walk that closes at
    once) or at most [max_edges]. *)
Lemma combine_one_bound inner_fuel start w shape w' :
  one inner_fuel start w = Some (Ok (shape, w')) ->
  num_edges shape <= Z.max 1 max_edges
  /\ (length (unused w') <= length (unused w))%nat.
Proof.
  unfold combine_one.
  destruct (get_next start intersections w) as [[nxt w1]|] eqn:Hn;
    [|discriminate].
  destruct (walk_loop _ _ _ _ _ _ _) as [[[ee w2]|]|] eqn:Hl;
    [|discriminate|discriminate].
  intros [= H]. apply bind_Ok in H as (info & Hinfo & H).
  apply bind_Ok in H as (sh & Hsh & H). injection H as <- <-.
  apply walk_loop_bound in Hl as [Hee Hu].
  apply get_next_unused in Hn.
  apply ends_to_curves_length in Hinfo.
  apply make_intersection_num_edges in Hsh.
  rewrite Hsh, Hinfo. split; [|lia].
  destruct Hee as [->|]; simpl; lia.
Qed.

Lemma combine_one_fuel inner_fuel start w :
  (1 <= inner_fuel)%nat -> max_edges <= Z.of_nat inner_fuel ->
  one inner_fuel start w <> None.
Proof.
  intros H1 Hm. unfold combine_one.
  destruct (get_next start intersections w) as [[nxt w1]|]; [|done].
  destruct (walk_loop _ _ _ _ _ _ _) as [[[ee w2]|]|] eqn:Hl; [done|done|].
  exfalso. revert Hl. apply walk_loop_fuel; simpl; lia.
Qed.

Lemma combine_loop_bound inner_fuel fuel w shapes out :
  Forall (fun sh => num_edges sh <= Z.max 1 max_edges) shapes ->
  outer inner_fuel fuel w shapes = Some (Ok out) ->
  Forall (fun sh => num_edges sh <= Z.max 1 max_edges) out.
Proof.
  revert w shapes. induction fuel as [|fuel IH]; intros w shapes Hall; simpl.
  - destruct (list_pop (unused w)) as [[start rest]|]; [discriminate|].
    by intros [= <-].
  - destruct (list_pop (unused w)) as [[start rest]|];
      [|by intros [= <-]].
    destruct (one inner_fuel start _) as [[[sh w1]|]|] eqn:H1;
      [|discriminate|discriminate].
    apply IH. apply Forall_app. split; [done|].
    apply combine_one_bound in H1 as [H1 _]. by constructor.
Qed.

Lemma combine_loop_fuel inner_fuel fuel w shapes :
  (1 <= inner_fuel)%nat -> max_edges <= Z.of_nat inner_fuel ->
  (length (unused w) <= fuel)%nat ->
  outer inner_fuel fuel w shapes <> None.
Proof.
  intros Hi Hm. revert w shapes.
  induction fuel as [|fuel IH]; intros w shapes Hu; simpl.
  - destruct (unused w); [done|simpl in Hu; lia].
  - destruct (list_pop (unused w)) as [[start rest]|] eqn:Hpop; [|done].
    apply list_pop_Some in Hpop.
    destruct (one inner_fuel start _) as [[[sh w1]|]|] eqn:H1; [|done|].
    + apply IH. apply combine_one_bound in H1 as [_ H1]. simpl in H1.
      rewrite Hpop, length_app in Hu. simpl in Hu. lia.
    + by apply combine_one_fuel in H1.
Qed.

End CombineFacts.

(** ** Walks over valid intersections *)

Lemma list_remove_subset x l a : a ∈ list_remove x l -> a ∈ l.
Proof.
  induction l as [|y l IH]; simpl; [done|].
  destruct (is_ x y).
  - by right.
  - intros [->|H]%elem_of_cons; [left|right; auto].
Qed.

Lemma mark_used_subset x w a : a ∈ unused (mark_used x w) -> a ∈ unused w.
Proof.
  unfold mark_used. case_match; simpl; [apply list_remove_subset|done].
Qed.

Lemma mark_used_next_oid x w : next_oid (mark_used x w) = next_oid w.
Proof. unfold mark_used. by case_match. Qed.

Lemma walk_inv_mark_used l x w : walk_inv l w -> walk_inv l (mark_used x w).
Proof.
  intros [Hoid Hsub]. split.
  - by rewrite mark_used_next_oid.
  - intros a Ha%mark_used_subset. auto.
Qed.

Lemma walk_inv_new l w :
  walk_inv l w -> walk_inv l (mkWalk (unused w) (S (next_oid w))).
Proof.
  intros [Hoid Hsub]. split; simpl; [|done].
  intros a Ha%Hoid. lia.
Qed.

Lemma to_front_existing_cases x l :
  let r := to_front_existing x l in
  r = x
  \/ (r ∈ l
      /\ ((opt_float_eq (s r) (s x) = true /\ index_first r = index_first x)
          \/ (opt_float_eq (t r) (t x) = true
              /\ index_second r = index_second x))).
Proof.
  induction l as [|y l IH]; simpl; [by left|].
  destruct (opt_float_eq (s y) (s x)
            && bool_decide (index_first y = index_first x)) eqn:H1.
  { right. apply andb_true_iff in H1 as [? ?%bool_decide_eq_true].
    split; [left|]; auto. }
  destruct (opt_float_eq (t y) (t x)
            && bool_decide (index_second y = index_second x)) eqn:H2.
  { right. apply andb_true_iff in H2 as [? ?%bool_decide_eq_true].
    split; [left|]; auto. }
  destruct IH as [IH|[IH1 IH2]]; [by left|right].
  split; [by right|done].
Qed.

Lemma get_next_first_scan_inv (P : Intersection -> Prop) idx0 s0 acc l r :
  get_next_first_scan idx0 s0 acc l = Ok r ->
  (forall a, acc = Some a -> P a) ->
  (forall x, x ∈ l -> index_first x = idx0 -> py_gt (s x) s0 = Ok true ->
             P x) ->
  forall found, r = Some found -> P found.
Proof.
  revert acc. induction l as [|y l IH]; intros acc; simpl.
  - intros [= <-] Hacc _ found. apply Hacc.
  - intros H Hacc Hl.
    assert (forall x, x ∈ l -> index_first x = idx0 ->
                      py_gt (s x) s0 = Ok true -> P x) as Hl'
      by (intros x Hx; apply Hl; by right).
    apply bind_Ok in H as (beyond & Hb & H).
    destruct beyond; [|by eapply IH].
    assert (P y) as Py.
    { destruct (bool_decide (index_first y = idx0)) eqn:Hi; [|discriminate].
      apply bool_decide_eq_true in Hi. apply Hl; [left|done|done]. }
    apply bind_Ok in H as (interior & _ & H).
    destruct (interior && negb (in_ACCEPTABLE (interior_curve y)));
      [by eapply IH|].
    apply bind_Ok in H as (closer & _ & H).
    eapply IH; [exact H| |done].
    intros a. destruct closer; [by intros [= <-]|apply Hacc].
Qed.

Lemma get_next_second_scan_inv (P : Intersection -> Prop) idx0 t0 acc l r :
  get_next_second_scan idx0 t0 acc l = Ok r ->
  (forall a, acc = Some a -> P a) ->
  (forall x, x ∈ l -> index_second x = idx0 -> py_gt (t x) t0 = Ok true ->
             P x) ->
  forall found, r = Some found -> P found.
Proof.
  revert acc. induction l as [|y l IH]; intros acc; simpl.
  - intros [= <-] Hacc _ found. apply Hacc.
  - intros H Hacc Hl.
    assert (forall x, x ∈ l -> index_second x = idx0 ->
                      py_gt (t x) t0 = Ok true -> P x) as Hl'
      by (intros x Hx; apply Hl; by right).
    apply bind_Ok in H as (beyond & Hb & H).
    destruct beyond; [|by eapply IH].
    assert (P y) as Py.
    { destruct (bool_decide (index_second y = idx0)) eqn:Hi; [|discriminate].
      apply bool_decide_eq_true in Hi. apply Hl; [left|done|done]. }
    apply bind_Ok in H as (interior & _ & H).
    destruct (interior && negb (in_ACCEPTABLE (interior_curve y)));
      [by eapply IH|].
    apply bind_Ok in H as (closer & _ & H).
    eapply IH; [exact H| |done].
    intros a. destruct closer; [by intros [= <-]|apply Hacc].
Qed.

Lemma to_front_inv i l w c w' :
  walk_inv l w -> to_front i l w = Ok (c, w') -> walk_inv l w'.
Proof.
  unfold to_front. intros Hw H.
  apply bind_Ok in H as ([[c1 i1] w1] & H1 & H).
  apply bind_Ok in H as ([[c2 i2] w2] & H2 & H).
  injection H as <- <-. apply walk_inv_mark_used.
  assert (walk_inv l w1) as Hw1.
  { destruct (float_eq (s i) 1); [|by injection H1 as _ _ <-].
    apply bind_Ok in H1 as (k & _ & H1). injection H1 as _ _ <-.
    by apply walk_inv_new. }
  destruct (float_eq (t i1) 1); [|by injection H2 as _ _ <-].
  apply bind_Ok in H2 as (k & _ & H2). injection H2 as _ _ <-.
  by apply walk_inv_new.
Qed.

(** What [get_next] hands back: an intersection of the list further
    along the edge of [start], or a new node at the end of that edge. *)
Lemma get_next_cases start l w next w' :
  get_next start l w = Ok (next, w') ->
  walk_inv l w ->
  walk_inv l w'
  /\ ((next ∈ l
       /\ ((index_first next = index_first start
            /\ py_gt (s next) (s start) = Ok true)
           \/ (index_second next = index_second start
               /\ py_gt (t next) (t start) = Ok true)))
      \/ ((next = mkIntersection (next_oid w) (index_first start)
                    (Some 1%Q) None None (Some FIRST)
           \/ next = mkIntersection (next_oid w) None None
                       (index_second start) (Some 1%Q) (Some SECOND))
          /\ next_oid w' = S (next_oid w))).
Proof.
  unfold get_next. intros H Hw.
  apply bind_Ok in H as ([f1 w1] & H1 & H). injection H as <- <-.
  destruct (interior_curve start) as [[]|]; try discriminate.
  - unfold get_next_first in H1.
    apply bind_Ok in H1 as (along & Hscan & H1).
    destruct along as [found|]; injection H1 as <- <-.
    + split; [by apply walk_inv_mark_used|]. left.
      pose proof (get_next_first_scan_inv
               (fun x => x ∈ l /\ (index_first x = index_first start
                                   /\ py_gt (s x) (s start) = Ok true))
               _ _ _ _ _ Hscan) as HP.
      destruct (HP ltac:(done) ltac:(by intros; repeat split) found eq_refl)
        as [Hin H'].
      split; [done|]. by left.
    + split; [by apply walk_inv_mark_used, walk_inv_new|].
      right. split; [by left|]. by rewrite mark_used_next_oid.
  - unfold get_next_second in H1.
    apply bind_Ok in H1 as (along & Hscan & H1).
    destruct along as [found|]; injection H1 as <- <-.
    + split; [by apply walk_inv_mark_used|]. left.
      pose proof (get_next_second_scan_inv
               (fun x => x ∈ l /\ (index_second x = index_second start
                                   /\ py_gt (t x) (t start) = Ok true))
               _ _ _ _ _ Hscan) as HP.
      destruct (HP ltac:(done) ltac:(by intros; repeat split) found eq_refl)
        as [Hin H'].
      split; [done|]. by right.
    + split; [by apply walk_inv_mark_used, walk_inv_new|].
      right. split; [by right|]. by rewrite mark_used_next_oid.
Qed.

Lemma in_unit_interval_not_end x : in_unit_interval x -> float_eq x 1 = false.
Proof.
  intros (q & -> & _ & Hlt). apply float_eq_false_ne.
  intros E. rewrite E in Hlt. by apply Qlt_irrefl in Hlt.
Qed.

Lemma py_gt_ne x y : py_gt x y = Ok true -> x <> y.
Proof.
  destruct x as [a|], y as [b|]; try discriminate. simpl.
  intros [= H%Qltb_lt] [= ->]. by apply Qlt_irrefl in H.
Qed.

Lemma is_false_ne a b : oid a <> oid b -> is_ a b = false.
Proof. intros H. by apply Nat.eqb_neq. Qed.

Section ValidWalk.

Variable intersections : list Intersection.
Hypothesis Hvalid : valid_intersections intersections.

(** An intersection of the list is returned by [to_front] as it is. *)
Lemma to_front_valid i w :
  i ∈ intersections ->
  to_front i intersections w = Ok (i, mark_used i w).
Proof.
  intros Hi. destruct Hvalid as [Hall _].
  apply (proj1 (Forall_forall _ _) Hall) in Hi as (_ & _ & Hs & Ht).
  unfold to_front.
  rewrite (in_unit_interval_not_end _ Hs). simpl.
  by rewrite (in_unit_interval_not_end _ Ht).
Qed.

Lemma next_edge_differs k : (k + 1) `mod` 3 <> k.
Proof.
  pose proof (Z.mod_pos_bound (k + 1) 3).
  pose proof (Z.div_mod (k + 1) 3). lia.
Qed.

(** Rotating the end of the first edge of [start] does not lead back
    to [start]. *)
Lemma to_front_first_end start k o ic w curr w' :
  start ∈ intersections -> index_first start = Some k ->
  (oid start < next_oid w)%nat ->
  to_front (mkIntersection o (Some k) (Some 1%Q) None None ic)
    intersections w = Ok (curr, w') ->
  is_ curr start = false.
Proof.
  intros Hstart Hk Hlt Hfront. destruct Hvalid as [Hall Hoid].
  destruct (proj1 (Forall_forall _ _) Hall start Hstart)
    as (_ & _ & _ & (q & Hq & _)).
  unfold to_front in Hfront. simpl in Hfront. injection Hfront as <- _.
  apply is_false_ne.
  destruct (to_front_existing_cases
              (mkIntersection (next_oid w) (Some ((k + 1) `mod` 3))
                 (Some 0%Q) None None ic) intersections)
    as [E|[Hin C]]; simpl in *.
  - rewrite E. simpl. lia.
  - intros E. apply Hoid in E; [|done..]. rewrite E in C.
    destruct C as [[_ C]|[C _]].
    + rewrite Hk in C. injection C as C. symmetry in C.
      by apply next_edge_differs in C.
    + by rewrite Hq in C.
Qed.

Lemma to_front_second_end start k o ic w curr w' :
  start ∈ intersections -> index_second start = Some k ->
  (oid start < next_oid w)%nat ->
  to_front (mkIntersection o None None (Some k) (Some 1%Q) ic)
    intersections w = Ok (curr, w') ->
  is_ curr start = false.
Proof.
  intros Hstart Hk Hlt Hfront. destruct Hvalid as [Hall Hoid].
  destruct (proj1 (Forall_forall _ _) Hall start Hstart)
    as (_ & _ & (q & Hq & _) & _).
  unfold to_front in Hfront. simpl in Hfront. injection Hfront as <- _.
  apply is_false_ne.
  destruct (to_front_existing_cases
              (mkIntersection (next_oid w) None None
                 (Some ((k + 1) `mod` 3)) (Some 0%Q) ic) intersections)
    as [E|[Hin C]]; simpl in *.
  - rewrite E. simpl. lia.
  - intros E. apply Hoid in E; [|done..]. rewrite E in C.
    destruct C as [[C _]|[_ C]].
    + by rewrite Hq in C.
    + rewrite Hk in C. injection C as C. symmetry in C.
      by apply next_edge_differs in C.
Qed.

(** The node after [start] is not [start]. *)
Lemma get_next_not_start start w next w1 :
  start ∈ intersections ->
  walk_inv intersections w ->
  get_next start intersections w = Ok (next, w1) ->
  is_ next start = false.
Proof.
  intros Hstart Hw Hnext. apply is_false_ne.
  destruct (get_next_cases _ _ _ _ _ Hnext Hw) as [_ [[Hin Hfar]|[Hnew _]]].
  - intros E. apply (proj2 Hvalid) in E; [|done..]. subst next.
    destruct Hfar as [[_ H%py_gt_ne]|[_ H%py_gt_ne]]; done.
  - apply (proj1 Hw) in Hstart. destruct Hnew as [->| ->]; simpl; lia.
Qed.

(** Nor is the rotation of the node after [start]: the first pass
    through the loop does not close it. *)
Lemma to_front_not_start start w next w1 curr w2 :
  start ∈ intersections ->
  walk_inv intersections w ->
  get_next start intersections w = Ok (next, w1) ->
  to_front next intersections w1 = Ok (curr, w2) ->
  is_ curr start = false.
Proof.
  intros Hstart Hw Hnext Hfront.
  pose proof (get_next_not_start _ _ _ _ Hstart Hw Hnext) as Hne.
  destruct (get_next_cases _ _ _ _ _ Hnext Hw) as [Hw1 [[Hin _]|[Hnew Hn]]].
  - rewrite to_front_valid in Hfront by done. by injection Hfront as <- _.
  - assert (oid start < next_oid w)%nat as Hs by (by apply (proj1 Hw)).
    destruct (proj1 (Forall_forall _ _) (proj1 Hvalid) start Hstart)
      as ([k1 Hk1] & [k2 Hk2] & _ & _).
    destruct Hnew as [->| ->].
    + rewrite Hk1 in Hfront.
      eapply to_front_first_end; [done..| |exact Hfront]. lia.
    + rewrite Hk2 in Hfront.
      eapply to_front_second_end; [done..| |exact Hfront]. lia.
Qed.

End ValidWalk.

Section ValidCombine.

Variable specialize : Curve -> Q -> Q -> Curve.
Variable intersections : list Intersection.
Variables (surface1 surface2 : Surface) (edges1 edges2 : list (option Curve)).
Variable max_edges : Z.
Hypothesis Hvalid : valid_intersections intersections.

Lemma walk_body_inv start next_node edge_ends w outcome :
  walk_inv intersections w ->
  walk_body intersections max_edges start next_node edge_ends w = Ok outcome ->
  match outcome with
  | Break w' => walk_inv intersections w'
  | Continue _ _ w' => walk_inv intersections w'
  end.
Proof.
  unfold walk_body. intros Hw H.
  apply bind_Ok in H as ([curr w1] & H1 & H).
  apply (to_front_inv _ _ _ _ _ Hw) in H1 as Hw1.
  destruct (is_ curr start); [by injection H as <-|].
  apply bind_Ok in H as ([nxt w2] & H2 & H).
  destruct (get_next_cases _ _ _ _ _ H2 Hw1) as [Hw2 _].
  destruct (_ >? _); [discriminate|]. by injection H as <-.
Qed.

Lemma walk_loop_inv fuel start next_node edge_ends w edge_ends' w' :
  walk_inv intersections w ->
  walk_loop intersections max_edges fuel start next_node edge_ends w
  = Some (Ok (edge_ends', w')) ->
  walk_inv intersections w'.
Proof.
  revert next_node edge_ends w.
  induction fuel as [|fuel IH]; intros next_node edge_ends w Hw; simpl.
  - destruct (is_ next_node start); [|discriminate]. by intros [= _ <-].
  - destruct (is_ next_node start); [by intros [= _ <-]|].
    destruct (walk_body _ _ _ _ _ _) as [[w1|n1 ee1 w1]|] eqn:Hb;
      [| |discriminate]; apply (walk_body_inv _ _ _ _ _ Hw) in Hb.
    + by intros [= _ <-].
    + by apply IH.
Qed.

(** On valid intersections a walk that ends has passed the check
    against [max_edges]. *)
Lemma walk_loop_valid_bound fuel start w next_node w1 edge_ends w' :
  start ∈ intersections ->
  walk_inv intersections w ->
  get_next start intersections w = Ok (next_node, w1) ->
  walk_loop intersections max_edges fuel start next_node
    [(start, next_node)] w1 = Some (Ok (edge_ends, w')) ->
  Z.of_nat (length edge_ends) <= max_edges.
Proof.
  intros Hstart Hw Hnext Hloop.
  pose proof (get_next_not_start _ Hvalid _ _ _ _ Hstart Hw Hnext) as Hne.
  destruct fuel as [|fuel]; simpl in Hloop; rewrite Hne in Hloop;
    [discriminate|].
  destruct (walk_body _ _ _ _ _ _) as [[w2|n1 ee1 w2]|] eqn:Hb;
    [| |discriminate].
  - exfalso. unfold walk_body in Hb.
    apply bind_Ok in Hb as ([curr w3] & H1 & Hb).
    rewrite (to_front_not_start _ Hvalid _ _ _ _ _ _ Hstart Hw Hnext H1)
      in Hb.
    apply bind_Ok in Hb as ([nxt w4] & _ & Hb).
    by destruct (_ >? _).
  - apply walk_body_Continue in Hb as (_ & Hle & _).
    apply walk_loop_bound in Hloop as [[->|Hl] _]; done.
Qed.

Lemma combine_one_valid inner_fuel start w shape w' :
  start ∈ intersections ->
  walk_inv intersections w ->
  combine_one specialize inner_fuel intersections
    surface1 edges1 surface2 edges2 max_edges start w
  = Some (Ok (shape, w')) ->
  num_edges shape <= max_edges /\ walk_inv intersections w'.
Proof.
  intros Hstart Hw. unfold combine_one.
  destruct (get_next start intersections w) as [[nxt w1]|] eqn:Hn;
    [|discriminate].
  destruct (walk_loop _ _ _ _ _ _ _) as [[[ee w2]|]|] eqn:Hl;
    [|discriminate|discriminate].
  intros [= H]. apply bind_Ok in H as (info & Hinfo & H).
  apply bind_Ok in H as (sh & Hsh & H). injection H as <- <-.
  destruct (get_next_cases _ _ _ _ _ Hn Hw) as [Hw1 _].
  split; [|by eapply walk_loop_inv].
  apply ends_to_curves_length in Hinfo.
  apply make_intersection_num_edges in Hsh.
  rewrite Hsh, Hinfo.
  by apply (walk_loop_valid_bound inner_fuel start w nxt w1 ee w2).
Qed.

Lemma combine_loop_valid inner_fuel fuel w shapes out :
  walk_inv intersections w ->
  Forall (fun sh => num_edges sh <= max_edges) shapes ->
  combine_loop specialize inner_fuel fuel intersections
    surface1 edges1 surface2 edges2 max_edges w shapes = Some (Ok out) ->
  Forall (fun sh => num_edges sh <= max_edges) out.
Proof.
  revert w shapes.
  induction fuel as [|fuel IH]; intros w shapes Hw Hall; simpl.
  - destruct (list_pop (unused w)) as [[start rest]|]; [discriminate|].
    by intros [= <-].
  - destruct (list_pop (unused w)) as [[start rest]|] eqn:Hpop;
      [|by intros [= <-]].
    apply list_pop_Some in Hpop.
    assert (start ∈ intersections) as Hstart.
    { apply (proj2 Hw). rewrite Hpop. apply elem_of_app. right. left. }
    assert (walk_inv intersections (mkWalk rest (next_oid w))) as Hw'.
    { split; [apply Hw|]. simpl. intros a Ha. apply (proj2 Hw).
      rewrite Hpop. apply elem_of_app. by left. }
    destruct (combine_one _ _ _ _ _ _ _ _ _ _) as [[[sh w1]|]|] eqn:H1;
      [|discriminate|discriminate].
    apply (combine_one_valid _ _ _ _ _ Hstart Hw') in H1 as [Hsh Hw1].
    apply IH; [done|]. apply Forall_app. split; [done|]. by constructor.
Qed.

Lemma walk_inv_initial :
  walk_inv intersections
    (mkWalk (filter (fun i => in_ACCEPTABLE (interior_curve i) = true)
               intersections)
       (first_free_oid intersections)).
Proof.
  split; simpl.
  - intros a Ha. unfold first_free_oid.
    assert (oid a ∈ oid <$> intersections) as Hin
      by (apply list_elem_of_fmap; eauto).
    apply max_list_elem_of_le in Hin. lia.
  - intros a Ha. by apply list_elem_of_filter in Ha as [_ Ha].
Qed.

End ValidCombine.

(** The two crossings of the overlapping triangles respect the
    invariant of the data model. *)
Example overlapping_triangles_valid :
  valid_intersections [crossing_bottom; crossing_slope].
Proof.
  split.
  - repeat constructor; try (by eexists);
      eexists; (split; [reflexivity|split; decide_Q]).
  - intros a b Ha Hb.
    apply elem_of_cons in Ha as [->|Ha];
      [|apply list_elem_of_singleton in Ha as ->];
    (apply elem_of_cons in Hb as [->|Hb];
       [|apply list_elem_of_singleton in Hb as ->]);
    simpl; intros E; first [done | discriminate E].
Qed.

(** C7.  For intersections that respect the invariant of the data model
    (or, whatever the intersections, for a maximum of at least one
    edge), every shape [basic_interior_combine] returns has at most
    [max_edges] edges; a pass through the inner loop that would append
    a pair beyond [max_edges] raises [RuntimeError]; and both loops end:
    [fuel] passes are enough as soon as [fuel] covers the number of
    intersections and [max_edges]. *)
Theorem basic_interior_combine_edge_bound :
  forall specialize fuel intersections
         surface1 edges1 surface2 edges2 max_edges,
    valid_intersections intersections \/ 1 <= max_edges ->
    let r := basic_interior_combine specialize fuel intersections
               surface1 edges1 surface2 edges2 max_edges in
    (forall shapes,
        r = Some (Ok shapes) ->
        Forall (fun sh => num_edges sh <= max_edges) shapes)
    /\ (forall start next_node edge_ends w curr w1 next' w2,
           to_front next_node intersections w = Ok (curr, w1) ->
           is_ curr start = false ->
           get_next curr intersections w1 = Ok (next', w2) ->
           max_edges <= Z.of_nat (length edge_ends) ->
           walk_body intersections max_edges start next_node edge_ends w
           = Raise (RuntimeError "Unexpected number of edges"
                      (Z.of_nat (S (length edge_ends)))))
    /\ ((length intersections <= fuel)%nat ->
        (1 <= fuel)%nat -> max_edges <= Z.of_nat fuel -> r <> None).
Proof.
  intros specialize fuel intersections surface1 edges1 surface2 edges2
    max_edges Hin r. split; [|split].
  - intros shapes Hr. subst r. unfold basic_interior_combine in Hr.
    destruct Hin as [Hvalid|Hmax].
    + eapply combine_loop_valid; [done|apply walk_inv_initial|constructor|].
      exact Hr.
    + apply combine_loop_bound in Hr; [|constructor].
      by rewrite Z.max_r in Hr by lia.
  - intros. eapply walk_body_overflow; eauto. lia.
  - intros Hlen Hf Hm. subst r. unfold basic_interior_combine.
    apply combine_loop_fuel; [done|done|]. simpl.
    etrans; [apply length_filter|done].
Qed.

(** The two overlapping triangles: one loop of three edges. *)
Lemma basic_interior_combine_edge_bound_witness :
  exists shapes,
    basic_interior_combine specialize_exact 10
      [crossing_bottom; crossing_slope]
      big_triangle (linear_edges big_triangle)
      moved_triangle (linear_edges moved_triangle) default_max_edges
    = Some (Ok shapes)
    /\ Forall (fun sh => num_edges sh <= default_max_edges) shapes.
Proof.
  eexists. split; [vm_compute; reflexivity|].
  refine (proj1 (basic_interior_combine_edge_bound
    specialize_exact 10 [crossing_bottom; crossing_slope]
    big_triangle (linear_edges big_triangle)
    moved_triangle (linear_edges moved_triangle) default_max_edges _) _ _).
  - left. exact overlapping_triangles_valid.
  - vm_compute. reflexivity.
Defined.

(** Where both hypotheses of the bound fail, the bound can fail.  The
    list below breaks the invariant of the data model with an
    intersection at [s = 1.0]; the walk from [crossing_at_half] reaches
    it, [to_front] rotates it onto [crossing_at_half] again, and the
    loop closes with its first pair, before [max_edges] is looked at.
    With a maximum of zero edges a polygon of one edge comes back. *)
Example basic_interior_combine_zero_max_edges :
  let r := basic_interior_combine specialize_exact 2
             [crossing_at_half; tangency_at_end]
             unit_triangle unit_triangle_edges
             shifted_triangle unit_triangle_edges 0 in
  exists polygon,
    r = Some (Ok [Polygon polygon])
    /\ num_edges (Polygon polygon) = 1
    /\ ~ valid_intersection tangency_at_end.
Proof.
  eexists. split; [vm_compute; reflexivity|].
  split; [reflexivity|].
  intros (_ & _ & (q & [= <-] & _ & Hq) & _). by vm_compute in Hq.
Qed.

(** ** The sign of a polynomial *)

Lemma py_index_Ok {A} (l : list A) i a :
  py_index l i = Ok a -> a ∈ l.
Proof.
  unfold py_index. case_match; [|discriminate].
  destruct (l !! _) eqn:Hl; [|discriminate].
  intros [= <-]. by eapply list_elem_of_lookup_2.
Qed.

Lemma py_index_in_range {A} (l : list A) i :
  - Z.of_nat (length l) <= i < Z.of_nat (length l) ->
  exists a, py_index l i = Ok a.
Proof.
  intros Hi. unfold py_index.
  set (j := if i <? 0 then Z.of_nat (length l) + i else i).
  assert (0 <= j < Z.of_nat (length l)) as Hj.
  { subst j. destruct (Z.ltb_spec i 0); lia. }
  rewrite (proj2 (andb_true_iff _ _))
    by (split; [apply Z.leb_le|apply Z.ltb_lt]; lia).
  destruct (lookup_lt_is_Some_2 l (Z.to_nat j)) as [a ->]; [lia|eauto].
Qed.

Lemma signs_ok_add signs x :
  signs_ok signs -> (x = -1 \/ x = 0 \/ x = 1) -> signs_ok (signs ∪ {[ x ]}).
Proof.
  intros Hs Hx y [Hy|Hy%elem_of_singleton]%elem_of_union; [auto|by subst].
Qed.

Lemma size_two_elements (X : gset Z) a b :
  a ∈ X -> b ∈ X -> a <> b -> (1 < size X)%nat.
Proof.
  intros Ha Hb Hab.
  destruct (size X) as [|[|n]] eqn:Hsize; [| |lia].
  - apply size_empty_inv in Hsize. set_solver.
  - apply size_1_elem_of in Hsize as [x Hx]. set_solver.
Qed.

Lemma set_pop_elem (X : gset Z) x : set_pop X = Ok x -> x ∈ X.
Proof.
  unfold set_pop. destruct (elements X) as [|y l] eqn:He; [discriminate|].
  intros [= <-]. apply elem_of_elements. rewrite He. left.
Qed.

Section PolynomialFacts.

Variable specialize_surface :
  list Q -> Z -> Q * Q * Q -> Q * Q * Q -> Q * Q * Q -> result (list Q).

Local Abbreviation rounds := (sign_rounds specialize_surface).

Lemma sign_scan_signs_ok degree signs undecided sub_polys signs' undecided' :
  sign_scan degree signs undecided sub_polys = Ok (Scanned signs' undecided') ->
  signs_ok signs -> signs_ok signs'.
Proof.
  revert signs undecided.
  induction sub_polys as [|poly rest IH]; intros signs undecided; simpl.
  - by intros [= <- <-].
  - intros H Hok.
    apply bind_Ok in H as (c0 & _ & H).
    apply bind_Ok in H as (c1 & _ & H).
    apply bind_Ok in H as (c2 & _ & H).
    assert (signs_ok (signs ∪ {[_SIGN c0]} ∪ {[_SIGN c1]} ∪ {[_SIGN c2]}))
      as Hok' by (repeat apply signs_ok_add; auto using _SIGN_range).
    repeat case_match; simplify_eq; try discriminate;
      eapply IH; try eassumption; try apply signs_ok_add; auto.
Qed.

Lemma sign_conclusion_range signs sub_polys v :
  signs_ok signs -> sign_conclusion signs sub_polys = Ok v ->
  v = -1 \/ v = 0 \/ v = 1.
Proof.
  intros Hok. destruct sub_polys; [|discriminate]. simpl.
  intros H%set_pop_elem. auto.
Qed.

Lemma sign_rounds_range remaining degree signs sub_polys v :
  signs_ok signs ->
  (rounds remaining degree signs sub_polys).1 = Ok v ->
  v = -1 \/ v = 0 \/ v = 1.
Proof.
  revert signs sub_polys.
  induction remaining as [|n IH]; intros signs sub_polys Hok; simpl.
  - by apply sign_conclusion_range.
  - destruct (sign_scan _ _ _ _) as [[|signs' undecided]|] eqn:Hscan; simpl;
      [intros [= <-]; auto| |discriminate].
    apply sign_scan_signs_ok in Hscan; [|done].
    destruct (subdivide_all _ _ _) as [[|p l]|]; simpl; [| |discriminate].
    + by apply (sign_conclusion_range signs' []).
    + destruct (rounds n degree signs' (p :: l)) as [r c] eqn:Hr. simpl.
      intros ->. eapply (IH signs' (p :: l)); [done|]. by rewrite Hr.
Qed.

Lemma sign_rounds_count remaining degree signs sub_polys :
  ((rounds remaining degree signs sub_polys).2 <= remaining)%nat.
Proof.
  revert signs sub_polys.
  induction remaining as [|n IH]; intros signs sub_polys; simpl; [done|].
  destruct (sign_scan _ _ _ _) as [[|signs' undecided]|]; simpl; try lia.
  destruct (subdivide_all _ _ _) as [[|p l]|]; simpl; try lia.
  specialize (IH signs' (p :: l)).
  destruct (rounds n degree signs' (p :: l)) as [r c]. simpl in *. lia.
Qed.

(** When every round subdivided, the call ends in the error. *)
Lemma sign_rounds_exhausted remaining degree signs sub_polys :
  sub_polys <> [] ->
  (rounds remaining degree signs sub_polys).2 = remaining ->
  (rounds remaining degree signs sub_polys).1
  = Raise (ValueError "Did not reach a conclusion after max subdivisions").
Proof.
  revert signs sub_polys.
  induction remaining as [|n IH]; intros signs sub_polys Hne; simpl.
  - by destruct sub_polys.
  - destruct (sign_scan _ _ _ _) as [[|signs' undecided]|]; simpl;
      try discriminate.
    destruct (subdivide_all _ _ _) as [[|p l]|]; simpl; try discriminate.
    specialize (IH signs' (p :: l)).
    destruct (rounds n degree signs' (p :: l)) as [r c]. simpl in *.
    intros [= ->]. by apply IH.
Qed.

Lemma subdivide_all_length undecided degree subs :
  subdivide_all specialize_surface undecided degree = Ok subs ->
  length subs = (4 * length undecided)%nat.
Proof.
  revert subs. induction undecided as [|poly rest IH]; intros subs; simpl.
  - by intros [= <-].
  - intros H. apply bind_Ok in H as ([[[a b] c] d] & _ & H).
    apply bind_Ok in H as (l & Hl & H). injection H as <-.
    simpl. rewrite (IH l Hl). lia.
Qed.

End PolynomialFacts.

(** A polynomial with positive coefficients only is decided in the
    first round. *)
Lemma sign_scan_positive poly degree :
  Forall (fun c => (0 < c)%Q) poly ->
  - Z.of_nat (length poly) <= degree < Z.of_nat (length poly) ->
  sign_scan degree ∅ [] [poly] = Ok (Scanned {[ 1 ]} []).
Proof.
  intros Hpos Hdeg.
  assert (forall i c, py_index poly i = Ok c -> _SIGN c = 1) as Hsign.
  { intros i c Hc%py_index_Ok. apply _SIGN_pos.
    by apply (proj1 (Forall_forall _ _) Hpos). }
  destruct (py_index_in_range poly 0) as [c0 H0]; [lia|].
  destruct (py_index_in_range poly degree) as [c1 H1]; [lia|].
  destruct (py_index_in_range poly (-1)) as [c2 H2]; [lia|].
  simpl. rewrite H0, H1, H2. simpl.
  rewrite (Hsign _ _ H0), (Hsign _ _ H1), (Hsign _ _ H2).
  assert (forallb (fun c => Qeq_bool c 0) poly = false) as ->.
  { destruct poly as [|a l]; [simpl in Hdeg; lia|].
    apply Forall_inv in Hpos. simpl.
    apply andb_false_iff. left. apply not_true_iff_false.
    rewrite Qeq_bool_iff. intros E. rewrite E in Hpos.
    by apply Qlt_irrefl in Hpos. }
  assert (forallb (fun c => Qltb 0 c) poly = true) as ->.
  { apply forallb_forall. intros c Hc. apply Qltb_lt.
    apply (proj1 (Forall_forall _ _) Hpos). by apply list_elem_of_In. }
  assert ((∅ ∪ {[1]} ∪ {[1]} ∪ {[1]} ∪ {[1]} : gset Z) = {[1]}) as ->
    by set_solver.
  by rewrite size_singleton.
Qed.

(** Corner coefficients of different signs end the first round with
    [return 0]. *)
Lemma sign_scan_corners poly rest degree c0 c1 c2 :
  py_index poly 0 = Ok c0 ->
  py_index poly degree = Ok c1 ->
  py_index poly (-1) = Ok c2 ->
  ~ (_SIGN c0 = _SIGN c1 /\ _SIGN c1 = _SIGN c2) ->
  sign_scan degree ∅ [] (poly :: rest) = Ok Mixed.
Proof.
  intros H0 H1 H2 Hne. simpl. rewrite H0, H1, H2. simpl.
  set (corners :=
         (∅ ∪ {[_SIGN c0]} ∪ {[_SIGN c1]} ∪ {[_SIGN c2]} : gset Z)).
  assert (_SIGN c0 ∈ corners /\ _SIGN c1 ∈ corners /\ _SIGN c2 ∈ corners)
    as (In0 & In1 & In2).
  { subst corners. rewrite !elem_of_union, !elem_of_singleton. tauto. }
  assert (forall X : gset Z, corners ⊆ X -> (1 < size X)%nat) as Hsize.
  { intros X HX. destruct (decide (_SIGN c0 = _SIGN c1)) as [E|N].
    - apply (size_two_elements _ (_SIGN c1) (_SIGN c2));
        [by apply HX|by apply HX|tauto].
    - by apply (size_two_elements _ (_SIGN c0) (_SIGN c1)); [apply HX..|]. }
  destruct (forallb (fun c => Qeq_bool c 0) poly);
    [|destruct (forallb (fun c => Qltb 0 c) poly);
      [|destruct (forallb (fun c => Qltb c 0) poly)]];
    (rewrite bool_decide_eq_true_2; [done|]);
    apply Hsize; first [done | apply union_subseteq_l].
Qed.

Section PolynomialCorners.

Variable specialize_surface :
  list Q -> Z -> Q * Q * Q -> Q * Q * Q -> Q * Q * Q -> result (list Q).

Lemma sign_rounds_Mixed remaining degree signs sub_polys :
  sign_scan degree signs [] sub_polys = Ok Mixed ->
  sign_rounds specialize_surface (S remaining) degree signs sub_polys
  = (Ok 0, O).
Proof. intros H. simpl. by rewrite H. Qed.

Lemma sign_rounds_decided remaining degree signs sub_polys signs' :
  sign_scan degree signs [] sub_polys = Ok (Scanned signs' []) ->
  sign_rounds specialize_surface (S remaining) degree signs sub_polys
  = (set_pop signs', O).
Proof. intros H. simpl. by rewrite H. Qed.

End PolynomialCorners.

(** C8.  Whatever [polynomial_sign] returns is [-1], [0] or [1]; for
    coefficients that are all positive it returns [1], whatever the
    degree that indexes the second corner; and when the signs of the
    three corner coefficients (indices [0], [degree] and [-1]) are not
    all the same it returns [0]. *)
Theorem polynomial_sign_values :
  forall specialize_surface poly_surface degree,
    let r := polynomial_sign specialize_surface poly_surface degree in
    (forall v, r = Ok v -> v = -1 \/ v = 0 \/ v = 1)
    /\ (Forall (fun c => (0 < c)%Q) poly_surface ->
        - Z.of_nat (length poly_surface) <= degree
          < Z.of_nat (length poly_surface) ->
        r = Ok 1)
    /\ (forall c0 c1 c2,
           py_index poly_surface 0 = Ok c0 ->
           py_index poly_surface degree = Ok c1 ->
           py_index poly_surface (-1) = Ok c2 ->
           ~ (_SIGN c0 = _SIGN c1 /\ _SIGN c1 = _SIGN c2) ->
           r = Ok 0).
Proof.
  intros spec poly degree r. subst r. unfold polynomial_sign.
  split; [|split].
  - intros v. apply sign_rounds_range. intros x Hx. set_solver.
  - intros Hpos Hdeg. unfold _MAX_POLY_SUBDIVISIONS.
    rewrite (sign_rounds_decided _ _ _ _ _ {[1]})
      by (by apply sign_scan_positive).
    simpl. unfold set_pop. by rewrite elements_singleton.
  - intros c0 c1 c2 H0 H1 H2 Hne. unfold _MAX_POLY_SUBDIVISIONS.
    by rewrite (sign_rounds_Mixed _ _ _ _ _
                  (sign_scan_corners _ _ _ _ _ _ H0 H1 H2 Hne)).
Qed.

(** Positive coefficients in degree 1, and a linear polynomial that
    changes sign between two corners. *)
Lemma polynomial_sign_values_witness :
  polynomial_sign specialize_surface_unused [1; 2; 3]%Q 1 = Ok 1
  /\ polynomial_sign specialize_surface_unused changing_sign 1 = Ok 0.
Proof.
  split.
  - apply (proj1 (proj2 (polynomial_sign_values
             specialize_surface_unused [1; 2; 3]%Q 1))).
    + repeat constructor.
    + simpl. lia.
  - apply (proj2 (proj2 (polynomial_sign_values
             specialize_surface_unused changing_sign 1))
             1%Q (-1)%Q 1%Q); try reflexivity.
    vm_compute. intros [H _]. discriminate H.
Defined.

(** C9.  [polynomial_sign] is a total function: every call returns or
    raises.  It goes through at most [_MAX_POLY_SUBDIVISIONS = 5] rounds
    of subdivision, each of which replaces every undecided polynomial
    by four sub-polynomials, and a call that subdivided in all five
    rounds ends with the [ValueError] of the source. *)
Theorem polynomial_sign_bounded_subdivision :
  forall specialize_surface poly_surface degree,
    let r := polynomial_sign specialize_surface poly_surface degree in
    let n := polynomial_sign_subdivisions
               specialize_surface poly_surface degree in
    ((exists v, r = Ok v) \/ (exists e, r = Raise e))
    /\ (n <= 5)%nat
    /\ (n = 5%nat ->
        r = Raise (ValueError
                     "Did not reach a conclusion after max subdivisions"))
    /\ (forall undecided subs,
           subdivide_all specialize_surface undecided degree = Ok subs ->
           length subs = (4 * length undecided)%nat).
Proof.
  intros spec poly degree r n. subst r n.
  unfold polynomial_sign, polynomial_sign_subdivisions.
  split; [|split; [|split]].
  - destruct (sign_rounds _ _ _ _ _).1; eauto.
  - apply sign_rounds_count.
  - intros H.
    by apply (sign_rounds_exhausted
                spec _MAX_POLY_SUBDIVISIONS degree ∅ [poly]).
  - intros undecided subs. apply subdivide_all_length.
Qed.

(** A polynomial with a zero strictly inside the triangle and positive
    corners is still undecided after five rounds. *)
Lemma polynomial_sign_bounded_subdivision_witness :
  polynomial_sign specialize_surface_unused touching_zero 2
  = Raise (ValueError "Did not reach a conclusion after max subdivisions").
Proof.
  apply (proj1 (proj2 (proj2 (polynomial_sign_bounded_subdivision
           specialize_surface_unused touching_zero 2)))).
  vm_compute. reflexivity.
Defined.

(** ** Worked examples of the assembler *)

(** The crossings of the two overlapping triangles are classified
    [FIRST] and [SECOND], and the assembler returns the overlap: the
    second surface from [(2,6)] down to [(2,0)], then the first surface
    along its bottom edge to [(8,0)] and up its slope to [(2,6)]. *)
Example overlapping_triangles :
  classify_intersection evaluate_hodograph_exact get_curvature_horizontal
    cross_product_exact vdot_exact crossing_bottom
    (linear_edges big_triangle) (linear_edges moved_triangle)
  = Ok FIRST
  /\ classify_intersection evaluate_hodograph_exact get_curvature_horizontal
       cross_product_exact vdot_exact crossing_slope
       (linear_edges big_triangle) (linear_edges moved_triangle)
     = Ok SECOND
  /\ exists e1 e2 e3,
       combine_intersections locate_linear specialize_exact 10
         [crossing_bottom; crossing_slope]
         big_triangle (linear_edges big_triangle)
         moved_triangle (linear_edges moved_triangle)
       = Some (Ok [Polygon (mkCurvedPolygon [e1; e2; e3])])
       /\ Forall2 (fun e ends =>
                     Forall2 (fun p q => vec_eqb p q = true) (_nodes e) ends)
            [e1; e2; e3]
            [ [(2, 6); (2, 0)]; [(2, 0); (8, 0)]; [(8, 0); (2, 6)] ]%Q.
Proof.
  split; [vm_compute; reflexivity|].
  split; [vm_compute; reflexivity|].
  do 3 eexists. split; [vm_compute; reflexivity|].
  repeat constructor.
Qed.

(** With a maximum of two edges the same walk raises. *)
Example overlapping_triangles_two_edges :
  basic_interior_combine specialize_exact 10
    [crossing_bottom; crossing_slope]
    big_triangle (linear_edges big_triangle)
    moved_triangle (linear_edges moved_triangle) 2
  = Some (Raise (RuntimeError "Unexpected number of edges" 3)).
Proof. vm_compute. reflexivity. Qed.

(** A walk around all of the first surface returns that surface. *)
Example inscribed_triangle_whole :
  combine_intersections locate_linear specialize_exact 10
    inscribed_corners
    inscribed_triangle (linear_edges inscribed_triangle)
    big_triangle (linear_edges big_triangle)
  = Some (Ok [WholeSurface inscribed_triangle]).
Proof. vm_compute. reflexivity. Qed.

(** ** Worked examples of the sign test *)

(** A positive polynomial with a negative coefficient is certified
    after one round of subdivision. *)
Example positive_bowl_sign :
  polynomial_sign specialize_surface_unused positive_bowl 2 = Ok 1
  /\ polynomial_sign_subdivisions specialize_surface_unused positive_bowl 2
     = 1%nat.
Proof. split; vm_compute; reflexivity. Qed.

(** A degree that does not index the coefficients is an [IndexError]. *)
Example polynomial_sign_wrong_degree :
  polynomial_sign specialize_surface_unused [1; 2; 3]%Q 7 = Raise IndexError.
Proof. vm_compute. reflexivity. Qed.

(** The coefficients of a polynomial of degree [d] are
    [(d + 1) (d + 2) / 2] many, so [d] indexes them. *)
Lemma degree_indexes_coefficients (poly : list Q) (d : nat) :
  (2 * length poly = (d + 1) * (d + 2))%nat ->
  - Z.of_nat (length poly) <= Z.of_nat d < Z.of_nat (length poly).
Proof. intros H. nia. Qed.

(** ** Intersections at the end of an edge *)

Lemma Qeq_bool_refl_false x y : Qeq_bool x y = false -> ~ (x == y)%Q.
Proof. intros H E. apply Qeq_bool_iff in E. congruence. Qed.

(** What [handle_ends] returns, case by case. *)
Lemma handle_ends_cases index1 sv index2 tv :
  handle_ends index1 sv index2 tv
  = (Qeq_bool sv 1 || Qeq_bool tv 1,
     (if Qeq_bool sv 1 then (index1 + 1) `mod` 3 else index1,
      if Qeq_bool sv 1 then 0%Q else sv,
      if Qeq_bool tv 1 then (index2 + 1) `mod` 3 else index2,
      if Qeq_bool tv 1 then 0%Q else tv)).
Proof. unfold handle_ends. by destruct (Qeq_bool sv 1), (Qeq_bool tv 1). Qed.

(** X1.  No parameter that [handle_ends] returns is [1.0], so a second
    application finds nothing to move: it reports no edge end and
    returns its arguments. *)
Theorem handle_ends_idempotent :
  forall index1 sv index2 tv,
    let '(_, (index1', sv', index2', tv')) :=
      handle_ends index1 sv index2 tv in
    Qeq_bool sv' 1 = false /\ Qeq_bool tv' 1 = false
    /\ handle_ends index1' sv' index2' tv'
       = (false, (index1', sv', index2', tv')).
Proof.
  intros index1 sv index2 tv. rewrite handle_ends_cases.
  assert (Qeq_bool (if Qeq_bool sv 1 then 0%Q else sv) 1 = false) as Hs
    by (by destruct (Qeq_bool sv 1) eqn:E).
  assert (Qeq_bool (if Qeq_bool tv 1 then 0%Q else tv) 1 = false) as Ht
    by (by destruct (Qeq_bool tv 1) eqn:E).
  split; [done|]. split; [done|].
  by rewrite handle_ends_cases, Hs, Ht.
Qed.
(** X2.  On parameters of the closed unit interval and edge indices
    among 0, 1, 2, the values [handle_ends] returns make an
    intersection that respects the invariant of the data model: the
    parameters lie in the half-open interval, the indices stay among
    0, 1, 2. *)
Theorem handle_ends_valid :
  forall o index1 sv index2 tv ic,
    0 <= index1 < 3 -> 0 <= index2 < 3 ->
    (0 <= sv)%Q /\ (sv <= 1)%Q -> (0 <= tv)%Q /\ (tv <= 1)%Q ->
    let '(_, (index1', sv', index2', tv')) :=
      handle_ends index1 sv index2 tv in
    0 <= index1' < 3 /\ 0 <= index2' < 3
    /\ valid_intersection
         (Intersection_of o (index1', sv', index2', tv') ic).
Proof.
  intros o index1 sv index2 tv ic H1 H2 [Hs0 Hs1] [Ht0 Ht1].
  rewrite handle_ends_cases.
  pose proof (Z.mod_pos_bound (index1 + 1) 3).
  pose proof (Z.mod_pos_bound (index2 + 1) 3).
  split; [destruct (Qeq_bool sv 1); lia|].
  split; [destruct (Qeq_bool tv 1); lia|].
  split; [by eexists|]. split; [by eexists|]. simpl. split.
  - eexists. split; [done|].
    destruct (Qeq_bool sv 1) eqn:E; [done|].
    split; [done|]. apply Qeq_bool_refl_false in E.
    apply Qle_lt_or_eq in Hs1 as [|]; done.
  - eexists. split; [done|].
    destruct (Qeq_bool tv 1) eqn:E; [done|].
    split; [done|]. apply Qeq_bool_refl_false in E.
    apply Qle_lt_or_eq in Ht1 as [|]; done.
Qed.

(** The end of the second edge of the first surface, met in the middle
    of an edge of the second. *)
Lemma handle_ends_valid_witness :
  let '(_, (index1', sv', index2', tv')) := handle_ends 2 1 0 0.5 in
  0 <= index1' < 3 /\ 0 <= index2' < 3
  /\ valid_intersection (Intersection_of 0 (index1', sv', index2', tv') None).
Proof.
  apply (handle_ends_valid 0 2 1 0 0.5 None); try lia; split; decide_Q.
Defined.

Lemma bind_Raise {A B} (m : result A) (f : A -> result B) e :
  m ≫= f = Raise e ->
  m = Raise e \/ exists a, m = Ok a /\ f a = Raise e.
Proof. destruct m as [a|e']; [eauto|]. intros [= <-]. by left. Qed.

(** The exceptions of the lookups: never a [ValueError]. *)
Lemma as_float_Raise x e : as_float x = Raise e -> e = TypeError.
Proof. destruct x; [discriminate|]. by intros [= <-]. Qed.

Lemma as_int_Raise x e : as_int x = Raise e -> e = TypeError.
Proof. destruct x; [discriminate|]. by intros [= <-]. Qed.

Lemma py_index_Raise {A} (l : list A) i e :
  py_index l i = Raise e -> e = IndexError.
Proof.
  unfold py_index. destruct (_ && _); [|by intros [= <-]].
  destruct (l !! _); [discriminate|]. by intros [= <-].
Qed.

Lemma edge_nodes_Raise edges index e :
  edge_nodes edges index = Raise e ->
  e = TypeError \/ e = IndexError \/ e = AttributeError.
Proof.
  unfold edge_nodes. intros H.
  apply bind_Raise in H as [H%as_int_Raise|(i & _ & H)]; [auto|].
  apply bind_Raise in H as [H%py_index_Raise|(c & _ & H)]; [auto|].
  destruct c; [discriminate|]. injection H as <-. auto.
Qed.

Section ClassifierErrors.

Variable evaluate_hodograph : Q -> list vec -> vec.
Variable get_curvature : list vec -> vec -> Q -> Q.
Variable cross_product : vec -> vec -> Q.
Variable vdot : vec -> vec -> Q.

Local Abbreviation classify :=
  (classify_intersection evaluate_hodograph get_curvature cross_product vdot).

Lemma ignored_corner_Raise i tangent_s tangent_t edges1 edges2 e :
  ignored_corner evaluate_hodograph cross_product
    i tangent_s tangent_t edges1 edges2 = Raise e ->
  e = TypeError \/ e = IndexError \/ e = AttributeError.
Proof.
  unfold ignored_corner, ignored_double_corner. intros H.
  repeat case_match;
    repeat (apply bind_Raise in H as [H|(? & _ & H)];
            [first [apply as_int_Raise in H | apply edge_nodes_Raise in H];
             by auto|]);
    try discriminate;
    repeat case_match; try discriminate;
    repeat (apply bind_Raise in H as [H|(? & _ & H)];
            [first [apply as_int_Raise in H | apply edge_nodes_Raise in H];
             by auto|]);
    repeat case_match; discriminate.
Qed.

Lemma classify_tangent_intersection_Raise i nodes1 tangent1 nodes2 tangent2 e :
  classify_tangent_intersection get_curvature vdot
    i nodes1 tangent1 nodes2 tangent2 = Raise e ->
  e = TypeError
  \/ e = NotImplementedError _SAME_CURVATURE
  \/ e = NotImplementedError _BAD_TANGENT.
Proof.
  unfold classify_tangent_intersection. intros H.
  apply bind_Raise in H as [H%as_float_Raise|(sv & _ & H)]; [auto|].
  apply bind_Raise in H as [H%as_float_Raise|(tv & _ & H)]; [auto|].
  repeat case_match; try discriminate; injection H as <-; auto.
Qed.

(** [classify_intersection] raises [ValueError] for an intersection at
    the end of an edge and for no other. *)
Lemma classify_intersection_ValueError i edges1 edges2 msg :
  classify i edges1 edges2 = Raise (ValueError msg) ->
  float_eq (s i) 1 || float_eq (t i) 1 = true.
Proof.
  unfold classify_intersection.
  destruct (float_eq (s i) 1 || float_eq (t i) 1); [done|]. intros H.
  exfalso.
  apply bind_Raise in H as [H%edge_nodes_Raise|(nodes1 & _ & H)];
    [by destruct H as [|[|]]|].
  apply bind_Raise in H as [H%as_float_Raise|(sv & _ & H)]; [done|].
  apply bind_Raise in H as [H%edge_nodes_Raise|(nodes2 & _ & H)];
    [by destruct H as [|[|]]|].
  apply bind_Raise in H as [H%as_float_Raise|(tv & _ & H)]; [done|].
  apply bind_Raise in H as [H%ignored_corner_Raise|(ignored & _ & H)];
    [by destruct H as [|[|]]|].
  destruct ignored; [done|].
  repeat case_match; try done.
  apply classify_tangent_intersection_Raise in H. by destruct H as [|[|]].
Qed.

End ClassifierErrors.

(** X3.  [classify_intersection] never raises [ValueError] on an
    intersection made from the values [handle_ends] returns: the
    rotation to the next edge is what the end-of-edge guard asks
    for. *)
Theorem classify_intersection_after_handle_ends :
  forall evaluate_hodograph get_curvature cross_product vdot
         o index1 sv index2 tv ic edges1 edges2 msg,
    classify_intersection evaluate_hodograph get_curvature cross_product vdot
      (Intersection_of o (handle_ends index1 sv index2 tv).2 ic)
      edges1 edges2
    <> Raise (ValueError msg).
Proof.
  intros eh gc cp vd o index1 sv index2 tv ic edges1 edges2 msg H.
  apply classify_intersection_ValueError in H.
  rewrite handle_ends_cases in H. simpl in H.
  by destruct (Qeq_bool sv 1) eqn:Es, (Qeq_bool tv 1) eqn:Et;
    simpl in H; rewrite ?Es, ?Et in H.
Qed.
(** X4.  [to_front] rotates as [handle_ends] does: the node it returns
    is one of the listed intersections, or its attributes are the
    values [handle_ends] computes from those of the given node, with
    the classification kept; and where [handle_ends] reports no edge
    end, it is the given node itself and no object is made. *)
Theorem to_front_handle_ends :
  forall o index1 sv index2 tv ic intersections w,
    let node := Intersection_of o (index1, sv, index2, tv) ic in
    let '(edge_end, rotated) := handle_ends index1 sv index2 tv in
    exists found w',
      to_front node intersections w = Ok (found, w')
      /\ (found ∈ intersections
          \/ exists o', found = Intersection_of o' rotated ic)
      /\ (edge_end = false -> found = node /\ next_oid w' = next_oid w).
Proof.
  intros o index1 sv index2 tv ic l w node.
  rewrite handle_ends_cases. unfold to_front. subst node. simpl.
  destruct (Qeq_bool sv 1) eqn:Es; simpl;
    destruct (Qeq_bool tv 1) eqn:Et; simpl;
    eexists _, _; (split; [reflexivity|]);
    rewrite ?mark_used_next_oid; simpl;
    (split; [|first [done | discriminate]]).
  - match goal with |- context [to_front_existing ?x l] =>
      destruct (to_front_existing_cases x l) as [->|[Hin _]] end;
      [right; by eexists|by left].
  - match goal with |- context [to_front_existing ?x l] =>
      destruct (to_front_existing_cases x l) as [->|[Hin _]] end;
      [right; by eexists|by left].
  - match goal with |- context [to_front_existing ?x l] =>
      destruct (to_front_existing_cases x l) as [->|[Hin _]] end;
      [right; by eexists|by left].
  - right. by eexists.
Qed.

Section ClassifierTangency.

Variable evaluate_hodograph : Q -> list vec -> vec.
Variable get_curvature : list vec -> vec -> Q -> Q.
Variable cross_product : vec -> vec -> Q.
Variable vdot : vec -> vec -> Q.

Local Abbreviation classify :=
  (classify_intersection evaluate_hodograph get_curvature cross_product vdot).

(** What a call that got past the guard and the lookups has read. *)
Lemma classify_intersection_reads i edges1 edges2 r :
  classify i edges1 edges2 = r ->
  (forall msg, r <> Raise (ValueError msg)) ->
  r <> Raise TypeError -> r <> Raise IndexError ->
  r <> Raise AttributeError ->
  exists sv tv nodes1 nodes2 ignored,
    s i = Some sv /\ t i = Some tv
    /\ ~ (sv == 1)%Q /\ ~ (tv == 1)%Q
    /\ edge_nodes edges1 (index_first i) = Ok nodes1
    /\ edge_nodes edges2 (index_second i) = Ok nodes2
    /\ ignored_corner evaluate_hodograph cross_product i
         (evaluate_hodograph sv nodes1) (evaluate_hodograph tv nodes2)
         edges1 edges2 = Ok ignored.
Proof.
  unfold classify_intersection. intros <- Hv Ht Hi Ha.
  destruct (float_eq (s i) 1 || float_eq (t i) 1) eqn:Hend;
    [by destruct (Hv _ eq_refl)|].
  apply orb_false_iff in Hend as [Hs1 Ht1].
  destruct (edge_nodes edges1 (index_first i)) as [nodes1|e] eqn:Hn1.
  2:{ apply edge_nodes_Raise in Hn1 as [->|[->| ->]]; simpl in *; done. }
  destruct (s i) as [sv|]; [|done].
  destruct (edge_nodes edges2 (index_second i)) as [nodes2|e] eqn:Hn2.
  2:{ apply edge_nodes_Raise in Hn2 as [->|[->| ->]]; simpl in *; done. }
  destruct (t i) as [tv|]; [|done]. simpl in *.
  destruct (ignored_corner _ _ _ _ _ _ _) as [ignored|e] eqn:Hign.
  2:{ apply ignored_corner_Raise in Hign as [->|[->| ->]]; simpl in *; done. }
  exists sv, tv, nodes1, nodes2, ignored.
  repeat split; try done.
  - intros E. apply Qeq_bool_iff in E. congruence.
  - intros E. apply Qeq_bool_iff in E. congruence.
Qed.

End ClassifierTangency.

(** X5.  [classify_intersection] raises [NotImplementedError] at a
    tangency only: the intersection is past the end-of-edge guard, is
    not an ignored corner, and the cross product of the two tangents is
    zero.  The message is one of the two of tangency resolution. *)
Theorem classify_intersection_not_implemented :
  forall evaluate_hodograph get_curvature cross_product vdot
         i edges1 edges2 msg,
    classify_intersection evaluate_hodograph get_curvature cross_product vdot
      i edges1 edges2 = Raise (NotImplementedError msg) ->
    (msg = _SAME_CURVATURE \/ msg = _BAD_TANGENT)
    /\ exists sv tv nodes1 nodes2,
         tangent_intersection evaluate_hodograph cross_product
           i edges1 edges2 sv tv nodes1 nodes2.
Proof.
  intros eh gc cp vd i edges1 edges2 msg H.
  destruct (classify_intersection_reads eh gc cp vd _ _ _ _ H)
    as (sv & tv & nodes1 & nodes2 & ignored
        & Hs & Ht & Hs1 & Ht1 & Hn1 & Hn2 & Hign); try done.
  destruct ignored.
  { unfold classify_intersection in H.
    rewrite Hs, Ht, !float_eq_false_ne in H by done. simpl in H.
    rewrite Hn1 in H. simpl in H. rewrite Hn2 in H. simpl in H.
    by rewrite Hign in H. }
  rewrite (classify_intersection_interior _ _ _ _ _ _ _ _ _ _ _
             Hs Ht Hs1 Ht1 Hn1 Hn2 Hign) in H. simpl in H.
  destruct (Qltb (cp _ _) 0) eqn:Hneg; [done|].
  destruct (Qltb 0 (cp _ _)) eqn:Hpos; [done|].
  apply Qltb_ge in Hneg, Hpos.
  apply classify_tangent_intersection_Raise in H as [H|[H|H]];
    [done|injection H as ->|injection H as ->];
    (split; [auto|]); exists sv, tv, nodes1, nodes2;
    repeat split; try done; by apply Qle_antisym.
Qed.

(** The sixth doctest of [classify_intersection]: two arcs that touch
    with the same curvature. *)
Lemma classify_intersection_not_implemented_witness :
  exists sv tv nodes1 nodes2,
    tangent_intersection evaluate_hodograph_exact cross_product_exact
      midpoint_intersection
      [Some doctest6_curve1; None; None] [Some doctest6_curve2; None; None]
      sv tv nodes1 nodes2.
Proof.
  refine (proj2 (classify_intersection_not_implemented
    evaluate_hodograph_exact get_curvature_horizontal
    cross_product_exact vdot_exact midpoint_intersection
    [Some doctest6_curve1; None; None] [Some doctest6_curve2; None; None]
    _SAME_CURVATURE _)).
  vm_compute. reflexivity.
Defined.
Lemma Qltb_comp x x' y y' :
  (x == x')%Q -> (y == y')%Q -> Qltb x y = Qltb x' y'.
Proof. intros Hx Hy. unfold Qltb. by rewrite Hx, Hy. Qed.

Lemma Qltb_opp_l x : Qltb (- x) 0 = Qltb 0 x.
Proof.
  destruct (Qltb 0 x) eqn:H.
  - apply Qltb_lt. apply Qltb_lt in H.
    apply Qopp_lt_compat in H. exact H.
  - apply Qltb_ge. apply Qltb_ge in H.
    apply Qopp_le_compat in H. exact H.
Qed.

Lemma Qltb_opp_r x : Qltb 0 (- x) = Qltb x 0.
Proof. by rewrite <- (Qltb_opp_l (- x)), (Qltb_comp _ x 0 0 (Qopp_involutive x)). Qed.

Lemma Qltb_asym x y : Qltb x y = true -> Qltb y x = false.
Proof. intros H%Qltb_lt. apply Qltb_ge. by apply Qlt_le_weak. Qed.

(** X6.  Away from the start of both edges, and with a cross product
    that is antisymmetric and a dot product that is symmetric, the
    classifier does not depend on which surface is called the first:
    on the swapped intersection and the swapped edges it returns the
    mirrored class, whenever the class is not [OPPOSED]. *)
Theorem classify_intersection_swap :
  forall evaluate_hodograph get_curvature cross_product vdot
         i edges1 edges2 c,
    (forall v w, cross_product w v == - cross_product v w)%Q ->
    (forall v w, vdot w v == vdot v w)%Q ->
    float_eq (s i) 0 = false -> float_eq (t i) 0 = false ->
    classify_intersection evaluate_hodograph get_curvature cross_product vdot
      i edges1 edges2 = Ok c ->
    c <> OPPOSED ->
    classify_intersection evaluate_hodograph get_curvature cross_product vdot
      (swap_intersection i) edges2 edges1 = Ok (mirror_classification c).
Proof.
  intros eh gc cp vd i edges1 edges2 c Hcross Hdot Hs0 Ht0 H Hc.
  destruct (classify_intersection_reads eh gc cp vd _ _ _ _ H)
    as (sv & tv & nodes1 & nodes2 & ignored
        & Hs & Ht & Hs1 & Ht1 & Hn1 & Hn2 & Hign); try done.
  rewrite ignored_corner_interior in Hign by done. injection Hign as <-.
  rewrite (classify_intersection_interior eh gc cp vd
             i edges1 edges2 sv tv nodes1 nodes2) in H;
    [|done..|by apply ignored_corner_interior].
  rewrite (classify_intersection_interior eh gc cp vd
             (swap_intersection i) edges2 edges1 tv sv nodes2 nodes1);
    [|done..|by apply ignored_corner_interior]. simpl in *.
  set (tangent1 := eh sv nodes1) in *. set (tangent2 := eh tv nodes2) in *.
  rewrite (Qltb_comp _ _ 0 0 (Hcross tangent1 tangent2) (Qeq_refl 0)),
    (Qltb_comp 0 0 _ _ (Qeq_refl 0) (Hcross tangent1 tangent2)),
    Qltb_opp_l, Qltb_opp_r.
  destruct (Qltb (cp tangent1 tangent2) 0) eqn:Hneg.
  { injection H as <-. by rewrite (Qltb_asym _ _ Hneg). }
  destruct (Qltb 0 (cp tangent1 tangent2)) eqn:Hpos.
  { by injection H as <-. }
  unfold classify_tangent_intersection in *. simpl.
  rewrite Hs, Ht in *. simpl in *.
  rewrite (Qltb_comp _ _ 0 0 (Hdot tangent1 tangent2) (Qeq_refl 0)).
  destruct (Qltb (vd tangent1 tangent2) 0).
  { repeat case_match; try discriminate; by injection H as <-. }
  destruct (Qltb (gc nodes2 tangent2 tv) (gc nodes1 tangent1 sv)) eqn:H21.
  { injection H as <-. by rewrite (Qltb_asym _ _ H21). }
  destruct (Qltb (gc nodes1 tangent1 sv) (gc nodes2 tangent2 tv));
    [by injection H as <-|done].
Qed.

Lemma cross_product_exact_antisym v w :
  (cross_product_exact w v == - cross_product_exact v w)%Q.
Proof. unfold cross_product_exact. ring. Qed.

Lemma vdot_exact_sym v w : (vdot_exact w v == vdot_exact v w)%Q.
Proof. unfold vdot_exact. ring. Qed.

(** The first doctest of [classify_intersection] with the curves
    exchanged: [SECOND] instead of [FIRST]. *)
Lemma classify_intersection_swap_witness :
  classify_intersection evaluate_hodograph_exact get_curvature_horizontal
    cross_product_exact vdot_exact
    (swap_intersection doctest1_intersection)
    doctest1_edges2 doctest1_edges1 = Ok SECOND.
Proof.
  apply (classify_intersection_swap
    evaluate_hodograph_exact get_curvature_horizontal
    cross_product_exact vdot_exact
    doctest1_intersection doctest1_edges1 doctest1_edges2 FIRST
    cross_product_exact_antisym vdot_exact_sym);
    first [reflexivity | discriminate].
Defined.

(** The class [OPPOSED] is left out above for a reason: when one of two
    opposed curves is straight, tangency resolution answers in one
    order and raises in the other. *)
Example classify_intersection_swap_opposed :
  classify_midpoint narrow_arc_reversed straight_edge = Ok OPPOSED
  /\ classify_midpoint straight_edge narrow_arc_reversed
     = Raise (NotImplementedError _BAD_TANGENT).
Proof. split; vm_compute; reflexivity. Qed.
(** ** The exceptions of the assembler *)

Lemma py_gt_Raise x y e : py_gt x y = Raise e -> e = TypeError.
Proof.
  unfold py_gt. intros H.
  apply bind_Raise in H as [H%as_float_Raise|(a & _ & H)]; [done|].
  by apply bind_Raise in H as [H%as_float_Raise|(b & _ & H)].
Qed.

Lemma py_lt_Raise x y e : py_lt x y = Raise e -> e = TypeError.
Proof.
  unfold py_lt. intros H.
  apply bind_Raise in H as [H%as_float_Raise|(a & _ & H)]; [done|].
  by apply bind_Raise in H as [H%as_float_Raise|(b & _ & H)].
Qed.

Lemma get_next_first_scan_Raise idx0 s0 acc l e :
  get_next_first_scan idx0 s0 acc l = Raise e -> e = TypeError.
Proof.
  revert acc. induction l as [|y l IH]; intros acc; simpl; [done|].
  intros H. apply bind_Raise in H as [H|(beyond & _ & H)].
  { destruct (bool_decide _); [by apply py_gt_Raise in H|done]. }
  destruct beyond; [|by eapply IH].
  apply bind_Raise in H as [H%py_lt_Raise|(interior & _ & H)]; [done|].
  destruct (interior && _); [by eapply IH|].
  apply bind_Raise in H as [H|(closer & _ & H)]; [|by eapply IH].
  destruct acc; [by apply py_lt_Raise in H|done].
Qed.

Lemma get_next_second_scan_Raise idx0 t0 acc l e :
  get_next_second_scan idx0 t0 acc l = Raise e -> e = TypeError.
Proof.
  revert acc. induction l as [|y l IH]; intros acc; simpl; [done|].
  intros H. apply bind_Raise in H as [H|(beyond & _ & H)].
  { destruct (bool_decide _); [by apply py_gt_Raise in H|done]. }
  destruct beyond; [|by eapply IH].
  apply bind_Raise in H as [H%py_lt_Raise|(interior & _ & H)]; [done|].
  destruct (interior && _); [by eapply IH|].
  apply bind_Raise in H as [H|(closer & _ & H)]; [|by eapply IH].
  destruct acc; [by apply py_lt_Raise in H|done].
Qed.

Lemma get_next_Raise i l w e :
  get_next i l w = Raise e -> assembler_exn e.
Proof.
  unfold get_next. intros H.
  apply bind_Raise in H as [H|([f w1] & _ & H)]; [|done].
  destruct (interior_curve i) as [[]|]; try (by injection H as <-).
  - unfold get_next_first in H.
    apply bind_Raise in H as [H%get_next_first_scan_Raise|(a & _ & H)];
      [by subst|by destruct a].
  - unfold get_next_second in H.
    apply bind_Raise in H as [H%get_next_second_scan_Raise|(a & _ & H)];
      [by subst|by destruct a].
Qed.

Lemma to_front_Raise i l w e :
  to_front i l w = Raise e -> assembler_exn e.
Proof.
  unfold to_front. intros H.
  apply bind_Raise in H as [H|([[c1 i1] w1] & _ & H)].
  { destruct (float_eq (s i) 1); [|done].
    by apply bind_Raise in H as [->%as_int_Raise|(k & _ & H)]. }
  apply bind_Raise in H as [H|([[c2 i2] w2] & _ & H)]; [|done].
  destruct (float_eq (t i1) 1); [|done].
  by apply bind_Raise in H as [->%as_int_Raise|(k & _ & H)].
Qed.

(** The node [get_next] returns lies on the edge of the node it
    started from, so the pair converts. *)
Lemma get_next_ends_to_curve a l w b w' :
  get_next a l w = Ok (b, w') ->
  exists info, ends_to_curve a b = Ok info.
Proof.
  unfold get_next, ends_to_curve. intros H.
  apply bind_Ok in H as ([f1 w1] & H1 & H). injection H as <- _.
  destruct (interior_curve a) as [[]|]; try discriminate.
  - unfold get_next_first in H1.
    apply bind_Ok in H1 as (along & Hscan & H1).
    destruct along as [found|]; injection H1 as <- _.
    + rewrite bool_decide_eq_true_2; [by eexists|].
      by apply (get_next_first_scan_inv
                  (fun x => index_first x = index_first a)
                  _ _ _ _ _ Hscan).
    + simpl. rewrite bool_decide_eq_true_2 by done. by eexists.
  - unfold get_next_second in H1.
    apply bind_Ok in H1 as (along & Hscan & H1).
    destruct along as [found|]; injection H1 as <- _.
    + rewrite bool_decide_eq_true_2; [by eexists|].
      by apply (get_next_second_scan_inv
                  (fun x => index_second x = index_second a)
                  _ _ _ _ _ Hscan).
    + simpl. rewrite bool_decide_eq_true_2 by done. by eexists.
Qed.

Lemma ends_to_curves_converts edge_ends :
  Forall converts edge_ends -> exists infos, ends_to_curves edge_ends = Ok infos.
Proof.
  induction 1 as [|[a b] l [info Hinfo] _ [infos IH]]; simpl; [by eexists|].
  simpl in Hinfo. rewrite Hinfo, IH. simpl. by eexists.
Qed.

Section AssemblerErrors.

Variable specialize : Curve -> Q -> Q -> Curve.
Variable intersections : list Intersection.
Variables (surface1 surface2 : Surface) (edges1 edges2 : list (option Curve)).
Variable max_edges : Z.

Lemma walk_body_pair start next_node edge_ends w next' edge_ends' w' :
  walk_body intersections max_edges start next_node edge_ends w
  = Ok (Continue next' edge_ends' w') ->
  exists curr, edge_ends' = edge_ends ++ [(curr, next')]
               /\ converts (curr, next').
Proof.
  unfold walk_body. intros H.
  apply bind_Ok in H as ([curr w1] & H1 & H).
  destruct (is_ curr start); [discriminate|].
  apply bind_Ok in H as ([nxt w2] & H2 & H).
  destruct (_ >? _); [discriminate|]. injection H as <- <- <-.
  exists curr. split; [done|]. by eapply get_next_ends_to_curve.
Qed.

Lemma walk_body_Raise start next_node edge_ends w e :
  walk_body intersections max_edges start next_node edge_ends w = Raise e ->
  assembler_exn e.
Proof.
  unfold walk_body. intros H.
  apply bind_Raise in H as [H%to_front_Raise|([curr w1] & _ & H)]; [done|].
  destruct (is_ curr start); [discriminate|].
  apply bind_Raise in H as [H%get_next_Raise|([nxt w2] & _ & H)]; [done|].
  destruct (_ >? _); [|discriminate]. by injection H as <-.
Qed.

Lemma walk_loop_Raise fuel start next_node edge_ends w e :
  walk_loop intersections max_edges fuel start next_node edge_ends w
  = Some (Raise e) ->
  assembler_exn e.
Proof.
  revert next_node edge_ends w.
  induction fuel as [|fuel IH]; intros next_node edge_ends w; simpl.
  - by destruct (is_ next_node start).
  - destruct (is_ next_node start); [done|].
    destruct (walk_body _ _ _ _ _ _) as [[w1|n1 ee1 w1]|e'] eqn:Hb.
    + done.
    + apply IH.
    + intros [= <-]. by eapply walk_body_Raise.
Qed.

Lemma walk_loop_converts fuel start next_node edge_ends w edge_ends' w' :
  Forall converts edge_ends ->
  walk_loop intersections max_edges fuel start next_node edge_ends w
  = Some (Ok (edge_ends', w')) ->
  Forall converts edge_ends' /\ (length edge_ends <= length edge_ends')%nat.
Proof.
  revert next_node edge_ends w.
  induction fuel as [|fuel IH]; intros next_node edge_ends w Hall; simpl.
  - destruct (is_ next_node start); [|discriminate]. by intros [= <- <-].
  - destruct (is_ next_node start); [by intros [= <- <-]|].
    destruct (walk_body _ _ _ _ _ _) as [[w1|n1 ee1 w1]|e'] eqn:Hb;
      [by intros [= <- <-]| |discriminate].
    apply walk_body_pair in Hb as (curr & -> & Hc).
    intros H. apply IH in H as [H Hlen].
    + split; [done|]. rewrite length_app in Hlen. lia.
    + apply Forall_app. split; [done|]. by constructor.
Qed.

Lemma specialize_edges_Raise edge_info e :
  specialize_edges specialize edge_info edges1 edges2 = Raise e ->
  assembler_exn e.
Proof.
  induction edge_info as [|[[[f i] a] b] l IH]; simpl; [done|]. intros H.
  apply bind_Raise in H as [->%as_int_Raise|(k & _ & H)]; [done|].
  apply bind_Raise in H as [->%py_index_Raise|(c & _ & H)]; [done|].
  apply bind_Raise in H as [H|(curve & _ & H)];
    [destruct c; [done|by injection H as <-]|].
  apply bind_Raise in H as [->%as_float_Raise|(x & _ & H)]; [done|].
  apply bind_Raise in H as [->%as_float_Raise|(y & _ & H)]; [done|].
  apply bind_Raise in H as [H|(rest & _ & H)]; [auto|done].
Qed.

Lemma combine_one_Raise inner_fuel start w e :
  combine_one specialize inner_fuel intersections
    surface1 edges1 surface2 edges2 max_edges start w = Some (Raise e) ->
  assembler_exn e.
Proof.
  unfold combine_one.
  destruct (get_next start intersections w) as [[nxt w1]|e'] eqn:Hn.
  2:{ intros [= <-]. by eapply get_next_Raise. }
  destruct (walk_loop _ _ _ _ _ _ _) as [[[ee w2]|e']|] eqn:Hl;
    [| |discriminate].
  2:{ intros [= <-]. by eapply walk_loop_Raise. }
  apply walk_loop_converts in Hl as [Hl _].
  2:{ constructor; [|constructor]. by eapply get_next_ends_to_curve. }
  destruct (ends_to_curves_converts _ Hl) as [infos ->]. simpl.
  unfold make_intersection.
  destruct (existsb _ FIRST_SURFACE_INFO); [done|].
  destruct (existsb _ SECOND_SURFACE_INFO); [done|].
  destruct (specialize_edges _ _ _ _) eqn:He; [done|].
  intros [= <-]. by eapply specialize_edges_Raise.
Qed.

Lemma combine_loop_Raise inner_fuel fuel w shapes e :
  combine_loop specialize inner_fuel fuel intersections
    surface1 edges1 surface2 edges2 max_edges w shapes = Some (Raise e) ->
  assembler_exn e.
Proof.
  revert w shapes. induction fuel as [|fuel IH]; intros w shapes; simpl.
  - by destruct (list_pop (unused w)) as [[start rest]|].
  - destruct (list_pop (unused w)) as [[start rest]|]; [|done].
    destruct (combine_one _ _ _ _ _ _ _ _ _ _) as [[[sh w1]|e']|] eqn:H1;
      [apply IH| |done].
    intros [= <-]. by eapply combine_one_Raise.
Qed.

(** Every pass takes one intersection out of [unused] and adds one
    shape. *)
Lemma combine_loop_count inner_fuel fuel w shapes out :
  combine_loop specialize inner_fuel fuel intersections
    surface1 edges1 surface2 edges2 max_edges w shapes = Some (Ok out) ->
  (length out <= length shapes + length (unused w))%nat.
Proof.
  revert w shapes. induction fuel as [|fuel IH]; intros w shapes; simpl.
  - destruct (list_pop (unused w)) as [[start rest]|]; [discriminate|].
    intros [= <-]. lia.
  - destruct (list_pop (unused w)) as [[start rest]|] eqn:Hpop;
      [|intros [= <-]; lia].
    apply list_pop_Some in Hpop.
    destruct (combine_one _ _ _ _ _ _ _ _ _ _) as [[[sh w1]|e']|] eqn:H1;
      [|discriminate|discriminate].
    intros H%IH. apply combine_one_bound in H1 as [_ H1]. simpl in H1.
    rewrite Hpop. rewrite !length_app in *. simpl in *. lia.
Qed.

End AssemblerErrors.

(** X7.  The consistency checks of [ends_to_curve] never fire inside
    [basic_interior_combine]: each pair of the walk joins a node to the
    node [get_next] found on the same edge.  What the assembler can
    raise is the [ValueError] of [get_next], the [RuntimeError] of the
    edge bound, or an exception of a lookup. *)
Theorem basic_interior_combine_exceptions :
  forall specialize fuel intersections
         surface1 edges1 surface2 edges2 max_edges e,
    basic_interior_combine specialize fuel intersections
      surface1 edges1 surface2 edges2 max_edges = Some (Raise e) ->
    assembler_exn e
    /\ e <> ValueError _WRONG_CURVE
    /\ e <> ValueError
              "Segment start must be classified as 'FIRST' or 'SECOND'.".
Proof.
  intros specialize fuel intersections surface1 edges1 surface2 edges2
    max_edges e H.
  unfold basic_interior_combine in H.
  assert (assembler_exn e) as He by (eapply combine_loop_Raise; exact H).
  split; [done|]. split; intros ->; discriminate He.
Qed.

(** Two edges are not enough for the loop of the overlapping
    triangles. *)
Lemma basic_interior_combine_exceptions_witness :
  assembler_exn (RuntimeError "Unexpected number of edges" 3).
Proof.
  refine (proj1 (basic_interior_combine_exceptions specialize_exact 10
    [crossing_bottom; crossing_slope]
    big_triangle (linear_edges big_triangle)
    moved_triangle (linear_edges moved_triangle) 2 _ _)).
  vm_compute. reflexivity.
Defined.

(** X8.  [basic_interior_combine] returns at most one shape for each
    intersection classified [FIRST] or [SECOND]: every walk starts from
    an unused one and no walk puts one back. *)
Theorem basic_interior_combine_count :
  forall specialize fuel intersections
         surface1 edges1 surface2 edges2 max_edges shapes,
    basic_interior_combine specialize fuel intersections
      surface1 edges1 surface2 edges2 max_edges = Some (Ok shapes) ->
    (length shapes
     <= length (filter (fun i => in_ACCEPTABLE (interior_curve i) = true)
                  intersections))%nat.
Proof.
  intros specialize fuel intersections surface1 edges1 surface2 edges2
    max_edges shapes H.
  unfold basic_interior_combine in H.
  exact (combine_loop_count _ _ _ _ _ _ _ _ _ _ _ _ H).
Qed.

(** The overlapping triangles: two crossings, one polygon. *)
Lemma basic_interior_combine_count_witness :
  exists shapes,
    basic_interior_combine specialize_exact 10
      [crossing_bottom; crossing_slope]
      big_triangle (linear_edges big_triangle)
      moved_triangle (linear_edges moved_triangle) default_max_edges
    = Some (Ok shapes)
    /\ (length shapes <= 2)%nat.
Proof.
  eexists. split; [vm_compute; reflexivity|].
  refine (basic_interior_combine_count specialize_exact 10
    [crossing_bottom; crossing_slope]
    big_triangle (linear_edges big_triangle)
    moved_triangle (linear_edges moved_triangle) default_max_edges _ _).
  vm_compute. reflexivity.
Defined.
(** ** Shapes from valid intersections *)

Section ValidShapes.

Variable specialize : Curve -> Q -> Q -> Curve.
Variable intersections : list Intersection.
Variables (surface1 surface2 : Surface) (edges1 edges2 : list (option Curve)).
Variable max_edges : Z.
Hypothesis Hvalid : valid_intersections intersections.

Lemma walk_loop_grows fuel start next_node edge_ends w edge_ends' w' :
  walk_loop intersections max_edges fuel start next_node edge_ends w
  = Some (Ok (edge_ends', w')) ->
  (length edge_ends <= length edge_ends')%nat.
Proof.
  revert next_node edge_ends w.
  induction fuel as [|fuel IH]; intros next_node edge_ends w; simpl.
  - destruct (is_ next_node start); [|discriminate]. by intros [= <- <-].
  - destruct (is_ next_node start); [by intros [= <- <-]|].
    destruct (walk_body _ _ _ _ _ _) as [[w1|n1 ee1 w1]|e'] eqn:Hb;
      [by intros [= <- <-]| |discriminate].
    apply walk_body_Continue in Hb as (Hlen & _ & _).
    intros H%IH. lia.
Qed.

(** On valid intersections the first pass through the inner loop adds
    a second pair. *)
Lemma walk_loop_valid_two fuel start w next_node w1 edge_ends w' :
  start ∈ intersections ->
  walk_inv intersections w ->
  get_next start intersections w = Ok (next_node, w1) ->
  walk_loop intersections max_edges fuel start next_node
    [(start, next_node)] w1 = Some (Ok (edge_ends, w')) ->
  (2 <= length edge_ends)%nat.
Proof.
  intros Hstart Hw Hnext Hloop.
  pose proof (get_next_not_start _ Hvalid _ _ _ _ Hstart Hw Hnext) as Hne.
  destruct fuel as [|fuel]; simpl in Hloop; rewrite Hne in Hloop;
    [discriminate|].
  destruct (walk_body _ _ _ _ _ _) as [[w2|n1 ee1 w2]|] eqn:Hb;
    [| |discriminate].
  - exfalso. unfold walk_body in Hb.
    apply bind_Ok in Hb as ([curr w3] & H1 & Hb).
    rewrite (to_front_not_start _ Hvalid _ _ _ _ _ _ Hstart Hw Hnext H1)
      in Hb.
    apply bind_Ok in Hb as ([nxt w4] & _ & Hb).
    by destruct (_ >? _).
  - apply walk_body_Continue in Hb as (Hlen & _ & _).
    apply walk_loop_grows in Hloop. simpl in Hlen. lia.
Qed.

Lemma combine_one_valid_two inner_fuel start w shape w' :
  start ∈ intersections ->
  walk_inv intersections w ->
  combine_one specialize inner_fuel intersections
    surface1 edges1 surface2 edges2 max_edges start w
  = Some (Ok (shape, w')) ->
  2 <= num_edges shape.
Proof.
  intros Hstart Hw. unfold combine_one.
  destruct (get_next start intersections w) as [[nxt w1]|] eqn:Hn;
    [|discriminate].
  destruct (walk_loop _ _ _ _ _ _ _) as [[[ee w2]|]|] eqn:Hl;
    [|discriminate|discriminate].
  intros [= H]. apply bind_Ok in H as (info & Hinfo & H).
  apply bind_Ok in H as (sh & Hsh & H). injection H as <- <-.
  apply ends_to_curves_length in Hinfo.
  apply make_intersection_num_edges in Hsh.
  rewrite Hsh, Hinfo.
  pose proof (walk_loop_valid_two inner_fuel start w nxt w1 ee w2
                Hstart Hw Hn Hl). lia.
Qed.

Lemma combine_loop_valid_two inner_fuel fuel w shapes out :
  walk_inv intersections w ->
  Forall (fun sh => 2 <= num_edges sh) shapes ->
  combine_loop specialize inner_fuel fuel intersections
    surface1 edges1 surface2 edges2 max_edges w shapes = Some (Ok out) ->
  Forall (fun sh => 2 <= num_edges sh) out.
Proof.
  revert w shapes.
  induction fuel as [|fuel IH]; intros w shapes Hw Hall; simpl.
  - destruct (list_pop (unused w)) as [[start rest]|]; [discriminate|].
    by intros [= <-].
  - destruct (list_pop (unused w)) as [[start rest]|] eqn:Hpop;
      [|by intros [= <-]].
    apply list_pop_Some in Hpop.
    assert (start ∈ intersections) as Hstart.
    { apply (proj2 Hw). rewrite Hpop. apply elem_of_app. right. left. }
    assert (walk_inv intersections (mkWalk rest (next_oid w))) as Hw'.
    { split; [apply Hw|]. simpl. intros a Ha. apply (proj2 Hw).
      rewrite Hpop. apply elem_of_app. by left. }
    destruct (combine_one _ _ _ _ _ _ _ _ _ _) as [[[sh w1]|]|] eqn:H1;
      [|discriminate|discriminate].
    pose proof (combine_one_valid_two _ _ _ _ _ Hstart Hw' H1) as Htwo.
    apply (combine_one_valid _ _ _ _ _ _ _ Hvalid _ _ _ _ _ Hstart Hw')
      in H1 as [_ Hw1].
    apply IH; [done|]. apply Forall_app. split; [done|]. by constructor.
Qed.

End ValidShapes.

(** X9.  For intersections that respect the invariant of the data
    model, every shape [basic_interior_combine] returns has at least
    two edges: a walk does not close on the node it started from after
    a single edge. *)
Theorem basic_interior_combine_two_edges :
  forall specialize fuel intersections
         surface1 edges1 surface2 edges2 max_edges shapes,
    valid_intersections intersections ->
    basic_interior_combine specialize fuel intersections
      surface1 edges1 surface2 edges2 max_edges = Some (Ok shapes) ->
    Forall (fun sh => 2 <= num_edges sh) shapes.
Proof.
  intros specialize fuel intersections surface1 edges1 surface2 edges2
    max_edges shapes Hvalid H.
  eapply combine_loop_valid_two;
    [done|by apply walk_inv_initial|constructor|exact H].
Qed.

(** The overlapping triangles: one polygon of three edges. *)
Lemma basic_interior_combine_two_edges_witness :
  exists shapes,
    basic_interior_combine specialize_exact 10
      [crossing_bottom; crossing_slope]
      big_triangle (linear_edges big_triangle)
      moved_triangle (linear_edges moved_triangle) default_max_edges
    = Some (Ok shapes)
    /\ Forall (fun sh => 2 <= num_edges sh) shapes.
Proof.
  eexists. split; [vm_compute; reflexivity|].
  refine (basic_interior_combine_two_edges specialize_exact 10
    [crossing_bottom; crossing_slope]
    big_triangle (linear_edges big_triangle)
    moved_triangle (linear_edges moved_triangle) default_max_edges _
    overlapping_triangles_valid _).
  vm_compute. reflexivity.
Defined.
(** ** The next node along an edge *)

Lemma py_lt_Ok_false x y :
  py_lt x y = Ok false <-> exists a b, x = Some a /\ y = Some b /\ (b <= a)%Q.
Proof.
  destruct x as [a|], y as [b|]; simpl;
    try (split; [discriminate|by intros (? & ? & ? & ? & ?)]).
  split.
  - intros [= H%Qltb_ge]. eauto.
  - intros (? & ? & [= <-] & [= <-] & H). unfold py_lt. simpl. f_equal. by apply Qltb_ge.
Qed.

Lemma py_lt_Ok_true x y :
  py_lt x y = Ok true <-> exists a b, x = Some a /\ y = Some b /\ (a < b)%Q.
Proof.
  destruct x as [a|], y as [b|]; simpl;
    try (split; [discriminate|by intros (? & ? & ? & ? & ?)]).
  split.
  - intros [= H%Qltb_lt]. eauto.
  - intros (? & ? & [= <-] & [= <-] & H). unfold py_lt. simpl. f_equal. by apply Qltb_lt.
Qed.

Lemma nearest_first_skip node seen acc y :
  nearest_first node seen acc -> ~ first_candidate node y ->
  nearest_first node (seen ++ [y]) acc.
Proof.
  intros Hacc Hy. destruct acc as [best|]; simpl in *.
  - destruct Hacc as (Hin & Hc & Hmin). split; [|split; [done|]].
    + apply elem_of_app. by left.
    + intros x [Hx|Hx%list_elem_of_singleton]%elem_of_app; [auto|].
      by subst.
  - intros x [Hx|Hx%list_elem_of_singleton]%elem_of_app; [auto|].
    by subst.
Qed.

Lemma get_next_first_scan_nearest node seen acc l r :
  get_next_first_scan (index_first node) (s node) acc l = Ok r ->
  nearest_first node seen acc ->
  nearest_first node (seen ++ l) r.
Proof.
  revert seen acc. induction l as [|y l IH]; intros seen acc; simpl.
  - intros [= <-]. by rewrite app_nil_r.
  - intros H Hacc.
    replace (seen ++ y :: l) with ((seen ++ [y]) ++ l)
      by (by rewrite <- app_assoc).
    apply bind_Ok in H as (beyond & Hb & H).
    destruct beyond.
    2:{ apply (IH _ _ H). apply nearest_first_skip; [done|].
        intros (Hi & Hgt & _).
        rewrite bool_decide_eq_true_2 in Hb by done. congruence. }
    assert (index_first y = index_first node /\ py_gt (s y) (s node) = Ok true)
      as [Hi Hgt].
    { destruct (bool_decide (index_first y = index_first node)) eqn:E;
        [|discriminate]. by apply bool_decide_eq_true in E. }
    apply bind_Ok in H as (interior & Hint & H).
    destruct (interior && negb (in_ACCEPTABLE (interior_curve y))) eqn:Hskip.
    { apply (IH _ _ H). apply nearest_first_skip; [done|].
      apply andb_true_iff in Hskip as [-> Hna%negb_true_iff].
      intros (_ & _ & Hacc'). rewrite Hacc' in Hna; done. }
    assert (first_candidate node y) as Hy.
    { split; [done|]. split; [done|]. intros Hlt.
      rewrite Hlt in Hint. injection Hint as <-. simpl in Hskip.
      by apply negb_false_iff in Hskip. }
    assert (exists qy, s y = Some qy) as [qy Hqy].
    { destruct (s y); [by eexists|discriminate]. }
    apply bind_Ok in H as (closer & Hcl & H).
    apply (IH _ _ H). clear IH H.
    destruct acc as [best|]; simpl in *.
    + destruct Hacc as (Hin & Hc & Hmin). destruct closer.
      * split; [apply elem_of_app; right; left|]. split; [done|].
        apply py_lt_Ok_true in Hcl as (a & b & Ha & Hb' & Hlt).
        intros x [Hx|Hx%list_elem_of_singleton]%elem_of_app Hcx.
        -- apply (Hmin x Hx) in Hcx.
           apply py_lt_Ok_false in Hcx as (a' & b' & Hxa & Hb2 & Hle).
           apply py_lt_Ok_false. exists a', a. split; [done|].
           split; [done|]. rewrite Hb' in Hb2. injection Hb2 as <-.
           apply Qlt_le_weak. by eapply Qlt_le_trans.
        -- subst x. apply py_lt_Ok_false. exists a, a.
           split; [done|]. split; [done|]. apply Qle_refl.
      * split; [apply elem_of_app; by left|]. split; [done|].
        intros x [Hx|Hx%list_elem_of_singleton]%elem_of_app Hcx; [auto|].
        by subst x.
    + injection Hcl as <-.
      split; [apply elem_of_app; right; left|]. split; [done|].
      intros x [Hx|Hx%list_elem_of_singleton]%elem_of_app Hcx.
      * by destruct (Hacc x Hx).
      * subst x. apply py_lt_Ok_false. exists qy, qy.
        split; [done|]. split; [done|]. apply Qle_refl.
Qed.

(** X10.  [get_next_first] returns the nearest candidate: an
    intersection of the list on the same edge, further along and not
    an unclassified interior one, such that no other candidate has a
    smaller parameter.  Only when the list holds no candidate does it
    make a node for the end of the edge. *)
Theorem get_next_first_nearest :
  forall node intersections w found w',
    get_next_first node intersections w = Ok (found, w') ->
    w' = w /\ found ∈ intersections /\ first_candidate node found
    /\ (forall x, x ∈ intersections -> first_candidate node x ->
                  py_lt (s x) (s found) = Ok false)
    \/ (found, w') = new_Intersection (index_first node) (Some 1%Q)
                       None None (Some FIRST) w
       /\ forall x, x ∈ intersections -> ~ first_candidate node x.
Proof.
  intros node l w found w' H. unfold get_next_first in H.
  apply bind_Ok in H as (along & Hscan & H).
  apply (get_next_first_scan_nearest node []) in Hscan; [|by intros x ?%elem_of_nil].
  simpl in Hscan. destruct along as [best|]; injection H as <- <-.
  - left. by destruct Hscan as (? & ? & ?).
  - right. done.
Qed.

(** From the crossing on the bottom edge of the big triangle nothing
    lies further along: the end of the edge is next. *)
Lemma get_next_first_nearest_witness :
  Forall (fun x => ~ first_candidate crossing_bottom x)
    [crossing_bottom; crossing_slope].
Proof.
  apply Forall_forall.
  destruct (get_next_first_nearest crossing_bottom
              [crossing_bottom; crossing_slope] (mkWalk [] 2)
              (mkIntersection 2 (Some 0) (Some 1%Q) None None (Some FIRST))
              (mkWalk [] 3) eq_refl)
    as [[H _]|[_ H]]; [discriminate H|exact H].
Defined.
(** ** The two surfaces exchanged *)

Lemma in_ACCEPTABLE_mirror c :
  in_ACCEPTABLE (mirror_classification <$> c) = in_ACCEPTABLE c.
Proof. by destruct c as [[]|]. Qed.

Lemma swap_intersection_involutive i :
  swap_intersection (swap_intersection i) = i.
Proof. destruct i as [o i1 sv i2 tv [[]|]]; reflexivity. Qed.

(** The scan of [get_next_second] is the scan of [get_next_first] with
    the roles exchanged. *)
Lemma get_next_second_scan_swap idx0 x0 acc l :
  get_next_second_scan idx0 x0
    (swap_intersection <$> acc) (swap_intersection <$> l)
  = match get_next_first_scan idx0 x0 acc l with
    | Ok r => Ok (swap_intersection <$> r)
    | Raise e => Raise e
    end.
Proof.
  revert acc. induction l as [|y l IH]; intros acc; simpl; [done|].
  destruct (if bool_decide (index_first y = idx0) then py_gt (s y) x0
            else Ok false) as [[]|]; simpl; [|apply IH|done].
  destruct (py_lt (s y) (Some 1%Q)) as [interior|]; simpl; [|done].
  rewrite in_ACCEPTABLE_mirror.
  destruct (interior && _); [apply IH|].
  destruct acc as [best|]; simpl.
  - destruct (py_lt (s y) (s best)) as [[]|]; simpl; [| |done].
    + apply (IH (Some y)).
    + apply (IH (Some best)).
  - apply (IH (Some y)).
Qed.

Lemma get_next_first_scan_swap idx0 x0 acc l :
  get_next_first_scan idx0 x0
    (swap_intersection <$> acc) (swap_intersection <$> l)
  = match get_next_second_scan idx0 x0 acc l with
    | Ok r => Ok (swap_intersection <$> r)
    | Raise e => Raise e
    end.
Proof.
  revert acc. induction l as [|y l IH]; intros acc; simpl; [done|].
  destruct (if bool_decide (index_second y = idx0) then py_gt (t y) x0
            else Ok false) as [[]|]; simpl; [|apply IH|done].
  destruct (py_lt (t y) (Some 1%Q)) as [interior|]; simpl; [|done].
  rewrite in_ACCEPTABLE_mirror.
  destruct (interior && _); [apply IH|].
  destruct acc as [best|]; simpl.
  - destruct (py_lt (t y) (t best)) as [[]|]; simpl; [| |done].
    + apply (IH (Some y)).
    + apply (IH (Some best)).
  - apply (IH (Some y)).
Qed.

Lemma in_list_swap x l :
  in_list (swap_intersection x) (swap_intersection <$> l) = in_list x l.
Proof.
  unfold in_list. induction l as [|y l IH]; [done|].
  rewrite fmap_cons. cbn [existsb]. by rewrite IH.
Qed.

Lemma list_remove_swap x l :
  list_remove (swap_intersection x) (swap_intersection <$> l)
  = swap_intersection <$> list_remove x l.
Proof.
  induction l as [|y l IH]; [done|].
  rewrite fmap_cons. cbn [list_remove].
  change (is_ (swap_intersection x) (swap_intersection y)) with (is_ x y).
  destruct (is_ x y); [done|]. by rewrite IH.
Qed.

Lemma mark_used_swap x w :
  mark_used (swap_intersection x) (swap_walk w) = swap_walk (mark_used x w).
Proof.
  unfold mark_used.
  change (unused (swap_walk w)) with (swap_intersection <$> unused w).
  rewrite in_list_swap, list_remove_swap.
  by destruct (in_list x (unused w)).
Qed.

Lemma get_next_second_swap node l w :
  get_next_second (swap_intersection node)
    (swap_intersection <$> l) (swap_walk w)
  = match get_next_first node l w with
    | Ok (found, w') => Ok (swap_intersection found, swap_walk w')
    | Raise e => Raise e
    end.
Proof.
  unfold get_next_second, get_next_first.
  change (index_second (swap_intersection node)) with (index_first node).
  change (t (swap_intersection node)) with (s node).
  rewrite (get_next_second_scan_swap _ _ None l).
  by destruct (get_next_first_scan _ _ None l) as [[found|]|].
Qed.

Lemma get_next_first_swap node l w :
  get_next_first (swap_intersection node)
    (swap_intersection <$> l) (swap_walk w)
  = match get_next_second node l w with
    | Ok (found, w') => Ok (swap_intersection found, swap_walk w')
    | Raise e => Raise e
    end.
Proof.
  unfold get_next_second, get_next_first.
  change (index_first (swap_intersection node)) with (index_second node).
  change (s (swap_intersection node)) with (t node).
  rewrite (get_next_first_scan_swap _ _ None l).
  by destruct (get_next_second_scan _ _ None l) as [[found|]|].
Qed.

(** X11.  [get_next_first] and [get_next_second] are mirror images:
    exchanging the roles of the two surfaces in the node, in the list
    and in [unused] exchanges them in what [get_next] returns, the
    node, the list [unused] and the exception alike. *)
Theorem get_next_swap :
  forall node intersections w,
    get_next (swap_intersection node)
      (swap_intersection <$> intersections) (swap_walk w)
    = match get_next node intersections w with
      | Ok (found, w') => Ok (swap_intersection found, swap_walk w')
      | Raise e => Raise e
      end.
Proof.
  intros node l w. unfold get_next.
  change (interior_curve (swap_intersection node))
    with (mirror_classification <$> interior_curve node).
  destruct (interior_curve node) as [[]|]; try done;
    cbn [fmap option_fmap option_map mirror_classification].
  - rewrite get_next_second_swap.
    destruct (get_next_first node l w) as [[found w1]|]; [|done].
    cbn. by rewrite mark_used_swap.
  - rewrite get_next_first_swap.
    destruct (get_next_second node l w) as [[found w1]|]; [|done].
    cbn. by rewrite mark_used_swap.
Qed.
(** ** Polynomials of one sign, and the corners of a certified one *)

Lemma forallb_false_head {A} (f : A -> bool) a l :
  f a = false -> forallb f (a :: l) = false.
Proof. intros H. simpl. by rewrite H. Qed.

(** Coefficients that all have the sign [v] are decided by the first
    scan. *)
Lemma sign_scan_uniform poly degree v :
  Forall (fun c => _SIGN c = v) poly ->
  - Z.of_nat (length poly) <= degree < Z.of_nat (length poly) ->
  sign_scan degree ∅ [] [poly] = Ok (Scanned {[ v ]} []).
Proof.
  intros Hall Hdeg.
  assert (forall i c, py_index poly i = Ok c -> _SIGN c = v) as Hsign.
  { intros i c Hc%py_index_Ok.
    by apply (proj1 (Forall_forall _ _) Hall). }
  destruct (py_index_in_range poly 0) as [c0 H0]; [lia|].
  destruct (py_index_in_range poly degree) as [c1 H1]; [lia|].
  destruct (py_index_in_range poly (-1)) as [c2 H2]; [lia|].
  simpl. rewrite H0, H1, H2. simpl.
  rewrite (Hsign _ _ H0), (Hsign _ _ H1), (Hsign _ _ H2).
  rewrite union_empty_l_L, !union_idemp_L.
  assert (forall w : Z, w = v ->
            bool_decide (1 < size ({[v]} ∪ {[w]} : gset Z))%nat = false)
    as Hone.
  { intros w ->. apply bool_decide_eq_false.
    rewrite union_idemp_L, size_singleton. lia. }
  destruct poly as [|a l]; [simpl in Hdeg; lia|].
  pose proof (Forall_inv Hall) as Ha.
  destruct (forallb (fun c => Qeq_bool c 0) (a :: l)) eqn:Hz.
  { assert (v = 0) as ->.
    { rewrite <- Ha. apply _SIGN_zero. apply Qeq_bool_iff.
      simpl in Hz. by apply andb_true_iff in Hz as [? _]. }
    by rewrite Hone. }
  destruct (forallb (fun c => Qltb 0 c) (a :: l)) eqn:Hp.
  { assert (v = 1) as ->.
    { rewrite <- Ha. apply _SIGN_pos. apply Qltb_lt.
      simpl in Hp. by apply andb_true_iff in Hp as [? _]. }
    by rewrite Hone. }
  destruct (forallb (fun c => Qltb c 0) (a :: l)) eqn:Hn.
  { assert (v = -1) as ->.
    { rewrite <- Ha. apply _SIGN_neg. apply Qltb_lt.
      simpl in Hn. by apply andb_true_iff in Hn as [? _]. }
    by rewrite Hone. }
  exfalso.
  assert (forall (f : Q -> bool),
            (forall c, _SIGN c = v -> f c = true) ->
            forallb f (a :: l) = true) as Hf.
  { intros f Hfc. apply forallb_forall. intros c Hc.
    apply Hfc. apply (proj1 (Forall_forall _ _) Hall).
    by apply list_elem_of_In. }
  destruct (_SIGN_range a) as [E|[E|E]]; rewrite Ha in E; subst v.
  - rewrite Hf in Hn; [done|]. intros c Hc. by apply Qltb_lt, _SIGN_neg.
  - rewrite Hf in Hz; [done|]. intros c Hc. by apply Qeq_bool_iff, _SIGN_zero.
  - rewrite Hf in Hp; [done|]. intros c Hc. by apply Qltb_lt, _SIGN_pos.
Qed.

(** X12.  Coefficients that are all negative give [-1] and
    coefficients that are all zero give [0], as positive ones give
    [1]: when every coefficient has the same sign, [polynomial_sign]
    returns that sign without a round of subdivision. *)
Theorem polynomial_sign_uniform :
  forall specialize_surface poly_surface degree v,
    Forall (fun c => _SIGN c = v) poly_surface ->
    - Z.of_nat (length poly_surface) <= degree
      < Z.of_nat (length poly_surface) ->
    polynomial_sign specialize_surface poly_surface degree = Ok v
    /\ polynomial_sign_subdivisions specialize_surface poly_surface degree
       = 0%nat.
Proof.
  intros spec poly degree v Hall Hdeg.
  unfold polynomial_sign, polynomial_sign_subdivisions,
    _MAX_POLY_SUBDIVISIONS.
  rewrite (sign_rounds_decided _ _ _ _ _ {[v]})
    by (by apply sign_scan_uniform).
  simpl. unfold set_pop. by rewrite elements_singleton.
Qed.

(** Negative coefficients in degree 2, and the zero polynomial in
    degree 1. *)
Lemma polynomial_sign_uniform_witness :
  polynomial_sign specialize_surface_unused
    [-1; -2; -3; -4; -5; -6]%Q 2 = Ok (-1)
  /\ polynomial_sign specialize_surface_unused [0; 0; 0]%Q 1 = Ok 0.
Proof.
  split.
  - refine (proj1 (polynomial_sign_uniform specialize_surface_unused
              [-1; -2; -3; -4; -5; -6]%Q 2 (-1) _ _)).
    + repeat constructor.
    + simpl. lia.
  - refine (proj1 (polynomial_sign_uniform specialize_surface_unused
              [0; 0; 0]%Q 1 0 _ _)).
    + repeat constructor.
    + simpl. lia.
Defined.

Lemma size_le_one_eq (X : gset Z) a b :
  (size X <= 1)%nat -> a ∈ X -> b ∈ X -> a = b.
Proof.
  intros Hsize Ha Hb. destruct (decide (a = b)) as [|Hne]; [done|].
  pose proof (size_two_elements X a b Ha Hb Hne). lia.
Qed.

(** A scan that runs to its end has collected the signs of the corners
    of every polynomial, and no two different signs. *)
Lemma sign_scan_corner_signs
    degree signs undecided sub_polys signs' undecided' :
  sign_scan degree signs undecided sub_polys = Ok (Scanned signs' undecided') ->
  (size signs <= 1)%nat ->
  signs ⊆ signs' /\ (size signs' <= 1)%nat
  /\ forall poly c,
       poly ∈ sub_polys ->
       py_index poly 0 = Ok c \/ py_index poly degree = Ok c
       \/ py_index poly (-1) = Ok c ->
       _SIGN c ∈ signs'.
Proof.
  revert signs undecided.
  induction sub_polys as [|poly rest IH]; intros signs undecided; simpl.
  - intros [= <- <-] Hsize. split; [done|]. split; [done|].
    by intros poly c ?%elem_of_nil.
  - intros H Hsize.
    apply bind_Ok in H as (c0 & H0 & H).
    apply bind_Ok in H as (c1 & H1 & H).
    apply bind_Ok in H as (c2 & H2 & H).
    set (corners := signs ∪ {[_SIGN c0]} ∪ {[_SIGN c1]} ∪ {[_SIGN c2]}) in *.
    assert (exists signs1 undecided1,
               corners ⊆ signs1
               /\ sign_scan degree signs1 undecided1 rest
                  = Ok (Scanned signs' undecided')
               /\ (size signs1 <= 1)%nat)
      as (signs1 & undecided1 & Hsub & Hrest & Hsize1).
    { destruct (forallb (fun c => Qeq_bool c 0) poly);
        [|destruct (forallb (fun c => Qltb 0 c) poly);
          [|destruct (forallb (fun c => Qltb c 0) poly)]];
        (destruct (bool_decide _) eqn:Hd; [discriminate|]);
        apply bool_decide_eq_false in Hd;
        eexists _, _; (split; [|split; [exact H|lia]]);
        first [done | apply union_subseteq_l]. }
    destruct (IH _ _ Hrest Hsize1) as (Hsub' & Hsize' & Hc).
    assert (corners ⊆ signs') as Hcorners by (by etrans).
    split; [|split; [done|]].
    + etrans; [|exact Hcorners]. subst corners.
      intros x Hx. rewrite !elem_of_union. tauto.
    + intros p c [->|Hp]%elem_of_cons Hidx; [|by eapply Hc].
      apply Hcorners. subst corners.
      rewrite !elem_of_union, !elem_of_singleton.
      destruct Hidx as [E|[E|E]].
      * rewrite H0 in E. injection E as <-. tauto.
      * rewrite H1 in E. injection E as <-. tauto.
      * rewrite H2 in E. injection E as <-. tauto.
Qed.

Section PolynomialSound.

Variable specialize_surface :
  list Q -> Z -> Q * Q * Q -> Q * Q * Q -> Q * Q * Q -> result (list Q).

(** A result other than [0] is the one sign collected, which is the
    sign of every corner scanned. *)
Lemma sign_rounds_corner_signs remaining degree signs sub_polys v :
  (sign_rounds specialize_surface remaining degree signs sub_polys).1 = Ok v ->
  v <> 0 ->
  (size signs <= 1)%nat ->
  (forall x, x ∈ signs -> x = v)
  /\ ((0 < remaining)%nat ->
      forall poly c,
        poly ∈ sub_polys ->
        py_index poly 0 = Ok c \/ py_index poly degree = Ok c
        \/ py_index poly (-1) = Ok c ->
        _SIGN c = v).
Proof.
  revert signs sub_polys.
  induction remaining as [|n IH]; intros signs sub_polys; simpl.
  - destruct sub_polys; [|discriminate]. simpl.
    intros Hv%set_pop_elem _ Hsize. split; [|lia].
    intros x Hx. by apply (size_le_one_eq signs).
  - destruct (sign_scan _ _ _ _) as [[|signs' undecided]|] eqn:Hscan;
      simpl; [by intros [= <-]| |discriminate].
    intros H Hv Hsize.
    destruct (sign_scan_corner_signs _ _ _ _ _ _ Hscan Hsize)
      as (Hsub & Hsize' & Hc).
    assert (forall x, x ∈ signs' -> x = v) as Hall.
    { destruct (subdivide_all _ _ _) as [[|p l]|]; simpl in H;
        [| |discriminate].
      - apply set_pop_elem in H. intros x Hx.
        by apply (size_le_one_eq signs').
      - destruct (sign_rounds _ n degree signs' (p :: l)) as [r k] eqn:Hr.
        simpl in H. subst r.
        apply (IH signs' (p :: l)); [by rewrite Hr|done..]. }
    split; [by intros x Hx%Hsub%Hall|].
    intros _ poly c Hp Hidx. apply Hall. by eapply Hc.
Qed.

End PolynomialSound.

(** X13.  [polynomial_sign] certifies no sign that a corner
    contradicts: when it returns [1] the coefficients at the indices
    [0], [degree] and [-1], which are the values of the polynomial at
    the corners of the triangle, are positive, and when it returns
    [-1] they are negative. *)
Theorem polynomial_sign_corners :
  forall specialize_surface poly_surface degree c,
    py_index poly_surface 0 = Ok c \/ py_index poly_surface degree = Ok c
    \/ py_index poly_surface (-1) = Ok c ->
    (polynomial_sign specialize_surface poly_surface degree = Ok 1 ->
     (0 < c)%Q)
    /\ (polynomial_sign specialize_surface poly_surface degree = Ok (-1) ->
        (c < 0)%Q).
Proof.
  intros spec poly degree c Hc. unfold polynomial_sign. split; intros H.
  - destruct (sign_rounds_corner_signs spec _ _ _ _ _ H) as [_ Hcorner];
      [done|rewrite size_empty; lia|].
    apply _SIGN_pos. apply (Hcorner ltac:(unfold _MAX_POLY_SUBDIVISIONS; lia)
                              poly c); [left|done].
  - destruct (sign_rounds_corner_signs spec _ _ _ _ _ H) as [_ Hcorner];
      [done|rewrite size_empty; lia|].
    apply _SIGN_neg. apply (Hcorner ltac:(unfold _MAX_POLY_SUBDIVISIONS; lia)
                              poly c); [left|done].
Qed.

(** The positive polynomial with a negative coefficient: certified
    after one subdivision, and its first corner is where it must be. *)
Lemma polynomial_sign_corners_witness :
  polynomial_sign specialize_surface_unused positive_bowl 2 = Ok 1
  /\ (0 < 3)%Q.
Proof.
  assert (polynomial_sign specialize_surface_unused positive_bowl 2 = Ok 1)
    as H by (vm_compute; reflexivity).
  split; [exact H|].
  exact (proj1 (polynomial_sign_corners specialize_surface_unused
                  positive_bowl 2 3%Q (or_introl eq_refl)) H).
Defined.
(** ** Subdivision with the matrices of the module *)


Lemma matrix_product_Ok mat nodes out :
  matrix_product mat nodes = Ok out ->
  Forall (fun row => length row = length nodes) mat
  /\ out = map (fun row => dot_product row nodes) mat.
Proof.
  unfold matrix_product.
  destruct (forallb _ mat) eqn:H; [|discriminate]. intros [= <-].
  split; [|done]. apply Forall_forall. intros row Hrow.
  apply Nat.eqb_eq.
  apply (proj1 (forallb_forall _ _) H). by apply list_elem_of_In.
Qed.


Lemma matrix_product_square n mat nodes :
  square_of_size n mat = true ->
  (length nodes = n -> exists out, matrix_product mat nodes = Ok out)
  /\ (length nodes <> n -> n <> 0%nat ->
      matrix_product mat nodes = Raise (ValueError "shapes not aligned")).
Proof.
  unfold square_of_size, matrix_product.
  intros [Hn%Nat.eqb_eq Hrows]%andb_true_iff. split.
  - intros <-. rewrite Hrows. by eexists.
  - intros Hne Hn0. destruct mat as [|row mat]; [simpl in Hn; lia|].
    simpl in *. apply andb_true_iff in Hrows as [->%Nat.eqb_eq _].
    by rewrite (proj2 (Nat.eqb_neq _ _)) by done.
Qed.

Lemma subdivision_matrices_checked :
  forall degree, 1 <= degree <= 4 ->
    exists mat_a mat_b mat_c mat_d,
      subdivision_matrices degree = [mat_a; mat_b; mat_c; mat_d]
      /\ Forall (fun mat =>
                   convex_rows mat = true
                   /\ square_of_size
                        (Z.to_nat ((degree + 1) * (degree + 2) / 2)) mat
                      = true)
           [mat_a; mat_b; mat_c; mat_d].
Proof.
  intros degree Hd.
  assert (degree = 1 \/ degree = 2 \/ degree = 3 \/ degree = 4)
    as [->|[->|[->| ->]]] by lia;
    do 4 eexists; (split; [reflexivity|]);
    repeat constructor; vm_compute; reflexivity.
Qed.

Section SubdivisionFacts.

Variable specialize_surface :
  list Q -> Z -> Q * Q * Q -> Q * Q * Q -> Q * Q * Q -> result (list Q).

(** For a degree from 1 to 4, [_subdivide_nodes] multiplies with the
    four matrices of the degree. *)
Lemma subdivide_nodes_matrices nodes degree mat_a mat_b mat_c mat_d :
  subdivision_matrices degree = [mat_a; mat_b; mat_c; mat_d] ->
  _subdivide_nodes specialize_surface nodes degree
  = (nodes_a ← matrix_product mat_a nodes;
     nodes_b ← matrix_product mat_b nodes;
     nodes_c ← matrix_product mat_c nodes;
     nodes_d ← matrix_product mat_d nodes;
     Ok (nodes_a, nodes_b, nodes_c, nodes_d)).
Proof.
  unfold subdivision_matrices, _subdivide_nodes.
  repeat case_match; try discriminate; by intros [= <- <- <- <-].
Qed.

End SubdivisionFacts.

(** X14.  For a degree from 1 to 4, [_subdivide_nodes] returns four
    arrays of as many coefficients as it was given exactly when that
    number is [(degree + 1) (degree + 2) / 2], and raises the
    [ValueError] of the matrix product otherwise. *)
Theorem subdivide_nodes_shape :
  forall specialize_surface nodes degree,
    1 <= degree <= 4 ->
    let r := _subdivide_nodes specialize_surface nodes degree in
    (2 * Z.of_nat (length nodes) = (degree + 1) * (degree + 2) ->
     exists nodes_a nodes_b nodes_c nodes_d,
       r = Ok (nodes_a, nodes_b, nodes_c, nodes_d)
       /\ length nodes_a = length nodes /\ length nodes_b = length nodes
       /\ length nodes_c = length nodes /\ length nodes_d = length nodes)
    /\ (2 * Z.of_nat (length nodes) <> (degree + 1) * (degree + 2) ->
        r = Raise (ValueError "shapes not aligned")).
Proof.
  intros spec nodes degree Hd r. subst r.
  destruct (subdivision_matrices_checked degree Hd)
    as (ma & mb & mc & md & Hm & Hall).
  rewrite (subdivide_nodes_matrices spec nodes degree _ _ _ _ Hm).
  set (n := Z.to_nat ((degree + 1) * (degree + 2) / 2)) in *.
  assert (2 * Z.of_nat n = (degree + 1) * (degree + 2) /\ n <> 0%nat)
    as [Hn Hn0].
  { subst n.
    assert (degree = 1 \/ degree = 2 \/ degree = 3 \/ degree = 4)
      as [->|[->|[->| ->]]] by lia; by vm_compute. }
  apply Forall_cons in Hall as [[_ Ha] Hall].
  apply Forall_cons in Hall as [[_ Hb] Hall].
  apply Forall_cons in Hall as [[_ Hc] Hall].
  apply Forall_cons in Hall as [[_ Hd'] _].
  split.
  - intros Hlen. assert (length nodes = n) as Hlen' by lia.
    destruct (proj1 (matrix_product_square n ma nodes Ha) Hlen') as [a Ea].
    destruct (proj1 (matrix_product_square n mb nodes Hb) Hlen') as [b Eb].
    destruct (proj1 (matrix_product_square n mc nodes Hc) Hlen') as [c Ec].
    destruct (proj1 (matrix_product_square n md nodes Hd') Hlen') as [d Ed].
    rewrite Ea, Eb, Ec, Ed. exists a, b, c, d. split; [done|].
    apply matrix_product_Ok in Ea as [_ ->], Eb as [_ ->],
      Ec as [_ ->], Ed as [_ ->].
    rewrite !length_map.
    apply andb_true_iff in Ha as [Ha%Nat.eqb_eq _],
      Hb as [Hb%Nat.eqb_eq _], Hc as [Hc%Nat.eqb_eq _],
      Hd' as [Hd'%Nat.eqb_eq _].
    repeat split; congruence.
  - intros Hlen. assert (length nodes <> n) as Hlen' by lia.
    by rewrite (proj2 (matrix_product_square n ma nodes Ha) Hlen' Hn0).
Qed.

(** Six coefficients in degree 2; three are too few. *)
Lemma subdivide_nodes_shape_witness :
  (exists nodes_a nodes_b nodes_c nodes_d,
     _subdivide_nodes specialize_surface_unused positive_bowl 2
     = Ok (nodes_a, nodes_b, nodes_c, nodes_d)
     /\ length nodes_a = 6%nat /\ length nodes_b = 6%nat
     /\ length nodes_c = 6%nat /\ length nodes_d = 6%nat)
  /\ _subdivide_nodes specialize_surface_unused changing_sign 2
     = Raise (ValueError "shapes not aligned").
Proof.
  split.
  - refine (proj1 (subdivide_nodes_shape specialize_surface_unused
              positive_bowl 2 _) _); [lia|reflexivity].
  - refine (proj2 (subdivide_nodes_shape specialize_surface_unused
              changing_sign 2 _) _); [lia|discriminate].
Defined.


(** ** The edges of a surface *)

Lemma triangular_double k : 2 * triangular k = k * (k - 1).
Proof.
  unfold triangular. destruct (Z.Even_or_Odd k) as [[m ->]|[m ->]].
  - replace (2 * m * (2 * m - 1)) with (m * (2 * m - 1) * 2) by ring.
    rewrite Z.div_mul by lia. ring.
  - replace ((2 * m + 1) * (2 * m + 1 - 1)) with ((2 * m + 1) * m * 2)
      by ring.
    rewrite Z.div_mul by lia. ring.
Qed.

Lemma triangular_succ k : triangular (k + 1) = triangular k + k.
Proof.
  pose proof (triangular_double k). pose proof (triangular_double (k + 1)).
  nia.
Qed.

Lemma py_index_lookup {A} (l : list A) i a :
  py_index l i = Ok a <->
  - Z.of_nat (length l) <= i < Z.of_nat (length l)
  /\ l !! Z.to_nat (if i <? 0 then Z.of_nat (length l) + i else i) = Some a.
Proof.
  unfold py_index.
  set (j := if i <? 0 then Z.of_nat (length l) + i else i).
  destruct ((0 <=? j) && (j <? Z.of_nat (length l))) eqn:Hr.
  - apply andb_true_iff in Hr as [H0%Z.leb_le H1%Z.ltb_lt].
    assert (- Z.of_nat (length l) <= i < Z.of_nat (length l)) as Hi
      by (subst j; destruct (Z.ltb_spec i 0); lia).
    destruct (l !! Z.to_nat j) eqn:Hl.
    + split; [by intros [= <-]|by intros [_ [= <-]]].
    + split; [discriminate|by intros [_ ?]].
  - split; [discriminate|]. intros [Hi Hl]. exfalso.
    apply andb_false_iff in Hr as [H%Z.leb_gt|H%Z.ltb_ge];
      subst j; destruct (Z.ltb_spec i 0); lia.
Qed.

Section EdgeNodes.

Context {A : Type}.
Variable nodes : list A.
Variable degree : Z.

Local Abbreviation len := (Z.of_nat (length nodes)).

Local Abbreviation edges_filled := (edges_filled nodes degree).

Lemma edge_indices_in_range k :
  0 <= k <= degree -> (degree + 1) * (degree + 2) <= 2 * len ->
  0 <= edge2_index degree k < len /\ - len <= edge3_index k < 0.
Proof.
  intros Hk Hlen. unfold edge2_index, edge3_index.
  pose proof (triangular_double k). nia.
Qed.

Lemma edges_filled_snoc i nodes1 nodes2 nodes3 row1 row2 row3 :
  0 <= i ->
  edges_filled i nodes1 nodes2 nodes3 ->
  nodes !! Z.to_nat i = Some row1 ->
  nodes !! Z.to_nat (edge2_index degree i) = Some row2 ->
  nodes !! Z.to_nat (len + edge3_index i) = Some row3 ->
  edges_filled (i + 1) (nodes1 ++ [row1]) (nodes2 ++ [row2])
    (nodes3 ++ [row3]).
Proof.
  intros Hi (H1 & H2 & H3 & Hrows) Hr1 Hr2 Hr3.
  unfold edges_filled. rewrite !length_app. simpl.
  split; [lia|]. split; [lia|]. split; [lia|].
  intros k Hk. destruct (decide (Z.of_nat k < i)) as [Hlt|Hge].
  - rewrite !lookup_app_l by lia. by apply Hrows.
  - assert (Z.of_nat k = i) as Hki by lia.
    rewrite !list_lookup_middle by lia.
    rewrite Hki. rewrite <- Hr1, <- Hr2, <- Hr3.
    by replace (Z.to_nat i) with k by lia.
Qed.

(** With enough rows the loop runs to its end and fills the arrays. *)
Lemma compute_edge_nodes_loop_filled count i nodes1 nodes2 nodes3 :
  0 <= i -> i + Z.of_nat count = degree + 1 ->
  (degree + 1) * (degree + 2) <= 2 * len ->
  edges_filled i nodes1 nodes2 nodes3 ->
  exists nodes1' nodes2' nodes3',
    compute_edge_nodes_loop nodes degree count i
      (edge2_index degree i) (edge3_index i) nodes1 nodes2 nodes3
    = Ok (nodes1', nodes2', nodes3')
    /\ edges_filled (degree + 1) nodes1' nodes2' nodes3'.
Proof.
  revert i nodes1 nodes2 nodes3.
  induction count as [|count IH]; intros i nodes1 nodes2 nodes3 Hi Hc Hlen Hf.
  - simpl. exists nodes1, nodes2, nodes3. split; [done|].
    by replace (degree + 1) with i by lia.
  - simpl.
    destruct (edge_indices_in_range i) as [He2 He3]; [lia|done|].
    destruct (py_index_in_range nodes i) as [row1 H1]; [nia|].
    destruct (py_index_in_range nodes (edge2_index degree i))
      as [row2 H2]; [lia|].
    destruct (py_index_in_range nodes (edge3_index i)) as [row3 H3]; [lia|].
    rewrite H1, H2, H3. simpl.
    apply py_index_lookup in H1 as [_ H1], H2 as [_ H2], H3 as [_ H3].
    rewrite (proj2 (Z.ltb_ge i 0)) in H1 by lia.
    rewrite (proj2 (Z.ltb_ge (edge2_index degree i) 0)) in H2 by lia.
    rewrite (proj2 (Z.ltb_lt (edge3_index i) 0)) in H3 by lia.
    replace (edge2_index degree i + (degree - i))
      with (edge2_index degree (i + 1))
      by (unfold edge2_index; rewrite triangular_succ; lia).
    replace (edge3_index i - (i + 2)) with (edge3_index (i + 1))
      by (unfold edge3_index; rewrite triangular_succ; lia).
    apply IH; [lia|lia|done|]. by apply edges_filled_snoc.
Qed.

Lemma compute_edge_nodes_loop_Raise
    count i curr2 curr3 nodes1 nodes2 nodes3 e :
  compute_edge_nodes_loop nodes degree count i curr2 curr3
    nodes1 nodes2 nodes3 = Raise e ->
  e = IndexError.
Proof.
  revert i curr2 curr3 nodes1 nodes2 nodes3.
  induction count as [|count IH]; intros i curr2 curr3 nodes1 nodes2 nodes3;
    simpl; [done|].
  intros H.
  apply bind_Raise in H as [H%py_index_Raise|(row1 & _ & H)]; [done|].
  apply bind_Raise in H as [H%py_index_Raise|(row2 & _ & H)]; [done|].
  apply bind_Raise in H as [H%py_index_Raise|(row3 & _ & H)]; [done|].
  by eapply IH.
Qed.

(** A loop that runs to its end has read the last row of the second
    edge, so the array has all the rows of a surface of the degree. *)
Lemma compute_edge_nodes_loop_Ok count i nodes1 nodes2 nodes3 r :
  0 <= i -> i + Z.of_nat count = degree + 1 -> (0 < count)%nat ->
  compute_edge_nodes_loop nodes degree count i
    (edge2_index degree i) (edge3_index i) nodes1 nodes2 nodes3 = Ok r ->
  (degree + 1) * (degree + 2) <= 2 * len.
Proof.
  revert i nodes1 nodes2 nodes3.
  induction count as [|count IH]; intros i nodes1 nodes2 nodes3 Hi Hc Hpos;
    [lia|].
  simpl. intros H.
  apply bind_Ok in H as (row1 & H1 & H).
  apply bind_Ok in H as (row2 & H2 & H).
  apply bind_Ok in H as (row3 & H3 & H).
  destruct count as [|count].
  - apply py_index_lookup in H2 as [H2 _].
    assert (i = degree) as -> by lia.
    unfold edge2_index in H2. pose proof (triangular_double degree). nia.
  - replace (edge2_index degree i + (degree - i))
      with (edge2_index degree (i + 1)) in H
      by (unfold edge2_index; rewrite triangular_succ; lia).
    replace (edge3_index i - (i + 2)) with (edge3_index (i + 1)) in H
      by (unfold edge3_index; rewrite triangular_succ; lia).
    eapply (IH (i + 1)); [lia|lia|lia|exact H].
Qed.

End EdgeNodes.
Lemma edges_filled_empty {A} (nodes : list A) degree :
  edges_filled nodes degree 0 [] [] [].
Proof. repeat split; try done; lia. Qed.

Lemma head_lookup_0 {A} (l : list A) : head l = l !! 0%nat.
Proof. by destruct l. Qed.

(** X16.  On the [(degree + 1) (degree + 2) / 2] rows of a surface of
    the degree, [_compute_edge_nodes] returns three arrays of
    [degree + 1] rows each that go once around the boundary: the first
    edge is the first [degree + 1] rows, each edge ends on the row the
    next one starts from, and the third ends on the first row. *)
Theorem compute_edge_nodes_closed :
  forall (A : Type) (nodes : list A) (degree : Z),
    0 <= degree ->
    2 * Z.of_nat (length nodes) = (degree + 1) * (degree + 2) ->
    exists nodes1 nodes2 nodes3,
      _compute_edge_nodes nodes degree = Ok (nodes1, nodes2, nodes3)
      /\ length nodes1 = Z.to_nat (degree + 1)
      /\ length nodes2 = Z.to_nat (degree + 1)
      /\ length nodes3 = Z.to_nat (degree + 1)
      /\ nodes1 = take (Z.to_nat (degree + 1)) nodes
      /\ last nodes1 = head nodes2
      /\ last nodes2 = head nodes3
      /\ last nodes3 = head nodes1
      /\ head nodes1 = head nodes /\ head nodes3 = last nodes.
Proof.
  intros A nodes degree Hd Hlen. unfold _compute_edge_nodes.
  rewrite (proj2 (Z.ltb_ge _ _)) by lia.
  destruct (compute_edge_nodes_loop_filled nodes degree
              (Z.to_nat (degree + 1)) 0 [] [] [])
    as (n1 & n2 & n3 & Hloop & L1 & L2 & L3 & Hrows);
    [lia|lia|lia|apply edges_filled_empty|].
  change (edge2_index degree 0) with ((0 + 1) * degree - 0) in Hloop.
  rewrite Z.mul_1_l, Z.sub_0_r in Hloop.
  exists n1, n2, n3. split; [exact Hloop|].
  split; [lia|]. split; [lia|]. split; [lia|].
  assert (forall k : Z, 0 <= k <= degree ->
            n1 !! Z.to_nat k = nodes !! Z.to_nat k
            /\ n2 !! Z.to_nat k = nodes !! Z.to_nat (edge2_index degree k)
            /\ n3 !! Z.to_nat k
               = nodes !! Z.to_nat (Z.of_nat (length nodes) + edge3_index k))
    as Hrow.
  { intros k Hk. destruct (Hrows (Z.to_nat k)) as (? & ? & ?); [lia|].
    by rewrite Z2Nat.id in * by lia. }
  destruct (Hrow 0) as (F1 & F2 & F3); [lia|].
  destruct (Hrow degree) as (E1 & E2 & E3); [lia|].
  pose proof (triangular_double degree) as Htri.
  assert (edge2_index degree 0 = degree) as E20
    by (unfold edge2_index; change (triangular 0) with 0; lia).
  assert (edge3_index 0 = -1) as E30 by done.
  assert (edge2_index degree degree = Z.of_nat (length nodes) - 1) as E2d
    by (unfold edge2_index; nia).
  assert (edge3_index degree = - Z.of_nat (length nodes)) as E3d
    by (unfold edge3_index; nia).
  rewrite E20 in F2. rewrite E30 in F3. rewrite E2d in E2. rewrite E3d in E3.
  rewrite Z.add_opp_diag_r in E3.
  rewrite !last_lookup, !head_lookup_0.
  replace (Init.Nat.pred (length n1)) with (Z.to_nat degree) by lia.
  replace (Init.Nat.pred (length n2)) with (Z.to_nat degree) by lia.
  replace (Init.Nat.pred (length n3)) with (Z.to_nat degree) by lia.
  replace (Init.Nat.pred (length nodes))
    with (Z.to_nat (Z.of_nat (length nodes) - 1)) by lia.
  replace (Z.of_nat (length nodes) + -1)
    with (Z.of_nat (length nodes) - 1) in F3 by lia.
  change (Z.to_nat 0) with 0%nat in *.
  split; [|repeat split; congruence].
  apply list_eq. intros k.
  destruct (decide (Z.of_nat k <= degree)) as [Hk|Hk].
  - rewrite lookup_take_lt by lia. by apply Hrows; lia.
  - rewrite lookup_take_ge by lia. apply lookup_ge_None. lia.
Qed.

(** The six control points of a quadratic surface. *)
Lemma compute_edge_nodes_closed_witness :
  exists nodes1 nodes2 nodes3,
    _compute_edge_nodes quadratic_surface_nodes 2
    = Ok (nodes1, nodes2, nodes3)
    /\ last nodes1 = head nodes2 /\ last nodes2 = head nodes3
    /\ last nodes3 = head nodes1.
Proof.
  destruct (compute_edge_nodes_closed vec quadratic_surface_nodes 2)
    as (n1 & n2 & n3 & H & _ & _ & _ & _ & H1 & H2 & H3 & _);
    [lia|reflexivity|].
  by exists n1, n2, n3.
Defined.

(** X17.  For a degree that is not negative, [_compute_edge_nodes]
    raises [IndexError] exactly when the array has fewer than
    [(degree + 1) (degree + 2) / 2] rows, and returns otherwise. *)
Theorem compute_edge_nodes_too_few :
  forall (A : Type) (nodes : list A) (degree : Z),
    0 <= degree ->
    (2 * Z.of_nat (length nodes) < (degree + 1) * (degree + 2) <->
     _compute_edge_nodes nodes degree = Raise IndexError)
    /\ ((degree + 1) * (degree + 2) <= 2 * Z.of_nat (length nodes) <->
        exists r, _compute_edge_nodes nodes degree = Ok r).
Proof.
  intros A nodes degree Hd. unfold _compute_edge_nodes.
  rewrite (proj2 (Z.ltb_ge _ _)) by lia.
  assert (edge2_index degree 0 = degree) as E20
    by (unfold edge2_index; change (triangular 0) with 0; lia).
  assert (compute_edge_nodes_loop nodes degree (Z.to_nat (degree + 1)) 0
            degree (-1) [] [] []
          = compute_edge_nodes_loop nodes degree (Z.to_nat (degree + 1)) 0
              (edge2_index degree 0) (edge3_index 0) [] [] []) as ->
    by (by rewrite E20).
  destruct (compute_edge_nodes_loop nodes degree (Z.to_nat (degree + 1)) 0
              (edge2_index degree 0) (edge3_index 0) [] [] [])
    as [r|e] eqn:Hloop.
  - apply compute_edge_nodes_loop_Ok in Hloop; [|lia..].
    split; split; try done; try lia. by eexists.
  - pose proof (compute_edge_nodes_loop_Raise _ _ _ _ _ _ _ _ _ _ Hloop)
      as ->.
    assert (~ (degree + 1) * (degree + 2) <= 2 * Z.of_nat (length nodes))
      as Hshort.
    { intros Hlen.
      destruct (compute_edge_nodes_loop_filled nodes degree
                  (Z.to_nat (degree + 1)) 0 [] [] [])
        as (n1 & n2 & n3 & Hok & _);
        [lia|lia|done|apply edges_filled_empty|congruence]. }
    split; split; try done; try lia. by intros [r Hr].
Qed.

(** Five rows are too few for a quadratic surface. *)
Lemma compute_edge_nodes_too_few_witness :
  _compute_edge_nodes (take 5 quadratic_surface_nodes) 2 = Raise IndexError.
Proof.
  apply (proj1 (proj1 (compute_edge_nodes_too_few vec
            (take 5 quadratic_surface_nodes) 2 ltac:(lia)))).
  simpl. lia.
Defined.
(** ** Duplicate intersections *)

Section DuplicateFacts.

Variable allclose : list Q -> list Q -> Q -> Q -> bool.

Local Abbreviation same a b := (same_intersection allclose a b default_wiggle).



(** The indices [find_matches] returns are those of the uniques the
    duplicate is the same as. *)
Lemma find_matches_Ok dupe index uniques matches :
  find_matches allclose dupe index uniques = Ok matches ->
  forall j uj,
    uniques !! j = Some uj ->
    exists b, same dupe uj = Ok b
              /\ (b = true <-> (index + j)%nat ∈ matches).
Proof.
  revert index matches.
  induction uniques as [|uniq rest IH]; intros index matches; simpl; [done|].
  intros H. apply bind_Ok in H as (b0 & Hsame & H).
  apply bind_Ok in H as (ms & Hms & H). injection H as <-.
  assert (forall k, k ∈ ms -> (S index <= k)%nat) as Hlow.
  { clear -Hms. revert index ms Hms.
    induction rest as [|u rest IH]; intros index ms; simpl.
    - by intros [= <-] k ?%elem_of_nil.
    - intros H. apply bind_Ok in H as (b & _ & H).
      apply bind_Ok in H as (ms' & Hms' & H). injection H as <-.
      intros k Hk. specialize (IH _ _ Hms').
      destruct b; [apply elem_of_cons in Hk as [->|Hk]|];
        [lia|apply IH in Hk; lia|apply IH in Hk; lia]. }
  intros [|j] uj; simpl.
  - intros [= <-]. exists b0. split; [done|]. rewrite Nat.add_0_r.
    destruct b0.
    + split; [left|done].
    + split; [done|]. intros Hin%Hlow. lia.
  - intros Hj. destruct (IH _ _ Hms j uj Hj) as (b & Hb & Hiff).
    exists b. split; [done|]. rewrite Hiff.
    replace (index + S j)%nat with (S index + j)%nat by lia.
    destruct b0; [|done]. rewrite elem_of_cons. split; [auto|].
    intros [E|E]; [lia|done].
Qed.

Lemma find_matches_range dupe index uniques matches :
  find_matches allclose dupe index uniques = Ok matches ->
  forall k, k ∈ matches -> (index <= k < index + length uniques)%nat.
Proof.
  revert index matches.
  induction uniques as [|uniq rest IH]; intros index matches; simpl.
  - by intros [= <-] k ?%elem_of_nil.
  - intros H. apply bind_Ok in H as (b & _ & H).
    apply bind_Ok in H as (ms & Hms & H). injection H as <-.
    intros k Hk. specialize (IH _ _ Hms).
    destruct b; [apply elem_of_cons in Hk as [->|Hk]|];
      [lia|apply IH in Hk; lia|apply IH in Hk; lia].
Qed.

(** A duplicate with the single match [matched] is the same as the
    unique at that index and as no other. *)
Lemma find_matches_single dupe uniques matched :
  find_matches allclose dupe 0 uniques = Ok [matched] ->
  (exists uniq, uniques !! matched = Some uniq)
  /\ forall j uj,
       uniques !! j = Some uj ->
       same dupe uj = Ok (bool_decide (j = matched)).
Proof.
  intros H. split.
  - apply lookup_lt_is_Some_2.
    apply (find_matches_range _ _ _ _ H matched). left.
  - intros j uj Hj.
    destruct (find_matches_Ok _ _ _ _ H j uj Hj) as (b & Hb & Hiff).
    rewrite Hb. f_equal. simpl in Hiff.
    rewrite list_elem_of_singleton in Hiff.
    destruct b.
    + symmetry. apply bool_decide_eq_true. by apply Hiff.
    + symmetry. apply bool_decide_eq_false. intros E. by apply Hiff in E.
Qed.


Lemma duplicates_of_snoc uniq done dupe :
  duplicates_of allclose uniq (done ++ [dupe])
  = duplicates_of allclose uniq done
    + match same dupe uniq with Ok true => 1 | _ => 0 end.
Proof.
  unfold duplicates_of. rewrite List.filter_app, length_app. simpl.
  destruct (same dupe uniq) as [[]|]; simpl; lia.
Qed.

Lemma counter_add_new matched counter :
  matched ∉ (counter.*1) ->
  counter_add matched counter = counter ++ [(matched, 1)].
Proof.
  induction counter as [|[k c] rest IH]; simpl; [done|].
  rewrite not_elem_of_cons. intros [Hne Hnot].
  rewrite (proj2 (Nat.eqb_neq k matched)) by done. by rewrite IH.
Qed.

Lemma counter_add_old matched counter :
  matched ∈ (counter.*1) ->
  exists before count after,
    counter = before ++ (matched, count) :: after
    /\ counter_add matched counter
       = before ++ (matched, count + 1) :: after.
Proof.
  induction counter as [|[k c] rest IH]; simpl.
  - by intros ?%elem_of_nil.
  - destruct (Nat.eqb_spec k matched) as [->|Hne].
    + intros _. by exists [], c, rest.
    + intros [E|Hin]%elem_of_cons; [done|].
      destruct (IH Hin) as (before & count & after & -> & ->).
      by exists ((k, c) :: before), count, after.
Qed.

Lemma counted_step uniques done counter dupe matched :
  counted allclose uniques done counter ->
  find_matches allclose dupe 0 uniques = Ok [matched] ->
  counted allclose uniques (done ++ [dupe]) (counter_add matched counter).
Proof.
  intros (Hnd & Hall & Hrest) [[um Hum] Hsame]%find_matches_single.
  assert (forall index uniq,
            uniques !! index = Some uniq ->
            duplicates_of allclose uniq (done ++ [dupe])
            = duplicates_of allclose uniq done
              + (if bool_decide (index = matched) then 1 else 0))
    as Hsnoc.
  { intros index uniq Hu. rewrite duplicates_of_snoc.
    rewrite (Hsame index uniq Hu). by destruct (bool_decide _). }
  assert (forall entries : list (nat * Z),
            Forall (counted_entry allclose uniques done) entries ->
            matched ∉ (entries.*1) ->
            Forall (counted_entry allclose uniques (done ++ [dupe])) entries)
    as Hkeep.
  { intros entries He Hnot. apply Forall_forall. intros entry Hin.
    destruct (proj1 (Forall_forall _ _) He entry Hin)
      as (uniq & Hu & Hc & H1).
    exists uniq. rewrite (Hsnoc _ _ Hu), bool_decide_eq_false_2.
    - split; [done|]. split; [lia|done].
    - intros E. apply Hnot. rewrite <- E.
      by apply list_elem_of_fmap_2. }
  destruct (decide (matched ∈ (counter.*1))) as [Hin|Hnot].
  - destruct (counter_add_old _ _ Hin)
      as (before & count & after & -> & ->).
    unfold counted in *. rewrite fmap_app, fmap_cons in *. simpl in *.
    split; [done|]. split.
    + apply Forall_app in Hall as [Hb Ha].
      apply Forall_cons in Ha as [(uniq & Hu & Hc & H1) Ha]. simpl in *.
      apply NoDup_app in Hnd as (_ & Hba & Hnd').
      apply NoDup_cons in Hnd' as [Hma _].
      apply Forall_app. split; [|constructor].
      * apply Hkeep; [done|]. intros Hm. apply (Hba _ Hm). left.
      * exists uniq. simpl. rewrite (Hsnoc _ _ Hu), bool_decide_eq_true_2
          by done. split; [done|]. split; lia.
      * by apply Hkeep.
    + intros index uniq Hu Hnotin.
      rewrite (Hsnoc _ _ Hu), bool_decide_eq_false_2.
      * rewrite (Hrest _ _ Hu Hnotin). lia.
      * intros ->. apply Hnotin. apply elem_of_app. right. left.
  - rewrite (counter_add_new _ _ Hnot). unfold counted.
    rewrite fmap_app. simpl. split; [|split].
    + apply NoDup_app. split; [done|]. split; [|apply NoDup_singleton].
      intros k Hk ->%list_elem_of_singleton. done.
    + apply Forall_app. split; [by apply Hkeep|].
      constructor; [|constructor]. exists um. simpl.
      rewrite (Hsnoc _ _ Hum), bool_decide_eq_true_2 by done.
      rewrite (Hrest _ _ Hum Hnot). done.
    + intros index uniq Hu Hnotin.
      rewrite not_elem_of_app, list_elem_of_singleton in Hnotin.
      destruct Hnotin as [Hni Hne].
      rewrite (Hsnoc _ _ Hu), bool_decide_eq_false_2 by done.
      rewrite (Hrest _ _ Hu Hni). lia.
Qed.

Lemma count_duplicates_counted uniques done duplicates counter counter' :
  counted allclose uniques done counter ->
  count_duplicates allclose duplicates uniques counter = Ok counter' ->
  counted allclose uniques (done ++ duplicates) counter'.
Proof.
  revert done counter.
  induction duplicates as [|d rest IH]; intros done counter Hinv; simpl.
  - intros [= <-]. by rewrite app_nil_r.
  - intros H. apply bind_Ok in H as (ms & Hms & H).
    destruct ms as [|m [|m' ms]]; try discriminate.
    replace (done ++ d :: rest) with ((done ++ [d]) ++ rest)
      by (by rewrite <- app_assoc).
    eapply IH; [|exact H]. by apply counted_step.
Qed.

Lemma check_counts_Ok uniques counter :
  check_counts uniques counter = Ok () ->
  Forall (fun entry : nat * Z =>
            forall uniq,
              uniques !! entry.1 = Some uniq ->
              (entry.2 = 1 /\ count_zero uniq = 1)
              \/ (entry.2 = 3 /\ float_eq (s uniq) 0 = true
                               /\ float_eq (t uniq) 0 = true)) counter.
Proof.
  induction counter as [|[index count] rest IH]; simpl; [constructor|].
  intros H. apply bind_Ok in H as (uniq & Hu & H).
  apply bind_Ok in H as ([] & Hc & H).
  constructor; [|by apply IH]. simpl. intros uniq' Hu'.
  apply py_index_lookup in Hu as [_ Hu].
  rewrite (proj2 (Z.ltb_ge _ _)), Nat2Z.id in Hu by lia.
  rewrite Hu in Hu'. injection Hu' as <-.
  destruct (Z.eqb_spec count 1) as [->|H1].
  { left. split; [done|].
    destruct (Z.eqb_spec (count_zero uniq) 1); [done|discriminate]. }
  destruct (Z.eqb_spec count 3) as [->|H3]; [|discriminate].
  right. split; [done|].
  destruct (float_eq (s uniq) 0), (float_eq (t uniq) 0); done.
Qed.

End DuplicateFacts.


(** X19.  When [verify_duplicates] returns, each of the uniques has no
    duplicate, or one duplicate and exactly one of its parameters equal
    to [0.0], or three duplicates and both parameters equal to
    [0.0]. *)
Theorem verify_duplicates_counts :
  forall allclose duplicates uniques index uniq,
    verify_duplicates allclose duplicates uniques = Ok () ->
    uniques !! index = Some uniq ->
    let count := duplicates_of allclose uniq duplicates in
    count = 0
    \/ (count = 1 /\ count_zero uniq = 1)
    \/ (count = 3 /\ float_eq (s uniq) 0 = true
                  /\ float_eq (t uniq) 0 = true).
Proof.
  intros allclose duplicates uniques index uniq H Hu count. subst count.
  unfold verify_duplicates in H.
  apply bind_Ok in H as ([] & _ & H).
  apply bind_Ok in H as (counter & Hc & H).
  apply (count_duplicates_counted allclose uniques []) in Hc.
  2:{ split; [constructor|]. split; [constructor|]. done. }
  simpl in Hc. destruct Hc as (_ & Hall & Hrest).
  apply check_counts_Ok in H.
  destruct (decide (index ∈ (counter.*1))) as [Hin|Hnot];
    [|left; by eapply Hrest].
  apply list_elem_of_fmap in Hin as ([k c] & -> & Hin). simpl in Hu.
  destruct (proj1 (Forall_forall _ _) Hall _ Hin) as (uniq' & Hu' & Hc & _).
  simpl in Hu', Hc. rewrite Hu in Hu'. injection Hu' as <-.
  rewrite <- Hc. right.
  by apply (proj1 (Forall_forall _ _) H _ Hin).
Qed.

Lemma verify_duplicates_counts_witness :
  duplicates_of allclose_exact double_corner
    [single_corner; double_corner; double_corner; double_corner] = 3
  /\ float_eq (s double_corner) 0 = true
  /\ float_eq (t double_corner) 0 = true.
Proof.
  destruct (verify_duplicates_counts allclose_exact
              [single_corner; double_corner; double_corner; double_corner]
              [single_corner; double_corner; plain_crossing]
              1%nat double_corner eq_refl eq_refl)
    as [H|[[H _]|[H1 [H2 H3]]]];
    [discriminate H|discriminate H|done].
Defined.
(** ** The Jacobian determinant as a polynomial *)




(** The value the doctest prints for these parameters. *)
Example jacobian_det_doctest :
  exists value,
    (bernstein ← quadratic_jacobian_polynomial doctest_jacobian_nodes;
     de_casteljau_rounds zero_memory (as_rows bernstein) 2
       0.125 0.75 0.125) = Ok [[value]]
    /\ (value == 5.75)%Q.
Proof. eexists. split; [vm_compute; reflexivity|reflexivity]. Qed.



(** ** Subdivision by specialization *)

Section SpecializeFacts.

Variable specialize_surface :
  list Q -> Z -> Q * Q * Q -> Q * Q * Q -> Q * Q * Q -> result (list Q).

(** Outside the degrees 1 to 4, [_subdivide_nodes] is its general
    branch. *)
Lemma subdivide_nodes_general nodes degree :
  ~ 1 <= degree <= 4 ->
  _subdivide_nodes specialize_surface nodes degree
  = subdivide_by_specialize specialize_surface nodes degree.
Proof.
  intros Hd. unfold _subdivide_nodes.
  rewrite !(proj2 (Z.eqb_neq _ _)) by lia. done.
Qed.

End SpecializeFacts.

Lemma Forall2_Qeq_refl l : Forall2 Qeq l l.
Proof. induction l; constructor; [reflexivity|done]. Qed.







(** ** One round of de Casteljau *)

Section DeCasteljauFacts.

Variable nodes : list row.
Variables lambda1 lambda2 lambda3 : Q.

Local Abbreviation len := (Z.of_nat (length nodes)).
Local Abbreviation inner := (de_casteljau_inner nodes lambda1 lambda2 lambda3).
Local Abbreviation outer := (de_casteljau_outer nodes lambda1 lambda2 lambda3).

(** The inner loop reads [count] rows from each of its three indices
    on, and writes as many. *)
Lemma de_casteljau_inner_Ok count p1 p2 p3 acc :
  0 <= p1 <= p3 -> 0 <= p2 <= p3 -> p3 + Z.of_nat count <= len ->
  exists rows,
    inner count p1 p2 p3 acc
    = Ok (p1 + Z.of_nat count, p2 + Z.of_nat count, p3 + Z.of_nat count,
          acc ++ rows)
    /\ length rows = count.
Proof.
  revert p1 p2 p3 acc.
  induction count as [|count IH]; intros p1 p2 p3 acc H1 H2 H3.
  - exists []. simpl. rewrite !Z.add_0_r, app_nil_r. done.
  - simpl de_casteljau_inner.
    destruct (py_index_in_range nodes p1) as [r1 ->]; [lia|].
    destruct (py_index_in_range nodes p2) as [r2 ->]; [lia|].
    destruct (py_index_in_range nodes p3) as [r3 ->]; [lia|].
    cbn [mbind result_bind].
    destruct (IH (p1 + 1) (p2 + 1) (p3 + 1)
                (acc ++ [row_add (row_add (row_scale lambda1 r1)
                                    (row_scale lambda2 r2))
                           (row_scale lambda3 r3)]))
      as (rows & -> & Hlen); [lia..|].
    eexists (_ :: rows). rewrite <- app_assoc.
    split; [|simpl; by rewrite Hlen].
    replace (p1 + Z.of_nat (S count)) with (p1 + 1 + Z.of_nat count) by lia.
    replace (p2 + Z.of_nat (S count)) with (p2 + 1 + Z.of_nat count) by lia.
    replace (p3 + Z.of_nat (S count)) with (p3 + 1 + Z.of_nat count) by lia.
    done.
Qed.

(** A run of the inner loop to its end stayed within [nodes]. *)
Lemma de_casteljau_inner_inv count p1 p2 p3 acc r :
  inner count p1 p2 p3 acc = Ok r ->
  (0 < count)%nat -> 0 <= p3 ->
  p3 + Z.of_nat count <= len.
Proof.
  revert p1 p2 p3 acc.
  induction count as [|count IH]; intros p1 p2 p3 acc; [lia|].
  simpl. intros H _ Hp3.
  apply bind_Ok in H as (r1 & _ & H).
  apply bind_Ok in H as (r2 & _ & H).
  apply bind_Ok in H as (r3 & H3 & H).
  apply py_index_lookup in H3 as [H3 _].
  destruct count as [|count]; [lia|].
  apply IH in H; lia.
Qed.

Lemma de_casteljau_inner_Raise count p1 p2 p3 acc e :
  inner count p1 p2 p3 acc = Raise e -> e = IndexError.
Proof.
  revert p1 p2 p3 acc.
  induction count as [|count IH]; intros p1 p2 p3 acc; simpl; [done|].
  intros H.
  apply bind_Raise in H as [H%py_index_Raise|(r1 & _ & H)]; [done|].
  apply bind_Raise in H as [H%py_index_Raise|(r2 & _ & H)]; [done|].
  apply bind_Raise in H as [H%py_index_Raise|(r3 & _ & H)]; [done|].
  by eapply IH.
Qed.

Lemma de_casteljau_outer_Raise degree rounds k p1 p2 p3 acc e :
  outer degree rounds k p1 p2 p3 acc = Raise e -> e = IndexError.
Proof.
  revert k p1 p2 p3 acc.
  induction rounds as [|rounds IH]; intros k p1 p2 p3 acc; simpl; [done|].
  intros H.
  apply bind_Raise in H as [H%de_casteljau_inner_Raise
                           |([[[q1 q2] q3] acc'] & _ & H)]; [done|].
  by eapply IH.
Qed.

(** The number of rows written before pass [k] of the outer loop. *)
Local Abbreviation written_before degree k := (k * degree - triangular k).

(** With all the rows of a surface of the degree, the outer loop runs
    to its end and has written [degree (degree + 1) / 2] rows. *)
Lemma de_casteljau_outer_Ok degree rounds k acc :
  0 <= k -> k + Z.of_nat rounds = degree ->
  (degree + 1) * (degree + 2) <= 2 * len ->
  Z.of_nat (length acc) = written_before degree k ->
  exists written,
    outer degree rounds k
      (written_before degree k + k) (written_before degree k + k + 1)
      (written_before degree k + degree + 1) acc
    = Ok written
    /\ Z.of_nat (length written) = written_before degree degree.
Proof.
  revert k acc.
  induction rounds as [|rounds IH]; intros k acc Hk Hr Hlen Hacc.
  - exists acc. simpl. split; [done|].
    assert (degree = k) as -> by lia. done.
  - simpl de_casteljau_outer.
    pose proof (triangular_double k) as Htri.
    destruct (de_casteljau_inner_Ok (Z.to_nat (degree - k))
                (written_before degree k + k)
                (written_before degree k + k + 1)
                (written_before degree k + degree + 1) acc)
      as (rows & -> & Hrows); [nia|nia|nia|].
    cbn [mbind result_bind].
    rewrite Z2Nat.id by lia.
    replace (written_before degree k + k + (degree - k) + 1)
      with (written_before degree (k + 1) + (k + 1))
      by (rewrite triangular_succ; lia).
    replace (written_before degree k + k + 1 + (degree - k) + 1)
      with (written_before degree (k + 1) + (k + 1) + 1)
      by (rewrite triangular_succ; lia).
    replace (written_before degree k + degree + 1 + (degree - k))
      with (written_before degree (k + 1) + degree + 1)
      by (rewrite triangular_succ; lia).
    apply IH; [lia|lia|done|].
    rewrite length_app, triangular_succ. lia.
Qed.

(** A run of the outer loop to its end has read the last row of a
    surface of the degree. *)
Lemma de_casteljau_outer_inv degree rounds k acc written :
  0 <= k -> k + Z.of_nat rounds = degree -> (0 < rounds)%nat ->
  outer degree rounds k
    (written_before degree k + k) (written_before degree k + k + 1)
    (written_before degree k + degree + 1) acc
  = Ok written ->
  (degree + 1) * (degree + 2) <= 2 * len.
Proof.
  revert k acc.
  induction rounds as [|rounds IH]; intros k acc Hk Hr Hpos; [lia|].
  simpl. intros H.
  apply bind_Ok in H as ([[[q1 q2] q3] acc'] & Hin & H).
  pose proof (triangular_double k) as Htri.
  destruct rounds as [|rounds].
  - apply de_casteljau_inner_inv in Hin; [|lia|nia]. nia.
  - destruct (de_casteljau_inner_Ok (Z.to_nat (degree - k))
                (written_before degree k + k)
                (written_before degree k + k + 1)
                (written_before degree k + degree + 1) acc)
      as (rows & Hin' & Hrows).
    + nia.
    + nia.
    + apply de_casteljau_inner_inv in Hin; [lia|lia|nia].
    + rewrite Hin' in Hin. injection Hin as <- <- <- <-.
      rewrite Z2Nat.id in H by lia.
      replace (written_before degree k + k + (degree - k) + 1)
        with (written_before degree (k + 1) + (k + 1)) in H
        by (rewrite triangular_succ; lia).
      replace (written_before degree k + k + 1 + (degree - k) + 1)
        with (written_before degree (k + 1) + (k + 1) + 1) in H
        by (rewrite triangular_succ; lia).
      replace (written_before degree k + degree + 1 + (degree - k))
        with (written_before degree (k + 1) + degree + 1) in H
        by (rewrite triangular_succ; lia).
      eapply (IH (k + 1)); [lia|lia|lia|exact H].
Qed.

End DeCasteljauFacts.
(** X23.  [_de_casteljau_one_round] on [n] rows and a degree that is
    not negative: with at least the [(degree + 1) (degree + 2) / 2]
    rows of a surface of the degree it writes
    [degree (degree + 1) / 2] rows and returns them followed by the
    [n - (degree + 1) (degree + 2) / 2] rows it never wrote, so that
    only the exact number of rows keeps uninitialized memory out of
    the result; with fewer rows it raises [IndexError], or [ValueError]
    when there are no more than [degree]. *)
Theorem de_casteljau_one_round_rows :
  forall uninitialized nodes degree lambda1 lambda2 lambda3,
    0 <= degree ->
    let n := Z.of_nat (length nodes) in
    let r := _de_casteljau_one_round uninitialized nodes degree
               lambda1 lambda2 lambda3 in
    ((degree + 1) * (degree + 2) <= 2 * n ->
     exists written,
       de_casteljau_outer nodes lambda1 lambda2 lambda3 degree
         (Z.to_nat degree) 0 0 1 (degree + 1) [] = Ok written
       /\ 2 * Z.of_nat (length written) = degree * (degree + 1)
       /\ r = Ok (np_empty_after uninitialized written (n - degree - 1))
       /\ ((degree + 1) * (degree + 2) = 2 * n -> r = Ok written))
    /\ (degree < n -> 2 * n < (degree + 1) * (degree + 2) ->
        r = Raise IndexError)
    /\ (n <= degree ->
        r = Raise (ValueError "negative dimensions are not allowed")).
Proof.
  intros uninitialized nodes degree l1 l2 l3 Hd n r. subst r n.
  unfold _de_casteljau_one_round.
  pose proof (triangular_double degree) as Htri.
  split; [|split].
  - intros Hlen.
    destruct (de_casteljau_outer_Ok nodes l1 l2 l3 degree
                (Z.to_nat degree) 0 []) as (written & Hw & Hcount);
      [lia|lia|done|done|].
    change (de_casteljau_outer nodes l1 l2 l3 degree (Z.to_nat degree)
              0 0 1 (degree + 1) [] = Ok written) in Hw.
    change (Z.of_nat (length written) = degree * degree - triangular degree)
      in Hcount.
    exists written. split; [exact Hw|]. split; [lia|].
    rewrite (proj2 (Z.ltb_ge _ _)) by nia. rewrite Hw.
    cbn [mbind result_bind].
    rewrite (proj2 (Z.ltb_ge _ _)) by nia.
    split; [done|]. intros Hexact. f_equal. unfold np_empty_after.
    replace (Z.to_nat (Z.of_nat (length nodes) - degree - 1) - length written)%nat
      with 0%nat by nia.
    simpl. by rewrite app_nil_r.
  - intros Hn Hshort. rewrite (proj2 (Z.ltb_ge _ _)) by lia.
    destruct (de_casteljau_outer nodes l1 l2 l3 degree (Z.to_nat degree)
                0 0 1 (degree + 1) []) as [written|e] eqn:Hw.
    + exfalso.
      assert (0 < Z.to_nat degree)%nat as Hpos by nia.
      pose proof (de_casteljau_outer_inv nodes l1 l2 l3 degree
                    (Z.to_nat degree) 0 [] written) as Hinv.
      specialize (Hinv ltac:(lia) ltac:(lia) Hpos Hw). lia.
    + by apply de_casteljau_outer_Raise in Hw as ->.
  - intros Hn. by rewrite (proj2 (Z.ltb_lt _ _)) by lia.
Qed.

(** The six rows of a quadratic surface give three rows; taken for a
    surface of degree one, the same six give one row and three rows of
    uninitialized memory. *)
Lemma de_casteljau_one_round_rows_witness :
  (exists written,
     _de_casteljau_one_round zero_memory doctest_jacobian_nodes 2
       0.5 0.25 0.25 = Ok written
     /\ length written = 3%nat)
  /\ exists written,
       length written = 1%nat
       /\ _de_casteljau_one_round zero_memory doctest_jacobian_nodes 1
            0.5 0.25 0.25
          = Ok (written ++ [zero_memory 1; zero_memory 2; zero_memory 3]).
Proof.
  split.
  - destruct (proj1 (de_casteljau_one_round_rows zero_memory
                doctest_jacobian_nodes 2 0.5 0.25 0.25 ltac:(lia)))
      as (written & _ & Hlen & _ & Hr); [simpl; lia|].
    exists written. split; [by apply Hr|]. lia.
  - destruct (proj1 (de_casteljau_one_round_rows zero_memory
                doctest_jacobian_nodes 1 0.5 0.25 0.25 ltac:(lia)))
      as (written & _ & Hlen & Hr & _); [simpl; lia|].
    exists written. split; [lia|]. rewrite Hr. f_equal.
    unfold np_empty_after. f_equal.
    replace (length written) with 1%nat by lia. reflexivity.
Defined.
(** ** The shape of the nodes of [quadratic_jacobian_polynomial] *)

Lemma py_index_map {A B} (f : A -> B) (l : list A) i :
  py_index (map f l) i
  = match py_index l i with Ok a => Ok (f a) | Raise e => Raise e end.
Proof.
  unfold py_index. rewrite length_map.
  destruct (_ && _); [|done].
  change (map f l) with (f <$> l). rewrite list_lookup_fmap.
  by destruct (l !! _).
Qed.

Lemma py_index_first {A} (a : A) (l : list A) : py_index (a :: l) 0 = Ok a.
Proof.
  apply py_index_lookup. split; [|reflexivity]. cbn [length]. lia.
Qed.

Lemma py_index_second {A} (a b : A) (l : list A) :
  py_index (a :: b :: l) 1 = Ok b.
Proof.
  apply py_index_lookup. split; [|reflexivity]. cbn [length]. lia.
Qed.

Lemma py_index_take_2 (r : row) i :
  (2 <= length r)%nat -> i = 0 \/ i = 1 ->
  py_index (take 2 r) i = py_index r i.
Proof.
  intros Hlen Hi. destruct r as [|x [|y r]]; simpl in Hlen; try lia.
  cbn [take].
  destruct Hi as [-> | ->];
    by rewrite ?py_index_first, ?py_index_second.
Qed.

Lemma two_by_two_det_narrow (row0 row1 : row) w :
  length row0 = w -> length row1 = w -> (w < 2)%nat ->
  two_by_two_det [row0; row1] = Raise IndexError.
Proof.
  intros H0 H1 Hw. unfold two_by_two_det.
  rewrite py_index_first, py_index_second. cbn [mbind result_bind].
  destruct row0 as [|a [|b row0]], row1 as [|c [|d row1]];
    simpl in *; try lia; reflexivity.
Qed.

Lemma two_by_two_det_take_2 (mat : list row) :
  Forall (fun r => (2 <= length r)%nat) mat ->
  two_by_two_det (map (take 2) mat) = two_by_two_det mat.
Proof.
  intros Hall. unfold two_by_two_det. rewrite !py_index_map.
  assert (forall i r, py_index mat i = Ok r -> (2 <= length r)%nat) as Hrow.
  { intros i r Hr%py_index_Ok. by apply (proj1 (Forall_forall _ _) Hall). }
  destruct (py_index mat 0) as [row0|] eqn:H0; [|reflexivity].
  cbn [mbind result_bind].
  rewrite !py_index_take_2 by eauto.
  destruct (py_index row0 0) as [a|]; [|reflexivity].
  cbn [mbind result_bind].
  destruct (py_index mat 1) as [row1|] eqn:H1; [|reflexivity].
  cbn [mbind result_bind].
  rewrite !py_index_take_2 by eauto. reflexivity.
Qed.

Lemma jacobian_at_nodes_take_2 (jac_parts : list row) first count :
  Forall (fun r => (2 <= length r)%nat) jac_parts ->
  jacobian_at_nodes (map (take 2) jac_parts) first count
  = jacobian_at_nodes jac_parts first count.
Proof.
  intros Hall. revert first.
  induction count as [|count IH]; intros first; [done|].
  cbn [jacobian_at_nodes]. rewrite IH.
  unfold slice_rows.
  change (map (take 2) jac_parts) with (take 2 <$> jac_parts).
  rewrite <- fmap_drop, <- fmap_take.
  change (take 2 <$> ?l) with (map (take 2) l).
  rewrite two_by_two_det_take_2; [done|].
  by apply Forall_take, Forall_drop.
Qed.

Lemma column_take_2 (nodes : list row) j :
  (j < 2)%nat -> column j (map (take 2) nodes) = column j nodes.
Proof.
  intros Hj. unfold column. rewrite map_map. apply map_ext.
  intros r. cbv beta. by rewrite lookup_take_lt.
Qed.

Lemma matrix_product_rows_take_2 mat (first : row) (nodes : list row) :
  (2 <= length first)%nat ->
  matrix_product_rows mat (map (take 2) (first :: nodes))
  = match matrix_product_rows mat (first :: nodes) with
    | Ok parts => Ok (map (take 2) parts)
    | Raise e => Raise e
    end.
Proof.
  intros Hw. unfold matrix_product_rows. rewrite length_map.
  destruct (forallb _ mat); [|done]. f_equal.
  rewrite map_map. apply map_ext. intros mrow.
  cbn [map]. rewrite length_take, Nat.min_l by done.
  destruct (length first) as [|[|w]] eqn:Hlen; try lia.
  cbn [seq map take].
  by rewrite <- !(column_take_2 (first :: nodes)) by lia.
Qed.

Lemma matrix_product_rows_width mat (nodes : list row) parts w :
  matrix_product_rows mat nodes = Ok parts ->
  (forall first rest, nodes = first :: rest -> length first = w) ->
  nodes <> [] ->
  Forall (fun r => length r = w) parts.
Proof.
  unfold matrix_product_rows. destruct (forallb _ mat); [|discriminate].
  intros [= <-] Hw Hne. apply Forall_forall. intros r Hr.
  apply list_elem_of_In, in_map_iff in Hr as (mrow & <- & _).
  rewrite length_map, length_seq.
  destruct nodes as [|first rest]; [done|]. by apply (Hw first rest).
Qed.

(** X24.  [quadratic_jacobian_polynomial] and the shape of [nodes]: a
    number of rows other than six is the [ValueError] of the matrix
    product; with six rows of fewer than two columns the determinants
    raise [IndexError]; and with more than two columns they do not
    fail: the columns after the second are ignored. *)
Theorem quadratic_jacobian_polynomial_shape :
  forall (nodes : list row),
    (length nodes <> 6%nat ->
     quadratic_jacobian_polynomial nodes
     = Raise (ValueError "shapes not aligned"))
    /\ (forall first rest,
           nodes = first :: rest -> length nodes = 6%nat ->
           ((length first < 2)%nat ->
            quadratic_jacobian_polynomial nodes = Raise IndexError)
           /\ ((2 <= length first)%nat ->
               quadratic_jacobian_polynomial nodes
               = quadratic_jacobian_polynomial (map (take 2) nodes))).
Proof.
  intros nodes. split.
  - intros Hlen. unfold quadratic_jacobian_polynomial, matrix_product_rows.
    assert (Nat.eqb 6 (length nodes) = false) as Hne
      by (apply Nat.eqb_neq; lia).
    cbn [_QUADRATIC_JACOBIAN_HELPER over map forallb length].
    by rewrite Hne.
  - intros first rest -> Hlen. split.
    + intros Hw. unfold quadratic_jacobian_polynomial.
      destruct (matrix_product_rows _QUADRATIC_JACOBIAN_HELPER
                  (first :: rest)) as [parts|e] eqn:Hparts.
      2:{ unfold matrix_product_rows in Hparts.
          cbn [_QUADRATIC_JACOBIAN_HELPER over map forallb length] in Hparts.
          cbn [_QUADRATIC_JACOBIAN_HELPER over map forallb length] in Hlen.
          injection Hlen as Hlen. rewrite Hlen in Hparts. discriminate. }
      pose proof (matrix_product_rows_width _ _ _ (length first) Hparts)
        as Hwidth.
      specialize (Hwidth ltac:(by intros ? ? [= <- _]) ltac:(done)).
      assert (length parts = 12%nat) as Hrows.
      { unfold matrix_product_rows in Hparts.
        destruct (forallb _ _); [|discriminate]. injection Hparts as <-.
        reflexivity. }
      destruct parts as [|r0 [|r1 parts]]; try discriminate Hrows.
      apply Forall_cons in Hwidth as [H0 Hwidth].
      apply Forall_cons in Hwidth as [H1 _].
      cbn [mbind result_bind jacobian_at_nodes].
      change (slice_rows (2 * 0) (2 * 0 + 2) (r0 :: r1 :: parts))
        with [r0; r1].
      by rewrite (two_by_two_det_narrow r0 r1 (length first)).
    + intros Hw. unfold quadratic_jacobian_polynomial.
      rewrite (matrix_product_rows_take_2 _ first rest Hw).
      destruct (matrix_product_rows _QUADRATIC_JACOBIAN_HELPER
                  (first :: rest)) as [parts|e] eqn:Hparts; [|done].
      cbn [mbind result_bind].
      rewrite jacobian_at_nodes_take_2; [done|].
      pose proof (matrix_product_rows_width _ _ _ (length first) Hparts)
        as Hwidth.
      specialize (Hwidth ltac:(by intros ? ? [= <- _]) ltac:(done)).
      eapply Forall_impl; [exact Hwidth|]. intros r Hr. simpl in Hr. lia.
Qed.

(** The surface of the doctest of [_jacobian_det] with a third
    coordinate: the same polynomial as without it. *)
Example quadratic_jacobian_polynomial_three_columns :
  quadratic_jacobian_polynomial (map (fun r => r ++ [7%Q]) doctest_jacobian_nodes)
  = quadratic_jacobian_polynomial doctest_jacobian_nodes.
Proof. vm_compute. reflexivity. Qed.
(** ** What one round of de Casteljau computes *)

Section DeCasteljauContent.

Variable nodes : list row.
Variables lambda1 lambda2 lambda3 : Q.
Variable degree : Z.

Local Abbreviation len := (Z.of_nat (length nodes)).
Local Abbreviation inner := (de_casteljau_inner nodes lambda1 lambda2 lambda3).
Local Abbreviation outer := (de_casteljau_outer nodes lambda1 lambda2 lambda3).
Local Abbreviation filled :=
  (de_casteljau_filled nodes lambda1 lambda2 lambda3 degree).

Lemma triangle_index_bounds j k :
  0 <= j -> 0 <= k -> j + k <= degree ->
  (degree + 1) * (degree + 2) <= 2 * len ->
  0 <= triangle_index degree j k < len.
Proof.
  intros Hj Hk Hjk Hlen. unfold triangle_index.
  pose proof (triangular_double k). nia.
Qed.

Lemma de_casteljau_filled_snoc k j acc r1 r2 r3 :
  0 <= j -> 0 <= k ->
  filled k j acc ->
  nodes !! Z.to_nat (triangle_index degree j k) = Some r1 ->
  nodes !! Z.to_nat (triangle_index degree (j + 1) k) = Some r2 ->
  nodes !! Z.to_nat (triangle_index degree j (k + 1)) = Some r3 ->
  filled k (j + 1)
    (acc ++ [barycentric_combination lambda1 lambda2 lambda3 r1 r2 r3]).
Proof.
  intros Hj Hk [Hlen Hrows] H1 H2 H3. split.
  - rewrite length_app. simpl. unfold triangle_index in *. lia.
  - intros j' k' Hj' Hk' Hcase.
    destruct (decide (k' = k /\ j' = j)) as [[-> ->]|Hne].
    + exists r1, r2, r3. repeat split; try done.
      rewrite <- Hlen, Nat2Z.id. apply list_lookup_middle. done.
    + destruct (Hrows j' k' Hj' Hk') as (q1 & q2 & q3 & Q1 & Q2 & Q3 & Q);
        [lia|].
      exists q1, q2, q3. repeat split; try done.
      rewrite lookup_app_l; [done|]. by eapply lookup_lt_Some.
Qed.

(** The inner loop fills the rest of row [k]. *)
Lemma de_casteljau_inner_filled count k j acc :
  0 <= j -> 0 <= k -> j + Z.of_nat count = degree - k ->
  (degree + 1) * (degree + 2) <= 2 * len ->
  filled k j acc ->
  exists acc',
    inner count (triangle_index degree j k)
      (triangle_index degree (j + 1) k) (triangle_index degree j (k + 1)) acc
    = Ok (triangle_index degree (j + Z.of_nat count) k,
          triangle_index degree (j + Z.of_nat count + 1) k,
          triangle_index degree (j + Z.of_nat count) (k + 1), acc')
    /\ filled k (j + Z.of_nat count) acc'.
Proof.
  revert j acc.
  induction count as [|count IH]; intros j acc Hj Hk Hc Hlen Hf.
  - exists acc. simpl. by rewrite !Z.add_0_r.
  - simpl de_casteljau_inner.
    destruct (triangle_index_bounds j k) as [L1 U1]; [lia..|done|].
    destruct (triangle_index_bounds (j + 1) k) as [L2 U2]; [lia..|done|].
    destruct (triangle_index_bounds j (k + 1)) as [L3 U3]; [lia..|done|].
    destruct (py_index_in_range nodes (triangle_index degree j k))
      as [r1 H1]; [lia|].
    destruct (py_index_in_range nodes (triangle_index degree (j + 1) k))
      as [r2 H2]; [lia|].
    destruct (py_index_in_range nodes (triangle_index degree j (k + 1)))
      as [r3 H3]; [lia|].
    rewrite H1, H2, H3. cbn [mbind result_bind].
    apply py_index_lookup in H1 as [_ H1], H2 as [_ H2], H3 as [_ H3].
    rewrite (proj2 (Z.ltb_ge (triangle_index degree j k) 0)) in H1 by lia.
    rewrite (proj2 (Z.ltb_ge (triangle_index degree (j + 1) k) 0)) in H2
      by lia.
    rewrite (proj2 (Z.ltb_ge (triangle_index degree j (k + 1)) 0)) in H3
      by lia.
    replace (triangle_index degree j k + 1)
      with (triangle_index degree (j + 1) k)
      by (unfold triangle_index; lia).
    replace (triangle_index degree (j + 1) k + 1)
      with (triangle_index degree (j + 1 + 1) k)
      by (unfold triangle_index; lia).
    replace (triangle_index degree j (k + 1) + 1)
      with (triangle_index degree (j + 1) (k + 1))
      by (unfold triangle_index; lia).
    destruct (IH (j + 1)
                (acc ++ [barycentric_combination lambda1 lambda2 lambda3
                           r1 r2 r3]))
      as (acc' & Hin & Hf'); [lia|lia|lia|done| |].
    { by apply de_casteljau_filled_snoc. }
    exists acc'.
    replace (j + Z.of_nat (S count)) with (j + 1 + Z.of_nat count) by lia.
    done.
Qed.

(** From one row of the triangle to the next. *)
Lemma de_casteljau_filled_next k acc :
  0 <= k ->
  filled k (degree - k) acc -> filled (k + 1) 0 acc.
Proof.
  intros Hk [Hlen Hrows]. split.
  - rewrite Hlen. unfold triangle_index. rewrite triangular_succ. lia.
  - intros j' k' Hj' Hk' Hcase. apply Hrows; [done..|]. lia.
Qed.

Lemma de_casteljau_outer_filled rounds k acc :
  0 <= k -> k + Z.of_nat rounds = degree ->
  (degree + 1) * (degree + 2) <= 2 * len ->
  filled k 0 acc ->
  exists written,
    outer degree rounds k (triangle_index degree 0 k)
      (triangle_index degree 1 k) (triangle_index degree 0 (k + 1)) acc
    = Ok written
    /\ filled degree 0 written.
Proof.
  revert k acc.
  induction rounds as [|rounds IH]; intros k acc Hk Hr Hlen Hf.
  - exists acc. simpl. split; [done|].
    by replace k with degree in Hf by lia.
  - simpl de_casteljau_outer.
    destruct (de_casteljau_inner_filled (Z.to_nat (degree - k)) k 0 acc)
      as (acc' & Hin & Hf'); [lia|lia|lia|done|done|].
    change (triangle_index degree (0 + 1) k)
      with (triangle_index degree 1 k) in Hin.
    rewrite Hin. cbn [mbind result_bind].
    rewrite Z2Nat.id in * by lia.
    replace (triangle_index degree (0 + (degree - k)) k + 1)
      with (triangle_index degree 0 (k + 1))
      by (unfold triangle_index; rewrite triangular_succ; lia).
    replace (triangle_index degree (0 + (degree - k) + 1) k + 1)
      with (triangle_index degree 1 (k + 1))
      by (unfold triangle_index; rewrite triangular_succ; lia).
    replace (triangle_index degree (0 + (degree - k)) (k + 1))
      with (triangle_index degree 0 (k + 1 + 1))
      by (unfold triangle_index; rewrite !triangular_succ; lia).
    apply IH; [lia|lia|done|].
    apply de_casteljau_filled_next; [done|].
    by replace (degree - k) with (0 + (degree - k)) by lia.
Qed.

End DeCasteljauContent.
Lemma de_casteljau_filled_empty nodes lambda1 lambda2 lambda3 degree :
  de_casteljau_filled nodes lambda1 lambda2 lambda3 degree 0 0 [].
Proof.
  split; [done|]. intros j' k' Hj' Hk' Hcase. lia.
Qed.

(** With the rows of a surface of the degree, a round returns what its
    loops wrote. *)
Lemma de_casteljau_one_round_filled
    uninitialized nodes degree lambda1 lambda2 lambda3 :
  0 <= degree ->
  2 * Z.of_nat (length nodes) = (degree + 1) * (degree + 2) ->
  exists new_nodes,
    _de_casteljau_one_round uninitialized nodes degree
      lambda1 lambda2 lambda3 = Ok new_nodes
    /\ de_casteljau_filled nodes lambda1 lambda2 lambda3 degree
         degree 0 new_nodes.
Proof.
  intros Hd Hlen. unfold _de_casteljau_one_round.
  destruct (de_casteljau_outer_filled nodes lambda1 lambda2 lambda3 degree
              (Z.to_nat degree) 0 [])
    as (written & Hw & Hf);
    [lia|lia|lia|apply de_casteljau_filled_empty|].
  replace (triangle_index degree 0 (0 + 1)) with (degree + 1) in Hw
    by (unfold triangle_index; change (triangular (0 + 1)) with 0; lia).
  change (triangle_index degree 0 0) with 0 in Hw.
  change (triangle_index degree 1 0) with 1 in Hw.
  pose proof (triangular_double degree) as Htri.
  pose proof (proj1 Hf) as Hcount. unfold triangle_index in Hcount.
  rewrite (proj2 (Z.ltb_ge _ _)) by nia. rewrite Hw.
  cbn [mbind result_bind].
  rewrite (proj2 (Z.ltb_ge _ _)) by nia.
  exists written. split; [|done]. f_equal. unfold np_empty_after.
  replace (Z.to_nat (Z.of_nat (length nodes) - degree - 1) - length written)%nat
    with 0%nat by nia.
  simpl. by rewrite app_nil_r.
Qed.

(** X25.  On the rows of a surface of the degree,
    [_de_casteljau_one_round] computes what its documentation states:
    the node [(j, k)] of the surface one degree smaller is
    [lambda1] times the node [(j, k)], plus [lambda2] times the node
    [(j + 1, k)], plus [lambda3] times the node [(j, k + 1)] of the
    surface given; and these are all the rows it returns. *)
Theorem de_casteljau_one_round_nodes :
  forall uninitialized nodes degree lambda1 lambda2 lambda3,
    0 <= degree ->
    2 * Z.of_nat (length nodes) = (degree + 1) * (degree + 2) ->
    exists new_nodes,
      _de_casteljau_one_round uninitialized nodes degree
        lambda1 lambda2 lambda3 = Ok new_nodes
      /\ 2 * Z.of_nat (length new_nodes) = degree * (degree + 1)
      /\ forall j k,
           0 <= j -> 0 <= k -> j + k <= degree - 1 ->
           exists row1 row2 row3,
             nodes !! Z.to_nat (triangle_index degree j k) = Some row1
             /\ nodes !! Z.to_nat (triangle_index degree (j + 1) k)
                = Some row2
             /\ nodes !! Z.to_nat (triangle_index degree j (k + 1))
                = Some row3
             /\ new_nodes !! Z.to_nat (triangle_index (degree - 1) j k)
                = Some (barycentric_combination lambda1 lambda2 lambda3
                          row1 row2 row3).
Proof.
  intros uninitialized nodes degree l1 l2 l3 Hd Hlen.
  destruct (de_casteljau_one_round_filled uninitialized nodes degree
              l1 l2 l3 Hd Hlen) as (new_nodes & Hr & Hcount & Hrows).
  exists new_nodes. split; [done|]. split.
  - unfold triangle_index in Hcount.
    pose proof (triangular_double degree). nia.
  - intros j k Hj Hk Hjk. apply Hrows; [done..|]. lia.
Qed.

(** The first node of the quadratic surface of the doctest, reduced
    with the weights of the barycentre. *)
Lemma de_casteljau_one_round_nodes_witness :
  exists new_nodes row1 row2 row3,
    _de_casteljau_one_round zero_memory doctest_jacobian_nodes 2
      (1 # 3) (1 # 3) (1 # 3) = Ok new_nodes
    /\ doctest_jacobian_nodes !! 0%nat = Some row1
    /\ doctest_jacobian_nodes !! 1%nat = Some row2
    /\ doctest_jacobian_nodes !! 3%nat = Some row3
    /\ new_nodes !! 0%nat
       = Some (barycentric_combination (1 # 3) (1 # 3) (1 # 3)
                 row1 row2 row3).
Proof.
  destruct (de_casteljau_one_round_nodes zero_memory doctest_jacobian_nodes
              2 (1 # 3) (1 # 3) (1 # 3) ltac:(lia) eq_refl)
    as (new_nodes & Hr & _ & Hrows).
  destruct (Hrows 0 0 ltac:(lia) ltac:(lia) ltac:(lia))
    as (row1 & row2 & row3 & H1 & H2 & H3 & Hnew).
  by exists new_nodes, row1, row2, row3.
Defined.
